(** * DDPM sampling pipelines ([pipeline_costum.py])

    A shallow embedding of the two inference pipelines of the repository,
    [DDPMPipeline_Costum] and [DDPMPipeline_Costum_ClsEmb], and the
    properties their specification states about them.

    The pipelines are thin orchestration code over objects they do not
    define: the noise-prediction network, the noise scheduler, the random
    number generators and the tensor library.  The embedding keeps that
    split.  Tensors are objects in a store, addressed by their identity, so
    that [clone], rebinding and in-place updates by a collaborator are told
    apart.  Tensor operations whose meaning is fixed by the tensor library
    ([clone], [to], [clamp], scalar arithmetic, [permute]) are functions on
    the store; elements are IEEE binary32 values ([spec_float]) or 64-bit
    integers.  The network, the scheduler, the samplers and the image
    converter are the fields of a record [Collab]; what a property needs
    from them is stated as a contract on that record.  Exceptions are an
    outcome of every effectful operation, and each call the pipeline makes
    to a sampler, to the scheduler or to the network is recorded in an
    event log. *)

From stdpp Require Import base gmap list strings.
From Stdlib Require Import ZArith Lia.
From Stdlib Require Import Floats.SpecFloat.

Open Scope Z_scope.

(** ** Tensor elements: binary32 *)

Module F32.

Definition prec : Z := 24.
Definition emax : Z := 128.

(** The float nearest to an integer (round to nearest, ties to even). *)
Definition of_Z (z : Z) : spec_float := binary_normalize prec emax z 0 false.

(** The Python literal [0.5]. *)
Definition half : spec_float := S754_finite false 8388608 (-24).

Definition mul : spec_float → spec_float → spec_float := SFmul prec emax.
Definition add : spec_float → spec_float → spec_float := SFadd prec emax.
Definition sub : spec_float → spec_float → spec_float := SFsub prec emax.

Definition is_nan (x : spec_float) : bool :=
  match x with S754_nan => true | _ => false end.

(** [x.clamp(lo, hi)] on one element: a NaN is passed through, any other
    value goes through [min(max(x, lo), hi)]. *)
Definition clamp (lo hi x : spec_float) : spec_float :=
  if is_nan x then x
  else
    let a := if SFltb x lo then lo else x in
    if SFltb hi a then hi else a.

(** [lo <= x <= hi]; false when [x] is a NaN. *)
Definition within (lo hi x : spec_float) : bool :=
  SFleb lo x && SFleb x hi.

End F32.

(** Clamping of an integer element. *)
Definition clampZ (lo hi x : Z) : Z := Z.min (Z.max x lo) hi.

(** ** Tensors and the object store *)

(** The identity of a tensor object. *)
Definition loc := nat.

(** The elements of a tensor.  The model has the two element types the
    pipelines create, [float32] for the noise and [int64] for the labels;
    tensors of another floating-point type are outside it, and no
    property below states the element type of the result of tensor
    arithmetic. *)
Inductive tdata :=
| F32s (xs : list spec_float)
| I64s (xs : list Z).

Inductive dtype := float32 | int64.

Record Tensor := mkTensor {
  t_shape : list Z;
  t_device : string;
  t_data : tdata
}.

Definition t_dtype (T : Tensor) : dtype :=
  match t_data T with F32s _ => float32 | I64s _ => int64 end.

(** First dimension of a tensor. *)
Definition batch_dim (T : Tensor) : option Z := head (t_shape T).

(** The number of entries of a shape, and the number of elements a tensor
    holds. *)
Definition numel (shape : list Z) : Z := foldr Z.mul 1 shape.

Definition t_len (T : Tensor) : nat :=
  match t_data T with
  | F32s xs => length xs
  | I64s xs => length xs
  end.

(** A tensor with the shape and the elements of [T], on the device
    [dev]. *)
Definition on_device (dev : string) (T : Tensor) : Tensor :=
  mkTensor (t_shape T) dev (t_data T).

(** Every element of an integer tensor lies in [[lo, hi)]. *)
Definition ints_in_range (lo hi : Z) (T : Tensor) : Prop :=
  match t_data T with
  | I64s xs => Forall (λ x, lo ≤ x < hi) xs
  | F32s _ => False
  end.

(** Every element is a NaN or lies in [[lo, hi]]. *)
Definition elem_within (lo hi : Z) (T : Tensor) : Prop :=
  match t_data T with
  | F32s xs =>
      Forall (λ x, F32.is_nan x = true
                   ∨ F32.within (F32.of_Z lo) (F32.of_Z hi) x = true) xs
  | I64s xs => Forall (λ x, lo ≤ x ≤ hi) xs
  end.

(** Every element lies in [[lo, hi]]. *)
Definition elem_strictly_within (lo hi : Z) (T : Tensor) : Prop :=
  match t_data T with
  | F32s xs => Forall (λ x, F32.within (F32.of_Z lo) (F32.of_Z hi) x = true) xs
  | I64s xs => Forall (λ x, lo ≤ x ≤ hi) xs
  end.

(** The [generator] argument: [None], one generator object, or a list of
    generator objects.  A generator object is named by a handle. *)
Inductive GenArg :=
| GenNone
| GenOne (h : nat)
| GenList (hs : list nat).

Definition exn := string.

Inductive Outcome (A : Type) :=
| Ok (a : A)
| Raise (e : exn).
Arguments Ok {A} a.
Arguments Raise {A} e.

Definition is_ok {A} (o : Outcome A) : bool :=
  match o with Ok _ => true | Raise _ => false end.

(** Calls made to the samplers, the scheduler and the network, in the
    order they are made.  A call to the network records the sample and
    the labels as they are in the store when the call is made.  A call to
    the integer sampler records its arguments and, when it returns, the
    tensor it returned and what that tensor held then.  The image
    converter acts on the array it is given and on nothing else; its call
    is not logged. *)
Inductive Event :=
| EvRandn (shape : list Z) (g : GenArg) (dev : option string)
| EvSetTimesteps (n : Z)
| EvRandint (low high : Z) (size : list Z) (g : GenArg) (dt : dtype)
            (result : option (loc * option Tensor))
| EvUnet (image : loc) (image_now : option Tensor) (t : Z)
         (labels : option loc) (labels_now : option Tensor)
| EvStep (model_output : loc) (t : Z) (image : loc) (g : GenArg).

Definition is_unet_event (e : Event) : bool :=
  match e with EvUnet _ _ _ _ _ => true | _ => false end.
Definition is_step_event (e : Event) : bool :=
  match e with EvStep _ _ _ _ => true | _ => false end.
Definition is_randint_event (e : Event) : bool :=
  match e with EvRandint _ _ _ _ _ _ => true | _ => false end.
Definition is_set_timesteps_event (e : Event) : bool :=
  match e with EvSetTimesteps _ => true | _ => false end.
Definition is_loop_event (e : Event) : bool :=
  is_unet_event e || is_step_event e.

(** [loop_bodies k evs]: [evs] is [k] repetitions of one network call
    followed by one scheduler step on that call's timestep and sample. *)
Fixpoint loop_bodies (k : nat) (evs : list Event) : bool :=
  match k, evs with
  | O, [] => true
  | S k', EvUnet im _ t _ _ :: EvStep _ t' im' _ :: rest =>
      Z.eqb t t' && Nat.eqb im im' && loop_bodies k' rest
  | _, _ => false
  end.

(** The configuration of the network that the pipelines read.
    [sample_size] is an [int], a sequence of [int]s, or [None], the
    default of the network's configuration. *)
Inductive SampleSize :=
| SizeInt (n : Z)
| SizeSeq (dims : list Z)
| SizeNone.

Record UNetConfig := mkUNetConfig {
  in_channels : Z;
  sample_size : SampleSize
}.

(** [self.unet]: the network itself, or a multi-GPU wrapper holding it in
    its [module] attribute. *)
Inductive UNetRef :=
| Bare (config : UNetConfig)
| Wrapped (module_config : UNetConfig).

(** [self]: the registered network and the device the pipeline is on. *)
Record Pipeline := mkPipeline {
  unet : UNetRef;
  device : string
}.

(** [torch.device(d).type]: the device string up to the colon that
    precedes a device index, ["mps"] for ["mps:0"]. *)
Definition device_type (d : string) : string :=
  match String.index 0 ":" d with
  | Some n => String.substring 0 n d
  | None => d
  end.

(** [self.device.type == "mps"]. *)
Definition on_mps (self : Pipeline) : bool :=
  String.eqb (device_type (device self)) "mps".

(** [a == b] for an [Optional[str]] and a string literal. *)
Definition str_is (o : option string) (s : string) : bool :=
  match o with
  | Some x => String.eqb x s
  | None => false
  end.

(** [x.permute(0, 2, 3, 1)] on the row-major data of a tensor of shape
    [(n, c, h, w)]. *)
Definition permute_0231 {A} (n c h w : nat) (xs : list A) : list A :=
  i ← seq 0 n; y ← seq 0 h; x ← seq 0 w; k ← seq 0 c;
  option_list (xs !! (((i * c + k) * h + y) * w + x)%nat).

(** ** The monad of the embedding: state and exceptions *)

Section Monad.

Context {S : Type}.

Definition M' (A : Type) : Type := S → Outcome A * S.

Definition ret {A} (a : A) : M' A := λ s, (Ok a, s).

Definition bind {A B} (m : M' A) (k : A → M' B) : M' B :=
  λ s, match m s with
       | (Ok a, s') => k a s'
       | (Raise e, s') => (Raise e, s')
       end.

Definition raise {A} (e : exn) : M' A := λ s, (Raise e, s).

(** An operation that raises or returns without touching the state. *)
Definition lift_pure {A} (o : Outcome A) : M' A := λ s, (o, s).

End Monad.

Arguments M' S A : clear implicits.

Declare Scope M_scope.
Delimit Scope M_scope with M.
Notation "'let*' x ':=' m 'in' k" := (bind m (λ x, k))
  (at level 10, x name, m at level 100, k at level 200,
   format "'[v' 'let*'  x  ':='  m  'in'  '/' k ']'") : M_scope.
Notation "m '>>' k" := (bind m (λ _, k))
  (at level 100, k at level 200, right associativity) : M_scope.

Section Model.

Context {GState Sched Pil : Type}.

Local Open Scope M_scope.

(** The world a call runs in: the tensor store, the generator objects and
    the default generator of the tensor library, and the scheduler
    object. *)
Record World := mkWorld {
  heap : gmap loc Tensor;
  rngs : gmap nat GState;
  default_rng : GState;
  sched : Sched
}.

Record State := mkState {
  world : World;
  events : list Event
}.

Definition M (A : Type) : Type := M' State A.

Definition log (e : Event) : M unit :=
  λ s, (Ok tt, mkState (world s) (events s ++ [e])).

(** A collaborator acts on the world, not on the log. *)
Definition lift {A} (f : World → Outcome A * World) : M A :=
  λ s, let '(o, w) := f (world s) in (o, mkState w (events s)).

Definition set_heap (w : World) (h : gmap loc Tensor) : World :=
  mkWorld h (rngs w) (default_rng w) (sched w).

(** *** Operations of the tensor library on the store *)

Definition fresh_loc (h : gmap loc Tensor) : loc := fresh (dom h).

(** A new tensor object. *)
Definition alloc (T : Tensor) : M loc :=
  λ s, let l := fresh_loc (heap (world s)) in
       (Ok l, mkState (set_heap (world s) (<[l := T]> (heap (world s))))
                      (events s)).

Definition deref (l : loc) : M Tensor :=
  λ s, match heap (world s) !! l with
       | Some T => (Ok T, s)
       | None => (Raise "ReferenceError", s)
       end.

(** The value of a tensor as it is when a call is made. *)
Definition peek (l : loc) : M (option Tensor) :=
  λ s, (Ok (heap (world s) !! l), s).

(** [x.clone()]: a new object with the same contents. *)
Definition tensor_clone (l : loc) : M loc :=
  let* T := deref l in
  alloc T.

(** [x.to(device)]: [x] itself when it is on [device] already, a copy on
    [device] otherwise. *)
Definition tensor_to (l : loc) (dev : string) : M loc :=
  let* T := deref l in
  if String.eqb (t_device T) dev then ret l
  else alloc (mkTensor (t_shape T) dev (t_data T)).

Definition tensor_cpu (l : loc) : M loc := tensor_to l "cpu".

Definition as_floats (d : tdata) : list spec_float :=
  match d with
  | F32s xs => xs
  | I64s xs => map F32.of_Z xs
  end.

(** [x * c] and [x + c] for a Python float [c]: a new tensor, of element
    type [float32] for the two element types of the model (an integer
    tensor is promoted to the default float type). *)
Definition tensor_mul_scalar (l : loc) (c : spec_float) : M loc :=
  let* T := deref l in
  alloc (mkTensor (t_shape T) (t_device T)
           (F32s (map (λ x, F32.mul x c) (as_floats (t_data T))))).

Definition tensor_add_scalar (l : loc) (c : spec_float) : M loc :=
  let* T := deref l in
  alloc (mkTensor (t_shape T) (t_device T)
           (F32s (map (λ x, F32.add x c) (as_floats (t_data T))))).

Definition clamp_data (lo hi : Z) (d : tdata) : tdata :=
  match d with
  | F32s xs => F32s (map (F32.clamp (F32.of_Z lo) (F32.of_Z hi)) xs)
  | I64s xs => I64s (map (clampZ lo hi) xs)
  end.

(** [x.clamp(lo, hi)] for Python integers [lo], [hi]: a new tensor of the
    same shape, device and element type. *)
Definition tensor_clamp (l : loc) (lo hi : Z) : M loc :=
  let* T := deref l in
  alloc (mkTensor (t_shape T) (t_device T) (clamp_data lo hi (t_data T))).

Definition permute_data (n c h w : Z) (d : tdata) : tdata :=
  match d with
  | F32s xs =>
      F32s (permute_0231 (Z.to_nat n) (Z.to_nat c) (Z.to_nat h) (Z.to_nat w) xs)
  | I64s xs =>
      I64s (permute_0231 (Z.to_nat n) (Z.to_nat c) (Z.to_nat h) (Z.to_nat w) xs)
  end.

(** [x.permute(0, 2, 3, 1)]: defined on four-dimensional tensors only. *)
Definition tensor_permute_0231 (l : loc) : M loc :=
  let* T := deref l in
  match t_shape T with
  | [n; c; h; w] =>
      alloc (mkTensor [n; h; w; c] (t_device T) (permute_data n c h w (t_data T)))
  | _ => raise "RuntimeError"
  end.

(** [x.numpy()]: the array of a tensor that is on the CPU. *)
Definition tensor_numpy (l : loc) : M Tensor :=
  let* T := deref l in
  if String.eqb (t_device T) "cpu" then ret T else raise "TypeError".

(** *** The collaborators *)

(** What the pipelines call and do not define.
    - [randn_tensor shape generator device]: the sampler of Gaussian noise;
    - [torch_randint low high size generator dtype]: the sampler of
      integers;
    - [unet_forward image t labels]: [self.unet(image, t[, labels],
      return_dict=False)[0]];
    - [set_timesteps n], [timesteps], [scheduler_step model_output t image
      generator]: the scheduler's [set_timesteps], its [timesteps]
      attribute and [step(...).prev_sample];
    - [numpy_to_pil]: the conversion of an array to a list of images.
    Each of them may read and change the world and may raise. *)
Record Collab := mkCollab {
  randn_tensor : list Z → GenArg → option string → World → Outcome loc * World;
  torch_randint :
    Z → Z → list Z → GenArg → dtype → World → Outcome loc * World;
  unet_forward : loc → Z → option loc → World → Outcome loc * World;
  set_timesteps : Z → World → Outcome unit * World;
  timesteps : Sched → list Z;
  scheduler_step : loc → Z → loc → GenArg → World → Outcome loc * World;
  numpy_to_pil : Tensor → Outcome (list Pil)
}.

Context (C : Collab).

Definition call_randn (shape : list Z) (g : GenArg) (dev : option string) : M loc :=
  log (EvRandn shape g dev) >>
  lift (randn_tensor C shape g dev).

(** What a call returned, as it is in the store when the call returns. *)
Definition returned_now (o : Outcome loc) (w : World)
    : option (loc * option Tensor) :=
  match o with
  | Ok r => Some (r, heap w !! r)
  | Raise _ => None
  end.

Definition call_randint (low high : Z) (size : list Z) (g : GenArg)
    (dt : dtype) : M loc :=
  λ s, let '(o, w) := torch_randint C low high size g dt (world s) in
       (o, mkState w (events s
                        ++ [EvRandint low high size g dt (returned_now o w)])).

Definition call_set_timesteps (n : Z) : M unit :=
  log (EvSetTimesteps n) >>
  lift (set_timesteps C n).

Definition get_timesteps : M (list Z) :=
  λ s, (Ok (timesteps C (sched (world s))), s).

Definition peek_opt (l : option loc) : M (option Tensor) :=
  match l with
  | Some c => peek c
  | None => ret None
  end.

Definition call_unet (image : loc) (t : Z) (labels : option loc) : M loc :=
  let* image_now := peek image in
  let* labels_now := peek_opt labels in
  log (EvUnet image image_now t labels labels_now) >>
  lift (unet_forward C image t labels).

Definition call_step (model_output : loc) (t : Z) (image : loc) (g : GenArg) : M loc :=
  log (EvStep model_output t image g) >>
  lift (scheduler_step C model_output t image g).

(** [self.progress_bar(iterable)] iterates over the items of [iterable]. *)
Definition progress_bar (ts : list Z) : list Z := ts.

(** ** The pipelines *)

(** The images a call returns: a tensor, or a list of PIL images. *)
Inductive Images :=
| TensorImage (image : loc)
| PilImages (images : list Pil).

Inductive Output :=
| ImagePipelineOutput (images : Images)
| Tuple1 (image : Images)
| Tuple2 (image : Images) (noise_init : loc)
| Tuple3 (image : Images) (noise_init : loc) (class_sample : loc).

Definition output_images (o : Output) : Images :=
  match o with
  | ImagePipelineOutput im => im
  | Tuple1 im => im
  | Tuple2 im _ => im
  | Tuple3 im _ _ => im
  end.

(** [unet = self.unet.module if hasattr(self.unet, "module") else self.unet],
    then [unet.config]. *)
Definition unet_config (self : Pipeline) : UNetConfig :=
  match unet self with
  | Wrapped module_config => module_config
  | Bare config => config
  end.

(** [image_shape]: [(batch_size, in_channels, sample_size, sample_size)]
    for an [int], [(batch_size, in_channels, *sample_size)] otherwise;
    unpacking [None] raises. *)
Definition image_shape (self : Pipeline) (batch_size : Z) : Outcome (list Z) :=
  let cfg := unet_config self in
  match sample_size cfg with
  | SizeInt n => Ok [batch_size; in_channels cfg; n; n]
  | SizeSeq dims => Ok (batch_size :: in_channels cfg :: dims)
  | SizeNone => Raise "TypeError"
  end.

(** The noise of the given shape, sampled on the device of the pipeline,
    or, on MPS, sampled without a device and then moved. *)
Definition sample_noise (self : Pipeline) (shape : list Z) (generator : GenArg)
    : M loc :=
  if on_mps self then
    let* image := call_randn shape generator None in
    tensor_to image (device self)
  else
    call_randn shape generator (Some (device self)).

(** Sample gaussian noise to begin loop. *)
Definition initial_noise (self : Pipeline) (batch_size : Z) (generator : GenArg) : M loc :=
  let* shape := lift_pure (image_shape self batch_size) in
  sample_noise self shape generator.

(** The loop over the timesteps; [labels] is [None] in the plain pipeline. *)
Fixpoint denoise_loop (labels : option loc) (generator : GenArg)
    (ts : list Z) (image : loc) : M loc :=
  match ts with
  | [] => ret image
  | t :: ts' =>
      let* model_output := call_unet image t labels in
      let* image := call_step model_output t image generator in
      denoise_loop labels generator ts' image
  end.

(** The branches on [output_type] after the loop. *)
Definition postprocess (output_type : option string) (image : loc) : M Images :=
  if str_is output_type "pil" then
    let* image := tensor_mul_scalar image F32.half in
    let* image := tensor_add_scalar image F32.half in
    let* image := tensor_clamp image 0 1 in
    let* image := tensor_cpu image in
    let* image := tensor_permute_0231 image in
    let* image := tensor_numpy image in
    let* image := lift_pure (numpy_to_pil C image) in
    ret (PilImages image)
  else if str_is output_type "tensor" then
    let* image := tensor_clamp image (-1) 1 in
    ret (TensorImage image)
  else
    ret (TensorImage image).

(** Everything up to the end of the loop of [DDPMPipeline_Costum.__call__]:
    the image the loop ends with, and the snapshot of the initial noise. *)
Definition DDPMPipeline_Costum_denoise (self : Pipeline) (batch_size : Z)
    (generator : GenArg) (num_inference_steps : Z) : M (loc * loc) :=
  let* image := initial_noise self batch_size generator in
  let* noise_init := tensor_clone image in
  call_set_timesteps num_inference_steps >>
  let* ts := get_timesteps in
  let* image := denoise_loop None generator (progress_bar ts) image in
  ret (image, noise_init).

Definition DDPMPipeline_Costum_finish (output_type : option string)
    (return_dict : bool) (image noise_init : loc) : M Output :=
  let* image := postprocess output_type image in
  if negb return_dict then
    if str_is output_type "tensor" then ret (Tuple2 image noise_init)
    else ret (Tuple1 image)
  else ret (ImagePipelineOutput image).

(** [DDPMPipeline_Costum.__call__] with every argument given. *)
Definition DDPMPipeline_Costum_call (self : Pipeline) (batch_size : Z)
    (generator : GenArg) (num_inference_steps : Z)
    (output_type : option string) (return_dict : bool) : M Output :=
  let* r := DDPMPipeline_Costum_denoise self batch_size generator
              num_inference_steps in
  DDPMPipeline_Costum_finish output_type return_dict r.1 r.2.

(** The class labels: the caller's, or [batch_size] integers drawn from
    [[0, 10)] and moved to the pipeline's device. *)
Definition class_embedding (self : Pipeline) (batch_size : Z)
    (generator : GenArg) (class_sample : option loc) : M loc :=
  match class_sample with
  | None =>
      let* labels := call_randint 0 10 [batch_size] generator int64 in
      tensor_to labels (device self)
  | Some labels => ret labels
  end.

Definition DDPMPipeline_Costum_ClsEmb_denoise (self : Pipeline) (batch_size : Z)
    (generator : GenArg) (class_sample : option loc)
    (num_inference_steps : Z) : M (loc * loc * loc) :=
  let* image := initial_noise self batch_size generator in
  let* noise_init := tensor_clone image in
  call_set_timesteps num_inference_steps >>
  let* class_sample := class_embedding self batch_size generator class_sample in
  let* ts := get_timesteps in
  let* image := denoise_loop (Some class_sample) generator (progress_bar ts) image in
  ret (image, noise_init, class_sample).

Definition DDPMPipeline_Costum_ClsEmb_finish (output_type : option string)
    (return_dict : bool) (image noise_init class_sample : loc) : M Output :=
  let* image := postprocess output_type image in
  if negb return_dict then
    if str_is output_type "tensor" then ret (Tuple3 image noise_init class_sample)
    else ret (Tuple1 image)
  else ret (ImagePipelineOutput image).

(** [DDPMPipeline_Costum_ClsEmb.__call__] with every argument given. *)
Definition DDPMPipeline_Costum_ClsEmb_call (self : Pipeline) (batch_size : Z)
    (generator : GenArg) (class_sample : option loc) (num_inference_steps : Z)
    (output_type : option string) (return_dict : bool) : M Output :=
  let* r := DDPMPipeline_Costum_ClsEmb_denoise self batch_size generator
              class_sample num_inference_steps in
  DDPMPipeline_Costum_ClsEmb_finish output_type return_dict r.1.1 r.1.2 r.2.

(** *** Keyword arguments and their defaults *)

(** The arguments of a call as the caller writes them: [None] stands for
    an argument that is left out. *)
Record Kwargs := mkKwargs {
  kw_batch_size : option Z;
  kw_generator : option GenArg;
  kw_class_sample : option (option loc);
  kw_num_inference_steps : option Z;
  kw_output_type : option (option string);
  kw_return_dict : option bool
}.

Definition DDPMPipeline_Costum__call__ (self : Pipeline) (kw : Kwargs) : M Output :=
  match kw_class_sample kw with
  | Some _ => raise "TypeError"
  | None =>
      DDPMPipeline_Costum_call self
        (default 1 (kw_batch_size kw))
        (default GenNone (kw_generator kw))
        (default 1000 (kw_num_inference_steps kw))
        (default (Some "pil"%string) (kw_output_type kw))
        (default true (kw_return_dict kw))
  end.

Definition DDPMPipeline_Costum_ClsEmb__call__ (self : Pipeline) (kw : Kwargs) : M Output :=
  DDPMPipeline_Costum_ClsEmb_call self
    (default 1 (kw_batch_size kw))
    (default GenNone (kw_generator kw))
    (default None (kw_class_sample kw))
    (default 1000 (kw_num_inference_steps kw))
    (default (Some "pil"%string) (kw_output_type kw))
    (default true (kw_return_dict kw)).

End Model.

(** ** Contracts on the collaborators *)

Section Contracts.

Context {GState Sched Pil : Type}.
Context (C : @Collab GState Sched Pil).

(** From [w] to [w'] every tensor object of [w] is still there, and none
    but those in [writable] has changed. *)
Definition keeps (w w' : @World GState Sched) (writable : list loc) : Prop :=
  ∀ l, is_Some (heap w !! l) →
       is_Some (heap w' !! l) ∧ (l ∉ writable → heap w' !! l = heap w !! l).

(** A returned tensor is in the store, and is a new object or one of
    [args]. *)
Definition returns_new_or (w w' : @World GState Sched) (o : Outcome loc)
    (args : list loc) : Prop :=
  ∀ r, o = Ok r → is_Some (heap w' !! r) ∧ (r ∈ args ∨ heap w !! r = None).

(** Ownership: the samplers return new tensors and write to none; the
    network and the scheduler step may update in place the sample tensors
    they are handed (never the labels), and return a new tensor or one of
    those; only the scheduler's own methods change the scheduler. *)
Record FrameContract : Prop := {
  randn_frame : ∀ shape g dev w o w',
    randn_tensor C shape g dev w = (o, w') →
    keeps w w' [] ∧ returns_new_or w w' o [] ∧ sched w' = sched w;
  randint_frame : ∀ low high size g dt w o w',
    torch_randint C low high size g dt w = (o, w') →
    keeps w w' [] ∧ returns_new_or w w' o [] ∧ sched w' = sched w;
  set_timesteps_frame : ∀ n w o w',
    set_timesteps C n w = (o, w') → keeps w w' [];
  unet_frame : ∀ image t labels w o w',
    unet_forward C image t labels w = (o, w') →
    keeps w w' [image] ∧ returns_new_or w w' o [image];
  step_frame : ∀ model_output t image g w o w',
    scheduler_step C model_output t image g w = (o, w') →
    keeps w w' [model_output; image]
    ∧ returns_new_or w w' o [model_output; image]
}.

(** [set_timesteps(n)] yields a schedule of exactly [n] timesteps. *)
Definition TimestepsContract : Prop :=
  ∀ n w w', set_timesteps C n w = (Ok tt, w') →
            Z.of_nat (length (timesteps C (sched w'))) = n.

Definition shape_at (w : @World GState Sched) (l : loc) : option (list Z) :=
  t_shape <$> heap w !! l.

(** Shapes: the noise sampler returns a tensor of the shape it is asked
    for; the network and the scheduler step preserve the shape of the
    sample they are given; the image converter returns one image for
    each entry of the first dimension. *)
Record ShapeContract : Prop := {
  randn_shape : ∀ shape g dev w r w',
    randn_tensor C shape g dev w = (Ok r, w') → shape_at w' r = Some shape;
  unet_shape : ∀ image t labels w r w',
    unet_forward C image t labels w = (Ok r, w') →
    shape_at w' image = shape_at w image;
  step_shape : ∀ model_output t image g w r w',
    scheduler_step C model_output t image g w = (Ok r, w') →
    shape_at w' r = shape_at w image;
  numpy_to_pil_length : ∀ arr ps,
    numpy_to_pil C arr = Ok ps → Some (Z.of_nat (length ps)) = batch_dim arr
}.

(** [torch.randint(low, high, size, dtype=dt)] returns a tensor of shape
    [size], with as many elements as that shape has entries, of the
    element type it is asked for; the elements of an integer tensor lie
    in [[low, high)]. *)
Definition RandintContract : Prop :=
  ∀ low high size g dt w r w',
    torch_randint C low high size g dt w = (Ok r, w') →
    ∃ T, heap w' !! r = Some T ∧ t_shape T = size
         ∧ Z.of_nat (t_len T) = numel size
         ∧ t_dtype T = dt
         ∧ (dt = int64 → ints_in_range low high T).

(** *** Determinism *)

(** The generator state a call with generator argument [g] draws from. *)
Definition gen_states (g : GenArg) (w : @World GState Sched) : list (option GState) :=
  match g with
  | GenNone => [Some (default_rng w)]
  | GenOne h => [rngs w !! h]
  | GenList hs => (λ h, rngs w !! h) <$> hs
  end.

(** Two worlds agree on the generator, and on the scheduler. *)
Definition same_gen (g : GenArg) (w1 w2 : @World GState Sched) : Prop :=
  gen_states g w1 = gen_states g w2.
Definition same_gen_sched (g : GenArg) (w1 w2 : @World GState Sched) : Prop :=
  same_gen g w1 w2 ∧ sched w1 = sched w2.

(** Two tensor objects, one in each world, with the same contents. *)
Definition same_value (w1 : @World GState Sched) (l1 : loc)
    (w2 : @World GState Sched) (l2 : loc) : Prop :=
  is_Some (heap w1 !! l1) ∧ heap w1 !! l1 = heap w2 !! l2.

Definition same_value_opt (w1 : @World GState Sched) (l1 : option loc)
    (w2 : @World GState Sched) (l2 : option loc) : Prop :=
  match l1, l2 with
  | Some a, Some b => same_value w1 a w2 b
  | None, None => True
  | _, _ => False
  end.

(** Two outcomes are the same exception, or tensors with the same
    contents. *)
Definition same_outcome (o1 : Outcome loc) (w1 : @World GState Sched)
    (o2 : Outcome loc) (w2 : @World GState Sched) : Prop :=
  match o1, o2 with
  | Ok r1, Ok r2 => same_value w1 r1 w2 r2
  | Raise e1, Raise e2 => e1 = e2
  | _, _ => False
  end.

(** The samplers, the network and the scheduler are functions of their
    inputs and of the generator they are given: run in two worlds that
    agree on these, they agree on their outcome, on the generator and the
    scheduler afterwards, and on the contents of the sample tensors they
    may have updated.  [set_timesteps(n)] puts the scheduler in a state
    that depends on [n] only. *)
Record DetContract (g : GenArg) : Prop := {
  randn_det : ∀ shape dev w1 w2 o1 o2 w1' w2',
    same_gen g w1 w2 →
    randn_tensor C shape g dev w1 = (o1, w1') →
    randn_tensor C shape g dev w2 = (o2, w2') →
    same_gen g w1' w2' ∧ same_outcome o1 w1' o2 w2';
  set_timesteps_det : ∀ n w1 w2 o1 o2 w1' w2',
    same_gen g w1 w2 →
    set_timesteps C n w1 = (o1, w1') →
    set_timesteps C n w2 = (o2, w2') →
    o1 = o2 ∧ (o1 = Ok tt → same_gen_sched g w1' w2');
  randint_det : ∀ low high size dt w1 w2 o1 o2 w1' w2',
    same_gen_sched g w1 w2 →
    torch_randint C low high size g dt w1 = (o1, w1') →
    torch_randint C low high size g dt w2 = (o2, w2') →
    same_gen_sched g w1' w2' ∧ same_outcome o1 w1' o2 w2';
  unet_det : ∀ t im1 im2 lb1 lb2 w1 w2 o1 o2 w1' w2',
    same_gen_sched g w1 w2 →
    same_value w1 im1 w2 im2 →
    same_value_opt w1 lb1 w2 lb2 →
    unet_forward C im1 t lb1 w1 = (o1, w1') →
    unet_forward C im2 t lb2 w2 = (o2, w2') →
    same_gen_sched g w1' w2' ∧ same_outcome o1 w1' o2 w2'
    ∧ (is_ok o1 = true → same_value w1' im1 w2' im2);
  step_det : ∀ t mo1 mo2 im1 im2 w1 w2 o1 o2 w1' w2',
    same_gen_sched g w1 w2 →
    same_value w1 mo1 w2 mo2 →
    same_value w1 im1 w2 im2 →
    scheduler_step C mo1 t im1 g w1 = (o1, w1') →
    scheduler_step C mo2 t im2 g w2 = (o2, w2') →
    same_gen_sched g w1' w2' ∧ same_outcome o1 w1' o2 w2'
}.

(** The contents of the images of an output; lists of PIL images are
    values already. *)
Definition images_value (w : @World GState Sched) (im : @Images Pil)
    : option (Tensor + list Pil) :=
  match im with
  | TensorImage l => inl <$> heap w !! l
  | PilImages ps => Some (inr ps)
  end.

(** What a caller can see of an output: its form, and the contents of
    the tensors it holds. *)
Inductive OutputValue :=
| VStructured (images : Tensor + list Pil)
| VTuple1 (image : Tensor + list Pil)
| VTuple2 (image : Tensor + list Pil) (noise_init : Tensor)
| VTuple3 (image : Tensor + list Pil) (noise_init : Tensor) (class_sample : Tensor).

Definition output_value (w : @World GState Sched) (o : @Output Pil)
    : option OutputValue :=
  match o with
  | ImagePipelineOutput im => VStructured <$> images_value w im
  | Tuple1 im => VTuple1 <$> images_value w im
  | Tuple2 im n =>
      i ← images_value w im; x ← heap w !! n; Some (VTuple2 i x)
  | Tuple3 im n c =>
      i ← images_value w im; x ← heap w !! n; y ← heap w !! c;
      Some (VTuple3 i x y)
  end.

(** The result of a call as its caller sees it. *)
Definition observed (r : Outcome (@Output Pil) * @State GState Sched)
    : Outcome (option OutputValue) :=
  match r.1 with
  | Ok o => Ok (output_value (world r.2) o)
  | Raise e => Raise e
  end.

End Contracts.

(** ** A reference implementation of the collaborators

    A small, executable network, scheduler and pair of samplers, on which
    the pipelines can be run: generators are linear congruential, the
    network applies a function to every element of the sample, and the
    scheduler subtracts the prediction and adds noise, in place or into a
    new tensor. *)

Module Ref.

Abbreviation GState := Z (only parsing).
Abbreviation Sched := (list Z) (only parsing).
Abbreviation Pil := Tensor (only parsing).
Abbreviation W := (@World Z (list Z)) (only parsing).

Definition lcg (s : Z) : Z := (s * 1103515245 + 12345) mod 2147483648.

(** [n] successive draws, and the state after them. *)
Fixpoint draws (n : nat) (s : Z) : list Z * Z :=
  match n with
  | O => ([], s)
  | S n' => let s' := lcg s in
            let '(xs, s'') := draws n' s' in (s' / 65536 :: xs, s'')
  end.

(** One batch of draws from each of the generators [hs], in order. *)
Fixpoint draw_each (per : nat) (hs : list nat) (r : gmap nat Z)
    : option (list Z * gmap nat Z) :=
  match hs with
  | [] => Some ([], r)
  | h :: hs' =>
      match r !! h with
      | None => None
      | Some s =>
          let '(xs, s') := draws per s in
          match draw_each per hs' (<[h := s']> r) with
          | None => None
          | Some (ys, r') => Some (xs ++ ys, r')
          end
      end
  end.

(** The draws for a tensor of shape [shape] from the generator argument
    [g]: from the default generator, from one generator, or sample by
    sample from a list of generators. *)
Definition draw (shape : list Z) (g : GenArg) (w : W)
    : Outcome (list Z * W) :=
  if forallb (Z.leb 0) shape then
    match g with
    | GenNone =>
        let '(xs, s') := draws (Z.to_nat (numel shape)) (default_rng w) in
        Ok (xs, mkWorld (heap w) (rngs w) s' (sched w))
    | GenOne h | GenList [h] =>
        match rngs w !! h with
        | None => Raise "ReferenceError"
        | Some s =>
            let '(xs, s') := draws (Z.to_nat (numel shape)) s in
            Ok (xs, mkWorld (heap w) (<[h := s']> (rngs w)) (default_rng w) (sched w))
        end
    | GenList hs =>
        match shape with
        | [] => Raise "IndexError"
        | b :: rest =>
            if (Z.of_nat (length hs) <? b) then Raise "IndexError"
            else
              match draw_each (Z.to_nat (numel rest)) (take (Z.to_nat b) hs) (rngs w) with
              | None => Raise "ReferenceError"
              | Some (xs, r') =>
                  Ok (xs, mkWorld (heap w) r' (default_rng w) (sched w))
              end
        end
    end
  else Raise "RuntimeError".

Definition new_tensor (T : Tensor) (w : W) : loc * W :=
  let l := fresh_loc (heap w) in
  (l, set_heap w (<[l := T]> (heap w))).

Definition normal_of (x : Z) : spec_float := F32.of_Z (x mod 7 - 3).

Definition randn_tensor (shape : list Z) (g : GenArg) (dev : option string)
    (w : W) : Outcome loc * W :=
  match draw shape g w with
  | Raise e => (Raise e, w)
  | Ok (xs, w1) =>
      let '(l, w2) :=
        new_tensor (mkTensor shape (default "cpu"%string dev)
                      (F32s (map normal_of xs))) w1 in
      (Ok l, w2)
  end.

(** Integers as the elements of a tensor of element type [dt]. *)
Definition int_data (dt : dtype) (xs : list Z) : tdata :=
  match dt with
  | int64 => I64s xs
  | float32 => F32s (map F32.of_Z xs)
  end.

Definition torch_randint (low high : Z) (size : list Z) (g : GenArg)
    (dt : dtype) (w : W) : Outcome loc * W :=
  match g with
  | GenList _ => (Raise "TypeError", w)
  | _ =>
      if high <=? low then (Raise "RuntimeError", w)
      else
        match draw size g w with
        | Raise e => (Raise e, w)
        | Ok (xs, w1) =>
            let '(l, w2) :=
              new_tensor
                (mkTensor size "cpu"
                   (int_data dt (map (λ x, low + x mod (high - low)) xs)))
                w1 in
            (Ok l, w2)
        end
  end.

Definition sum_labels (T : Tensor) : Z :=
  match t_data T with
  | I64s xs => foldr Z.add 0 xs
  | F32s _ => 0
  end.

(** The network: [net t x] on every element [x] of the sample, shifted by
    the sum of the labels when labels are given. *)
Definition unet_forward (net : Z → spec_float → spec_float)
    (image : loc) (t : Z) (labels : option loc) (w : W) : Outcome loc * W :=
  match heap w !! image with
  | None => (Raise "ReferenceError", w)
  | Some T =>
      let shift :=
        match labels with
        | None => Some (S754_zero false)
        | Some c => (λ L, F32.of_Z (sum_labels L)) <$> heap w !! c
        end in
      match shift with
      | None => (Raise "ReferenceError", w)
      | Some d =>
          let '(l, w') :=
            new_tensor (mkTensor (t_shape T) (t_device T)
                          (F32s (map (λ x, F32.add (net t x) d)
                                   (as_floats (t_data T))))) w in
          (Ok l, w')
      end
  end.

Definition num_train_timesteps : Z := 1000.

(** [n] timesteps, evenly spaced, from the last to the first. *)
Definition set_timesteps (n : Z) (w : W) : Outcome unit * W :=
  if (n <=? 0) || (num_train_timesteps <? n) then (Raise "ValueError", w)
  else
    (Ok tt,
     mkWorld (heap w) (rngs w) (default_rng w)
       (rev (map (λ i, Z.of_nat i * (num_train_timesteps / n))
               (seq 0 (Z.to_nat n))))).

(** The step: the sample minus the prediction, plus half a draw of noise
    on every element except at timestep 0; written over the sample when
    [in_place] is set, into a new tensor otherwise. *)
Definition scheduler_step (in_place : bool) (model_output : loc) (t : Z)
    (image : loc) (g : GenArg) (w : W) : Outcome loc * W :=
  match heap w !! model_output, heap w !! image with
  | Some E, Some X =>
      if negb (bool_decide (t_shape E = t_shape X)) then (Raise "RuntimeError", w)
      else
        let mean := zip_with F32.sub (as_floats (t_data X)) (as_floats (t_data E)) in
        let noisy :=
          if 0 <? t then
            match draw (t_shape X) g w with
            | Raise e => Raise e
            | Ok (xs, w1) =>
                Ok (zip_with (λ m x, F32.add m (F32.mul (normal_of x) F32.half))
                      mean xs, w1)
            end
          else Ok (mean, w) in
        match noisy with
        | Raise e => (Raise e, w)
        | Ok (ys, w1) =>
            let P := mkTensor (t_shape X) (t_device X) (F32s ys) in
            if in_place then (Ok image, set_heap w1 (<[image := P]> (heap w1)))
            else let '(l, w2) := new_tensor P w1 in (Ok l, w2)
        end
  | _, _ => (Raise "ReferenceError", w)
  end.

Fixpoint chunks {A} (k : nat) (size : nat) (xs : list A) : list (list A) :=
  match k with
  | O => []
  | S k' => take size xs :: chunks k' size (drop size xs)
  end.

(** One image of shape [(h, w, c)] for each entry of the first dimension
    of an array of shape [(n, h, w, c)]. *)
Definition numpy_to_pil (arr : Tensor) : Outcome (list Pil) :=
  match t_shape arr with
  | [n; h; w; c] =>
      if (n <? 0) then Raise "ValueError"
      else
        Ok (map (λ d, mkTensor [h; w; c] "cpu" (F32s d))
              (chunks (Z.to_nat n) (Z.to_nat (h * w * c))
                 (as_floats (t_data arr))))
  | _ => Raise "ValueError"
  end.

Definition collab (net : Z → spec_float → spec_float) (in_place : bool)
    : @Collab GState Sched Pil :=
  mkCollab randn_tensor torch_randint (unet_forward net) set_timesteps
    (λ s, s) (scheduler_step in_place) numpy_to_pil.

(** A network that halves its input, and one whose output is not a
    number. *)
Definition net_half (t : Z) (x : spec_float) : spec_float := F32.mul x F32.half.
Definition net_nan (t : Z) (x : spec_float) : spec_float := S754_nan.

(** A pipeline on the CPU for 2 x 2 images of one channel. *)
Definition pipe : Pipeline :=
  mkPipeline (Bare (mkUNetConfig 1 (SizeInt 2))) "cpu".

(** A world with one generator object, seeded with [seed], and no tensor. *)
Definition world0 (seed : Z) : W := mkWorld ∅ {[ 0%nat := seed ]} 7 [].

Definition state0 (seed : Z) : @State GState Sched := mkState (world0 seed) [].

(** A world that holds the labels [[3; 1]] at location 0. *)
Definition labels31 : Tensor := mkTensor [2] "cpu" (I64s [3; 1]).
Definition world1 (seed : Z) : W :=
  mkWorld {[ 0%nat := labels31 ]} {[ 0%nat := seed ]} 7 [].
Definition state1 (seed : Z) : @State GState Sched := mkState (world1 seed) [].

(** Two generator stores agree on the generators [hs]. *)
Definition agree_on (hs : list nat) (r1 r2 : gmap nat Z) : Prop :=
  ∀ h, h ∈ hs → r1 !! h = r2 !! h.

(** Runs of the two pipelines on the reference collaborators, for a batch
    of two images and the generator object 0. *)
Definition run_plain (net : Z → spec_float → spec_float) (in_place : bool)
    (n : Z) (output_type : option string) (return_dict : bool)
    (s : @State Z (list Z)) : Outcome (@Output Tensor) * @State Z (list Z) :=
  DDPMPipeline_Costum_call (collab net in_place) pipe 2 (GenOne 0) n
    output_type return_dict s.

Definition run_cls (net : Z → spec_float → spec_float) (in_place : bool)
    (class_sample : option loc) (n : Z) (output_type : option string)
    (return_dict : bool) (s : @State Z (list Z))
    : Outcome (@Output Tensor) * @State Z (list Z) :=
  DDPMPipeline_Costum_ClsEmb_call (collab net in_place) pipe 2 (GenOne 0)
    class_sample n output_type return_dict s.

(** The output of a run that returned. *)
Definition returned (r : Outcome (@Output Tensor) * @State Z (list Z))
    : @Output Tensor :=
  match r.1 with
  | Ok out => out
  | Raise _ => Tuple1 (PilImages [])
  end.

(** The image tensor of an output, and what it holds. *)
Definition image_loc (o : @Output Tensor) : loc :=
  match output_images o with
  | TensorImage l => l
  | PilImages _ => 0%nat
  end.

Definition tensor_at (w : W) (l : loc) : Tensor :=
  default (mkTensor [] "cpu" (F32s [])) (heap w !! l).

(** Another world with the same generator object: it holds a tensor
    already, its default generator and its scheduler are in other states. *)
Definition world2 (seed : Z) : W :=
  mkWorld {[ 4%nat := labels31 ]} {[ 0%nat := seed; 1%nat := 5 ]} 99 [3; 2; 1].
Definition state2 (seed : Z) : @State Z (list Z) :=
  mkState (world2 seed) [EvSetTimesteps 3].

(** A call that leaves every argument out. *)
Definition no_kwargs : Kwargs := mkKwargs None None None None None None.

(** A network that uses the labels it is handed as scratch space: it
    reads them and then clears them in place. *)
Definition zero_data (d : tdata) : tdata :=
  match d with
  | F32s xs => F32s (map (λ _, S754_zero false) xs)
  | I64s xs => I64s (map (λ _, 0) xs)
  end.

Definition unet_forward_clearing (net : Z → spec_float → spec_float)
    (image : loc) (t : Z) (labels : option loc) (w : W) : Outcome loc * W :=
  match unet_forward net image t labels w with
  | (Ok l, w') =>
      match labels ≫= λ c, (λ L, (c, L)) <$> heap w' !! c with
      | Some (c, L) =>
          (Ok l,
           set_heap w'
             (<[c := mkTensor (t_shape L) (t_device L) (zero_data (t_data L))]>
                (heap w')))
      | None => (Ok l, w')
      end
  | (Raise e, w') => (Raise e, w')
  end.

Definition collab_clearing : @Collab GState Sched Pil :=
  mkCollab randn_tensor torch_randint (unet_forward_clearing net_half)
    set_timesteps (λ s, s) (scheduler_step false) numpy_to_pil.

(** The runs the properties are evaluated on. *)
Definition plain_tensor := run_plain net_half false 3 (Some "tensor"%string) false (state0 42).
Definition plain_pil := run_plain net_half true 2 (Some "pil"%string) true (state0 42).
Definition plain_np := run_plain net_half false 2 (Some "np"%string) false (state0 42).
Definition nan_tensor := run_plain net_nan false 1 (Some "tensor"%string) false (state0 42).
Definition cls_given_tensor :=
  run_cls net_half true (Some 0%nat) 2 (Some "tensor"%string) false (state1 42).
Definition cls_given_pil :=
  run_cls net_half false (Some 0%nat) 2 (Some "pil"%string) false (state1 42).
Definition cls_sampled :=
  run_cls net_half true None 2 (Some "tensor"%string) false (state0 42).
Definition cls_cleared_sampled :=
  DDPMPipeline_Costum_ClsEmb_call collab_clearing pipe 2 (GenOne 0) None 2
    (Some "tensor"%string) false (state0 42).
Definition cls_cleared_given :=
  DDPMPipeline_Costum_ClsEmb_call collab_clearing pipe 2 (GenOne 0)
    (Some 0%nat) 2 (Some "tensor"%string) false (state1 42).

End Ref.

(** ** Vocabulary of the statements *)

Section Vocabulary.

Context {GState Sched Pil : Type}.
Implicit Types (w : @World GState Sched) (s : @State GState Sched).

(** From [s] to [s'] the store has only gained tensor objects; the
    generators, the scheduler and the log are as they were. *)
Definition grows s s' : Prop :=
  keeps (world s) (world s') []
  ∧ rngs (world s') = rngs (world s)
  ∧ default_rng (world s') = default_rng (world s)
  ∧ sched (world s') = sched (world s)
  ∧ events s' = events s.

(** A tensor operation took [s] to [s'], read the tensor [l] and returned
    the tensor [r], which holds [f] of what [l] held. *)
Definition op_result s (l : loc) s' (r : loc) (f : Tensor → Tensor) : Prop :=
  grows s s'
  ∧ ∃ T, heap (world s) !! l = Some T ∧ heap (world s') !! r = Some (f T).

(** What the call that took [s] to [s'] added to the log. *)
Definition new_events s s' : list Event :=
  drop (length (events s)) (events s').

(** The labels handed to the network, call by call: the tensor object and
    what it held when the call was made. *)
Definition unet_labels (evs : list Event) : list (option loc * option Tensor) :=
  omap (λ e, match e with
             | EvUnet _ _ _ lb lbv => Some (lb, lbv)
             | _ => None
             end) evs.

(** The sample handed to the network, call by call. *)
Definition unet_samples (evs : list Event) : list (loc * option Tensor) :=
  omap (λ e, match e with
             | EvUnet im imv _ _ _ => Some (im, imv)
             | _ => None
             end) evs.

(** The step counts the scheduler was configured with. *)
Definition configured_steps (evs : list Event) : list Z :=
  omap (λ e, match e with EvSetTimesteps n => Some n | _ => None end) evs.

(** The class labels an output holds. *)
Definition output_labels (o : @Output Pil) : option loc :=
  match o with
  | Tuple3 _ _ c => Some c
  | _ => None
  end.

(** The initial noise an output holds. *)
Definition output_noise (o : @Output Pil) : option loc :=
  match o with
  | Tuple2 _ n => Some n
  | Tuple3 _ n _ => Some n
  | _ => None
  end.

(** The size of the batch of the images of an output. *)
Definition images_batch w (im : @Images Pil) : option Z :=
  match im with
  | TensorImage l => heap w !! l ≫= batch_dim
  | PilImages ps => Some (Z.of_nat (length ps))
  end.

(** The arguments [kw] with [num_inference_steps] given as [n], or left
    out. *)
Definition with_steps (n : option Z) (kw : Kwargs) : Kwargs :=
  mkKwargs (kw_batch_size kw) (kw_generator kw) (kw_class_sample kw) n
    (kw_output_type kw) (kw_return_dict kw).

(** The statement that a tuple returned by the class-conditional pipeline
    holds the caller's labels for every [output_type]. *)
Definition labels_returned_for_every_output_type
    (C : @Collab GState Sched Pil) : Prop :=
  ∀ self b g c n ot s out s',
    is_Some (heap (world s) !! c) →
    DDPMPipeline_Costum_ClsEmb_call C self b g (Some c) n ot false s = (Ok out, s') →
    output_labels out = Some c ∧ heap (world s') !! c = heap (world s) !! c.

(** The statement that every element of a tensor output lies in
    [[-1, 1]]. *)
Definition tensor_output_in_unit_range (C : @Collab GState Sched Pil) : Prop :=
  ∀ self b g n rd s out s' l T,
    DDPMPipeline_Costum_call C self b g n (Some "tensor"%string) rd s = (Ok out, s') →
    output_images out = TensorImage l →
    heap (world s') !! l = Some T →
    elem_strictly_within (-1) 1 T.

(** The statement that the labels the pipeline samples are handed to the
    network unchanged at every iteration: one tensor object, with one
    contents. *)
Definition labels_unchanged_at_every_iteration
    (C : @Collab GState Sched Pil) : Prop :=
  ∀ self b g n ot rd s out s',
    DDPMPipeline_Costum_ClsEmb_call C self b g None n ot rd s = (Ok out, s') →
    ∃ c L, Forall (λ x, x = (Some c, Some L)) (unet_labels (new_events s s')).

(** An operation of the tensor library is a function of the contents of
    the tensor it reads: run on two tensors with the same contents, in
    two stores, it returns in both or in neither, allocates and changes
    nothing else, and the tensors it returns have the same contents. *)
Definition det_op (op : loc → @M GState Sched loc) : Prop :=
  ∀ l1 l2 s1 s2 r1 s1',
    heap (world s1) !! l1 = heap (world s2) !! l2 →
    op l1 s1 = (Ok r1, s1') →
    ∃ r2 s2', op l2 s2 = (Ok r2, s2')
      ∧ grows s1 s1' ∧ grows s2 s2'
      ∧ same_value (world s1') r1 (world s2') r2.

(** A pair of tensors, one in each run, with the same contents, neither
    being the sample of its run. *)
Definition guarded_pair w1 w2 (im1 im2 : loc) (p : loc * loc) : Prop :=
  same_value w1 p.1 w2 p.2 ∧ p.1 ≠ im1 ∧ p.2 ≠ im2.

Definition labels_among (lb1 lb2 : option loc) (prot : list (loc * loc)) : Prop :=
  match lb1, lb2 with
  | Some c1, Some c2 => (c1, c2) ∈ prot
  | None, None => True
  | _, _ => False
  end.

End Vocabulary.

(** ** More vocabulary: the order and the arguments of the calls *)

(** The shape asked of the noise sampler by a call that gets that far;
    when [sample_size] is [None] no call does, and the empty shape stands
    in. *)
Definition sampled_shape (self : Pipeline) (batch_size : Z) : list Z :=
  match image_shape self batch_size with
  | Ok shape => shape
  | Raise _ => []
  end.

(** The timesteps handed to the network, and to the scheduler step, call
    by call. *)
Definition unet_timesteps (evs : list Event) : list Z :=
  omap (λ e, match e with EvUnet _ _ t _ _ => Some t | _ => None end) evs.

Definition step_timesteps (evs : list Event) : list Z :=
  omap (λ e, match e with EvStep _ t _ _ => Some t | _ => None end) evs.

(** The generator argument of a call that takes one. *)
Definition event_generator (e : Event) : option GenArg :=
  match e with
  | EvRandn _ g _ => Some g
  | EvRandint _ _ _ g _ _ => Some g
  | EvStep _ _ _ g => Some g
  | EvSetTimesteps _ => None
  | EvUnet _ _ _ _ _ => None
  end.

(** [uses_only g e]: the call [e] takes no generator, or takes [g]. *)
Definition uses_only (g : GenArg) (e : Event) : Prop :=
  match event_generator e with
  | Some g' => g' = g
  | None => True
  end.

(** [bodies_prefix evs]: [evs] is a run of loop bodies that may stop after
    any call: whole bodies, one network call followed by one scheduler
    step on the same timestep and sample, and at the end possibly a
    network call alone. *)
Fixpoint bodies_prefix (evs : list Event) : bool :=
  match evs with
  | [] => true
  | EvUnet im _ t _ _ :: rest =>
      match rest with
      | [] => true
      | EvStep _ t' im' _ :: rest' =>
          Z.eqb t t' && Nat.eqb im im' && bodies_prefix rest'
      | _ => false
      end
  | _ => false
  end.

(** [call_log_ok sampled evs]: the log of a call, whether it returns or
    raises, cut where the call ended: the noise sampler first; then the
    configuration of the scheduler; then, when the labels are sampled, the
    label sampler; then loop bodies. *)
Definition call_log_ok (sampled : bool) (evs : list Event) : bool :=
  match evs with
  | [] => true
  | EvRandn _ _ _ :: rest =>
      match rest with
      | [] => true
      | EvSetTimesteps _ :: rest' =>
          if sampled then
            match rest' with
            | [] => true
            | EvRandint _ _ _ _ _ _ :: bodies => bodies_prefix bodies
            | _ => false
            end
          else bodies_prefix rest'
      | _ => false
      end
  | _ => false
  end.

(** Whether the caller leaves the labels to the pipeline. *)
Definition labels_sampled (class_sample : option loc) : bool :=
  match class_sample with
  | None => true
  | Some _ => false
  end.

Section MoreVocabulary.

Context {GState Sched Pil : Type}.
Implicit Types (w : @World GState Sched) (s : @State GState Sched).

Definition device_at w (l : loc) : option string :=
  t_device <$> heap w !! l.

(** The collaborators [C] with another image converter. *)
Definition with_numpy_to_pil (f : Tensor → Outcome (list Pil))
    (C : @Collab GState Sched Pil) : @Collab GState Sched Pil :=
  mkCollab (randn_tensor C) (torch_randint C) (unet_forward C)
    (set_timesteps C) (timesteps C) (scheduler_step C) f.

(** The form of an output of the plain pipeline for the flags of the
    call. *)
Definition plain_form (output_type : option string) (return_dict : bool)
    (o : @Output Pil) : Prop :=
  match o with
  | ImagePipelineOutput _ => return_dict = true
  | Tuple1 _ => return_dict = false ∧ output_type ≠ Some "tensor"%string
  | Tuple2 _ _ => return_dict = false ∧ output_type = Some "tensor"%string
  | Tuple3 _ _ _ => False
  end.

(** The form of an output of the class-conditional pipeline. *)
Definition cls_form (output_type : option string) (return_dict : bool)
    (o : @Output Pil) : Prop :=
  match o with
  | ImagePipelineOutput _ => return_dict = true
  | Tuple1 _ => return_dict = false ∧ output_type ≠ Some "tensor"%string
  | Tuple2 _ _ => False
  | Tuple3 _ _ _ => return_dict = false ∧ output_type = Some "tensor"%string
  end.

End MoreVocabulary.

(** ** More runs on the reference collaborators *)

Module Demo.

(** A pipeline whose network declares a one-dimensional sample size, so
    that its images have three dimensions. *)
Definition pipe3d : Pipeline :=
  mkPipeline (Bare (mkUNetConfig 1 (SizeSeq [2]))) "cpu".

(** A pipeline whose network declares no sample size. *)
Definition pipe_none : Pipeline :=
  mkPipeline (Bare (mkUNetConfig 1 SizeNone)) "cpu".

(** An image converter that always fails. *)
Definition no_pil (arr : Tensor) : Outcome (list Tensor) := Raise "PILError".

(** A pipeline on the MPS device with index 0, behind a multi-GPU
    wrapper. *)
Definition pipe_mps : Pipeline :=
  mkPipeline (Wrapped (mkUNetConfig 1 (SizeInt 2))) "mps:0".

(** A world that holds a 1 x 2 x 1 x 2 image on an accelerator: a value
    above 1, a value below -1, a NaN and 0.5. *)
Definition image_wild : Tensor :=
  mkTensor [1; 2; 1; 2] "cuda"
    (F32s [F32.of_Z 3; F32.of_Z (-2); S754_nan; F32.half]).
Definition state_wild : @State Z (list Z) :=
  mkState (mkWorld {[ 0%nat := image_wild ]} {[ 0%nat := 42 ]} 7 []) [].

(** A world that holds an image whose values are in [[-1, 1]]. *)
Definition image_tame : Tensor :=
  mkTensor [1; 1; 2; 2] "cpu"
    (F32s [F32.of_Z 1; F32.of_Z (-1); S754_zero false; F32.half]).
Definition state_tame : @State Z (list Z) :=
  mkState (mkWorld {[ 0%nat := image_tame ]} {[ 0%nat := 42 ]} 7 []) [].

(** A call that gives the step count and nothing else. *)
Definition two_steps : Kwargs :=
  mkKwargs None (Some (GenOne 0)) None (Some 2) None None.

Definition run_defaults :=
  DDPMPipeline_Costum__call__ (Ref.collab Ref.net_half false) Ref.pipe
    two_steps (Ref.state0 42).

(** Runs of the loop alone, on a world that holds an image. *)
Definition loop_ok :=
  denoise_loop (Ref.collab Ref.net_half false) None (GenOne 0) [5; 0; 3] 0%nat
    state_tame.

(** The generator object 3 does not exist: the scheduler step raises when
    it first draws noise, at timestep 5. *)
Definition loop_prefix :=
  denoise_loop (Ref.collab Ref.net_half false) None (GenOne 3) [0] 0%nat
    state_tame.
Definition loop_failing :=
  denoise_loop (Ref.collab Ref.net_half false) None (GenOne 3) [0; 5; 7] 0%nat
    state_tame.

(** Runs of whole calls. *)
Definition run_3d :=
  DDPMPipeline_Costum_call (Ref.collab Ref.net_half false) pipe3d 2 (GenOne 0)
    2 (Some "pil"%string) true (Ref.state0 42).
Definition run_mps :=
  DDPMPipeline_Costum_ClsEmb_call (Ref.collab Ref.net_half true) pipe_mps 2
    (GenOne 0) None 2 (Some "tensor"%string) false (Ref.state0 42).
(** [num_inference_steps=0] is refused by the reference scheduler. *)
Definition run_zero_steps :=
  DDPMPipeline_Costum_ClsEmb_call (Ref.collab Ref.net_half true) Ref.pipe 2
    (GenOne 0) None 0 (Some "tensor"%string) false (Ref.state0 42).

(** The result of a run of the loop that returned. *)
Definition loop_result (r : Outcome loc * @State Z (list Z)) : loc :=
  match r.1 with
  | Ok l => l
  | Raise _ => 0%nat
  end.

(** The images of a run of the post-processing stage that returned. *)
Definition images_result (r : Outcome (@Images Tensor) * @State Z (list Z))
    : @Images Tensor :=
  match r.1 with
  | Ok im => im
  | Raise _ => PilImages []
  end.

(** The post-processing stage alone, on the worlds that hold an image. *)
Definition post_pil :=
  postprocess (Ref.collab Ref.net_half false) (Some "pil"%string) 0%nat
    state_wild.
Definition post_tensor :=
  postprocess (Ref.collab Ref.net_half false) (Some "tensor"%string) 0%nat
    state_tame.

(** A run in a world that holds a tensor of the caller's at location 4. *)
Definition run_state2 :=
  Ref.run_plain Ref.net_half true 2 (Some "tensor"%string) false (Ref.state2 42).

(** The network call at timestep 5 of [loop_failing], and what the log
    gains at that timestep. *)
Definition fail_unet :=
  unet_forward (Ref.collab Ref.net_half false) (loop_result loop_prefix) 5 None
    (world loop_prefix.2).
Definition fail_model_output : loc :=
  match fail_unet.1 with
  | Ok l => l
  | Raise _ => 0%nat
  end.
Definition fail_tail : list Event :=
  [EvUnet (loop_result loop_prefix)
     (heap (world loop_prefix.2) !! loop_result loop_prefix) 5 None None;
   EvStep fail_model_output 5 (loop_result loop_prefix) (GenOne 3)].

End Demo.

(** * Properties *)

(** ** Comparison and clamping of binary32 values *)

Lemma SFcompare_antisym x y :
  SFcompare y x = CompOpp <$> SFcompare x y.
Proof.
  destruct x as [sx|sx| |sx mx ex], y as [sy|sy| |sy my ey]; simpl;
    try reflexivity; try (destruct sx; reflexivity); try (destruct sy; reflexivity);
    try (destruct sx, sy; reflexivity).
  destruct sx, sy; simpl; try reflexivity;
    rewrite (Z.compare_antisym ey ex);
    destruct (ey ?= ex) eqn:E; simpl; try reflexivity;
    rewrite (Pos.compare_cont_antisym mx my Eq); simpl;
    by rewrite ?CompOpp_involutive.
Qed.

Lemma SFcompare_total x y :
  F32.is_nan x = false → F32.is_nan y = false → is_Some (SFcompare x y).
Proof.
  destruct x, y; simpl; intros; try discriminate; eauto.
Qed.

Lemma not_ltb_leb x y :
  F32.is_nan x = false → F32.is_nan y = false →
  SFltb x y = false → SFleb y x = true.
Proof.
  intros Hx Hy. unfold SFltb, SFleb. rewrite (SFcompare_antisym x y).
  destruct (SFcompare_total x y Hx Hy) as [c ->]. simpl.
  destruct c; simpl; congruence.
Qed.

Lemma leb_not_ltb x y : SFleb x y = true → SFltb y x = false.
Proof.
  unfold SFltb, SFleb. rewrite (SFcompare_antisym x y).
  destruct (SFcompare x y) as [[]|]; simpl; congruence.
Qed.

Lemma SFleb_refl x : F32.is_nan x = false → SFleb x x = true.
Proof.
  intros Hx. pose proof (SFcompare_antisym x x) as H.
  unfold SFleb. destruct (SFcompare_total x x Hx Hx) as [c Hc].
  rewrite Hc in *. simpl in H. destruct c; try reflexivity. discriminate.
Qed.

Lemma clamp_within lo hi x :
  SFleb lo hi = true → F32.is_nan x = false →
  F32.within lo hi (F32.clamp lo hi x) = true.
Proof.
  intros Hle Hx.
  assert (Hlo : F32.is_nan lo = false) by (destruct lo, hi; done).
  assert (Hhi : F32.is_nan hi = false) by (destruct lo, hi; done).
  unfold F32.clamp, F32.within. rewrite Hx.
  destruct (SFltb x lo) eqn:E1.
  - rewrite (leb_not_ltb _ _ Hle). rewrite SFleb_refl by done. by rewrite Hle.
  - destruct (SFltb hi x) eqn:E2.
    + rewrite Hle, SFleb_refl by done. done.
    + rewrite (not_ltb_leb x lo), (not_ltb_leb hi x) by done. done.
Qed.

(** ** The monad *)

Lemma bind_inv {S A B} (m : M' S A) (k : A → M' S B) s o s' :
  bind m k s = (o, s') →
  (∃ a s1, m s = (Ok a, s1) ∧ k a s1 = (o, s'))
  ∨ (∃ e, m s = (Raise e, s') ∧ o = Raise e).
Proof.
  unfold bind. destruct (m s) as [[a|e] s1]; intros H.
  - left. eauto.
  - right. inversion H; subst. eauto.
Qed.

Lemma bind_ok_inv {S A B} (m : M' S A) (k : A → M' S B) s b s' :
  bind m k s = (Ok b, s') →
  ∃ a s1, m s = (Ok a, s1) ∧ k a s1 = (Ok b, s').
Proof.
  intros H. apply bind_inv in H as [H|(e & _ & H)]; [done | discriminate].
Qed.

Lemma ret_inv {S A} (a : A) (s : S) o s' :
  ret a s = (o, s') → o = Ok a ∧ s' = s.
Proof. unfold ret. by inversion 1. Qed.

Lemma lift_pure_inv {S A} (o : Outcome A) (x : S) o' x' :
  lift_pure o x = (o', x') → o' = o ∧ x' = x.
Proof. unfold lift_pure. by inversion 1. Qed.

Ltac bind_ok H :=
  let a := fresh "a" in
  let s := fresh "s" in
  let H1 := fresh "H" in
  apply bind_ok_inv in H as (a & s & H1 & H).

Section StoreFacts.

Context {GState Sched Pil : Type}.
Implicit Types (w : @World GState Sched) (s : @State GState Sched).

Lemma keeps_refl w ls : keeps w w ls.
Proof. intros l Hl. done. Qed.

Lemma keeps_weaken w w' ls ls' : ls ⊆ ls' → keeps w w' ls → keeps w w' ls'.
Proof.
  intros Hs Hk l Hl. destruct (Hk l Hl) as [H1 H2]. split; [done|].
  intros Hn. apply H2. intros Hin. apply Hn, Hs, Hin.
Qed.

Lemma keeps_trans w1 w2 w3 ls :
  keeps w1 w2 ls → keeps w2 w3 ls → keeps w1 w3 ls.
Proof.
  intros H12 H23 l Hl. destruct (H12 l Hl) as [Ha Hb].
  destruct (H23 l Ha) as [Hc Hd]. split; [done|].
  intros Hn. rewrite Hd, Hb; done.
Qed.

Lemma keeps_lookup w w' l T :
  keeps w w' [] → heap w !! l = Some T → heap w' !! l = Some T.
Proof.
  intros Hk Hl. destruct (Hk l) as [_ H]; [by rewrite Hl|].
  rewrite H; [done|]. apply not_elem_of_nil.
Qed.

Lemma grows_refl s : grows s s.
Proof. split; [apply keeps_refl|]. repeat split; done. Qed.

Lemma grows_trans s1 s2 s3 : grows s1 s2 → grows s2 s3 → grows s1 s3.
Proof.
  intros (Ha & Hb & Hc & Hd & He) (Ha' & Hb' & Hc' & Hd' & He').
  split; [eapply keeps_trans; eauto|]. repeat split; congruence.
Qed.

Lemma fresh_loc_None (h : gmap loc Tensor) : h !! fresh_loc h = None.
Proof.
  unfold fresh_loc, loc in *. pose proof (is_fresh (dom h)) as Hf.
  by apply not_elem_of_dom in Hf.
Qed.

Lemma keeps_insert_fresh w l T :
  heap w !! l = None → keeps w (set_heap w (<[l := T]> (heap w))) [].
Proof.
  intros Hl k Hk. simpl.
  assert (l ≠ k) by (intros ->; rewrite Hl in Hk; by destruct Hk).
  rewrite lookup_insert_ne by done. done.
Qed.

Lemma alloc_spec T s o s' :
  alloc T s = (o, s') →
  ∃ l, o = Ok l ∧ heap (world s) !! l = None
       ∧ heap (world s') !! l = Some T ∧ grows s s'.
Proof.
  unfold alloc. intros H. inversion H; subst; clear H.
  exists (fresh_loc (heap (world s))). simpl.
  split; [done|]. split; [apply fresh_loc_None|].
  split; [by rewrite lookup_insert_eq|].
  split; [apply keeps_insert_fresh, fresh_loc_None|]. repeat split; done.
Qed.

Lemma deref_spec l s o s' :
  deref l s = (o, s') →
  s' = s ∧ match o with
           | Ok T => heap (world s) !! l = Some T
           | Raise _ => heap (world s) !! l = None
           end.
Proof.
  unfold deref. destruct (heap (world s) !! l); inversion 1; subst; done.
Qed.

Lemma tensor_clone_spec l s r s' :
  tensor_clone l s = (Ok r, s') →
  op_result s l s' r id ∧ heap (world s) !! r = None.
Proof.
  unfold tensor_clone. intros H. bind_ok H.
  apply deref_spec in H0 as [-> HT].
  apply alloc_spec in H as (l' & [= <-] & Hn & Hs & Hg).
  split; [|done]. split; [done|]. eauto.
Qed.

Lemma tensor_to_spec l dev s r s' :
  tensor_to l dev s = (Ok r, s') →
  op_result s l s' r (λ T, mkTensor (t_shape T) dev (t_data T))
  ∧ (r = l ∨ heap (world s) !! r = None).
Proof.
  unfold tensor_to. intros H. bind_ok H.
  apply deref_spec in H0 as [-> HT].
  destruct (String.eqb (t_device a) dev) eqn:E.
  - apply ret_inv in H as [[= <-] ->]. apply String.eqb_eq in E.
    split; [|by left]. split; [apply grows_refl|].
    exists a. split; [done|]. rewrite HT. f_equal. destruct a; simpl in *; by subst.
  - apply alloc_spec in H as (l' & [= <-] & Hn & Hs & Hg).
    split; [|by right]. split; [done|]. eauto.
Qed.

(** [x.to(device)] returns [x] itself exactly when [x] is on [device]. *)
Lemma tensor_to_same_or_new l dev s r s' T :
  tensor_to l dev s = (Ok r, s') →
  heap (world s) !! l = Some T →
  if String.eqb (t_device T) dev then r = l else r ≠ l.
Proof.
  unfold tensor_to. intros H HT. bind_ok H.
  apply deref_spec in H0 as [-> HT']. rewrite HT in HT'. injection HT' as <-.
  destruct (String.eqb (t_device T) dev).
  - by apply ret_inv in H as [[= <-] _].
  - apply alloc_spec in H as (l' & [= <-] & Hn & _). intros ->. congruence.
Qed.

Lemma tensor_clamp_spec l lo hi s r s' :
  tensor_clamp l lo hi s = (Ok r, s') →
  op_result s l s' r
    (λ T, mkTensor (t_shape T) (t_device T) (clamp_data lo hi (t_data T)))
  ∧ heap (world s) !! r = None.
Proof.
  unfold tensor_clamp. intros H. bind_ok H.
  apply deref_spec in H0 as [-> HT].
  apply alloc_spec in H as (l' & [= <-] & Hn & Hs & Hg).
  split; [|done]. split; [done|]. eauto.
Qed.

Lemma tensor_mul_scalar_spec l c s r s' :
  tensor_mul_scalar l c s = (Ok r, s') →
  op_result s l s' r
    (λ T, mkTensor (t_shape T) (t_device T)
            (F32s (map (λ x, F32.mul x c) (as_floats (t_data T))))).
Proof.
  unfold tensor_mul_scalar. intros H. bind_ok H.
  apply deref_spec in H0 as [-> HT].
  apply alloc_spec in H as (l' & [= <-] & Hn & Hs & Hg).
  split; [done|]. eauto.
Qed.

Lemma tensor_add_scalar_spec l c s r s' :
  tensor_add_scalar l c s = (Ok r, s') →
  op_result s l s' r
    (λ T, mkTensor (t_shape T) (t_device T)
            (F32s (map (λ x, F32.add x c) (as_floats (t_data T))))).
Proof.
  unfold tensor_add_scalar. intros H. bind_ok H.
  apply deref_spec in H0 as [-> HT].
  apply alloc_spec in H as (l' & [= <-] & Hn & Hs & Hg).
  split; [done|]. eauto.
Qed.

Lemma tensor_permute_spec l s r s' :
  tensor_permute_0231 l s = (Ok r, s') →
  ∃ n c h k : Z,
    op_result s l s' r
      (λ T, mkTensor [n; h; k; c] (t_device T) (permute_data n c h k (t_data T)))
    ∧ ∃ T, heap (world s) !! l = Some T ∧ t_shape T = [n; c; h; k].
Proof.
  unfold tensor_permute_0231. intros H. bind_ok H.
  apply deref_spec in H0 as [-> HT].
  destruct (t_shape a) as [|n [|c [|h [|k [|]]]]] eqn:E; try discriminate.
  apply alloc_spec in H as (l' & [= <-] & Hn & Hs & Hg).
  exists n, c, h, k. split; [|eauto]. split; [done|]. eauto.
Qed.

Lemma tensor_numpy_spec l s T s' :
  tensor_numpy l s = (Ok T, s') →
  s' = s ∧ heap (world s) !! l = Some T.
Proof.
  unfold tensor_numpy. intros H. bind_ok H.
  apply deref_spec in H0 as [-> HT].
  destruct (String.eqb _ _); [|discriminate].
  apply ret_inv in H as [[= <-] ->]. done.
Qed.

End StoreFacts.
(** ** Calls to the collaborators *)

Section Calls.

Context {GState Sched Pil : Type}.
Context (C : @Collab GState Sched Pil).
Implicit Types (w : @World GState Sched) (s : @State GState Sched).

Lemma lift_inv {A} (f : @World GState Sched → Outcome A * _) s o s' :
  lift f s = (o, s') →
  f (world s) = (o, world s') ∧ events s' = events s.
Proof.
  unfold lift. destruct (f (world s)) as [o1 w1]. inversion 1; subst. done.
Qed.

Lemma log_inv e s o s' :
  log e s = (o, s') →
  o = Ok tt ∧ world s' = world s ∧ events s' = events s ++ [e].
Proof. unfold log. inversion 1; subst. done. Qed.

Lemma logged_call_inv {A} e (f : @World GState Sched → Outcome A * _) s o s' :
  (log e >> lift f)%M s = (o, s') →
  f (world s) = (o, world s') ∧ events s' = events s ++ [e].
Proof.
  intros H. apply bind_inv in H as [(a & s1 & H1 & H2)|(x & H1 & _)].
  - apply log_inv in H1 as (_ & Hw & He).
    apply lift_inv in H2 as [H2 H3]. rewrite <- Hw, <- He. done.
  - apply log_inv in H1 as (? & _); discriminate.
Qed.

Lemma call_randn_inv shape g dev s o s' :
  call_randn C shape g dev s = (o, s') →
  randn_tensor C shape g dev (world s) = (o, world s')
  ∧ events s' = events s ++ [EvRandn shape g dev].
Proof. apply logged_call_inv. Qed.

Lemma call_randint_inv low high size g dt s o s' :
  call_randint C low high size g dt s = (o, s') →
  torch_randint C low high size g dt (world s) = (o, world s')
  ∧ events s' = events s
      ++ [EvRandint low high size g dt (returned_now o (world s'))].
Proof.
  unfold call_randint.
  destruct (torch_randint C low high size g dt (world s)) as [o1 w1].
  inversion 1; subst. done.
Qed.

Lemma call_randint_fwd low high size g dt s o w' :
  torch_randint C low high size g dt (world s) = (o, w') →
  call_randint C low high size g dt s
  = (o, mkState w' (events s
                      ++ [EvRandint low high size g dt (returned_now o w')])).
Proof. unfold call_randint. by intros ->. Qed.

Lemma call_set_timesteps_inv n s o s' :
  call_set_timesteps C n s = (o, s') →
  set_timesteps C n (world s) = (o, world s')
  ∧ events s' = events s ++ [EvSetTimesteps n].
Proof. apply logged_call_inv. Qed.

Lemma call_step_inv mo t image g s o s' :
  call_step C mo t image g s = (o, s') →
  scheduler_step C mo t image g (world s) = (o, world s')
  ∧ events s' = events s ++ [EvStep mo t image g].
Proof. apply logged_call_inv. Qed.

Lemma call_unet_inv image t labels s o s' :
  call_unet C image t labels s = (o, s') →
  unet_forward C image t labels (world s) = (o, world s')
  ∧ events s' = events s ++
      [EvUnet image (heap (world s) !! image) t labels
         (labels ≫= λ c, heap (world s) !! c)].
Proof.
  unfold call_unet, peek_opt, peek. destruct labels as [c|];
    apply (logged_call_inv _ _ s).
Qed.

Lemma get_timesteps_inv s o s' :
  get_timesteps C s = (o, s') →
  o = Ok (timesteps C (sched (world s))) ∧ s' = s.
Proof. unfold get_timesteps. inversion 1; subst. done. Qed.

(** *** The shape of the images *)

(** A call that samples noise has built the image shape. *)
Lemma initial_noise_inv self b g s image s1 :
  initial_noise C self b g s = (Ok image, s1) →
  image_shape self b = Ok (sampled_shape self b)
  ∧ sample_noise C self (sampled_shape self b) g s = (Ok image, s1).
Proof.
  unfold initial_noise. intros H. bind_ok H.
  apply lift_pure_inv in H0 as [E ->]. unfold sampled_shape.
  by rewrite <- E.
Qed.

Lemma initial_noise_fwd self b g sh s :
  image_shape self b = Ok sh →
  initial_noise C self b g s = sample_noise C self sh g s.
Proof. unfold initial_noise, bind, lift_pure. by intros ->. Qed.

(** Whatever its outcome, a call that does not build the image shape
    raises at once; any other samples noise of that shape. *)
Lemma initial_noise_cases self b g s o s' :
  initial_noise C self b g s = (o, s') →
  (∃ e, image_shape self b = Raise e ∧ o = Raise e ∧ s' = s)
  ∨ (image_shape self b = Ok (sampled_shape self b)
     ∧ sample_noise C self (sampled_shape self b) g s = (o, s')).
Proof.
  unfold initial_noise, bind, lift_pure, sampled_shape.
  destruct (image_shape self b) as [sh|e]; intros H.
  - by right.
  - left. exists e. by injection H as <- <-.
Qed.

Lemma Costum_call_shape self b g n ot rd s out s' :
  DDPMPipeline_Costum_call C self b g n ot rd s = (Ok out, s') →
  image_shape self b = Ok (sampled_shape self b).
Proof.
  unfold DDPMPipeline_Costum_call, DDPMPipeline_Costum_denoise. intros H.
  bind_ok H. bind_ok H0. by apply initial_noise_inv in H1 as [? _].
Qed.

Lemma ClsEmb_call_shape self b g cs n ot rd s out s' :
  DDPMPipeline_Costum_ClsEmb_call C self b g cs n ot rd s = (Ok out, s') →
  image_shape self b = Ok (sampled_shape self b).
Proof.
  unfold DDPMPipeline_Costum_ClsEmb_call, DDPMPipeline_Costum_ClsEmb_denoise.
  intros H. bind_ok H. bind_ok H0. by apply initial_noise_inv in H1 as [? _].
Qed.

Lemma image_shape_head self b sh :
  image_shape self b = Ok sh → head sh = Some b.
Proof.
  unfold image_shape. destruct (sample_size _); intros [= <-]; done.
Qed.

(** *** The log of a run of the loop that returns *)

Lemma denoise_loop_events labels g ts : ∀ image s r s',
  denoise_loop C labels g ts image s = (Ok r, s') →
  ∃ evs, events s' = events s ++ evs
         ∧ loop_bodies (length ts) evs = true.
Proof.
  induction ts as [|t ts IH]; intros image s r s' H; simpl in H.
  - apply ret_inv in H as [_ ->]. exists []. by rewrite app_nil_r.
  - bind_ok H. bind_ok H.
    apply call_unet_inv in H0 as [_ E1].
    apply call_step_inv in H1 as [_ E2].
    apply IH in H as (evs & E3 & Hb).
    eexists (_ :: _ :: evs). split.
    + rewrite E3, E2, E1. rewrite <- !app_assoc. done.
    + simpl. rewrite Z.eqb_refl, Nat.eqb_refl, Hb. done.
Qed.

Lemma new_events_app s s' evs :
  events s' = events s ++ evs → new_events s s' = evs.
Proof.
  intros E. unfold new_events. rewrite E. by rewrite drop_app_length.
Qed.

End Calls.
(** ** What the collaborators leave alone *)

Section Frame.

Context {GState Sched Pil : Type}.
Context (C : @Collab GState Sched Pil).
Context (HF : FrameContract C).
Implicit Types (w : @World GState Sched) (s : @State GState Sched).

Lemma keeps_None w w' ls l :
  keeps w w' ls → heap w' !! l = None → heap w !! l = None.
Proof.
  intros Hk Hn. destruct (heap w !! l) eqn:E; [|done].
  destruct (Hk l) as [[x Hx] _]; [by rewrite E|]. congruence.
Qed.

Lemma grows_keeps s s' : grows s s' → keeps (world s) (world s') [].
Proof. by intros [H _]. Qed.

Lemma initial_noise_spec self b g s image s1 :
  initial_noise C self b g s = (Ok image, s1) →
  keeps (world s) (world s1) []
  ∧ heap (world s) !! image = None
  ∧ is_Some (heap (world s1) !! image)
  ∧ sched (world s1) = sched (world s)
  ∧ events s1 = events s ++
      [EvRandn (sampled_shape self b) g
         (if on_mps self then None else Some (device self))]
  ∧ (ShapeContract C → shape_at (world s1) image = Some (sampled_shape self b)).
Proof.
  intros H. apply initial_noise_inv in H as [_ H]. revert H.
  unfold sample_noise. destruct (on_mps self).
  - intros H. bind_ok H.
    apply call_randn_inv in H0 as [H0 E0].
    pose proof (randn_frame _ HF _ _ _ _ _ _ H0) as (Hk & Hr & Hs).
    destruct (Hr a eq_refl) as [Ha [Hin|Hn]]; [by apply elem_of_nil in Hin|].
    apply tensor_to_spec in H as [[Hg (T & HT & HT')] Hor].
    destruct Hg as (Hk' & _ & _ & Hs' & He').
    split; [eapply keeps_trans; eauto|].
    split. { destruct Hor as [->|Hn']; [done|]. eapply keeps_None; eauto. }
    split; [by rewrite HT'|]. split; [congruence|]. split; [congruence|].
    intros HS. apply (randn_shape _ HS) in H0. unfold shape_at in *.
    rewrite HT in H0. rewrite HT'. simpl in *. done.
  - intros H. apply call_randn_inv in H as [H0 E0].
    pose proof (randn_frame _ HF _ _ _ _ _ _ H0) as (Hk & Hr & Hs).
    destruct (Hr image eq_refl) as [Ha [Hin|Hn]]; [by apply elem_of_nil in Hin|].
    repeat (split; [done|]). intros HS. by apply (randn_shape _ HS) in H0.
Qed.

Lemma class_embedding_spec self b g cs s c s' :
  class_embedding C self b g cs s = (Ok c, s') →
  keeps (world s) (world s') []
  ∧ sched (world s') = sched (world s)
  ∧ match cs with
    | Some l => c = l ∧ s' = s
    | None =>
        heap (world s) !! c = None ∧ is_Some (heap (world s') !! c)
        ∧ (∃ res, events s' = events s ++ [EvRandint 0 10 [b] g int64 res])
        ∧ (RandintContract C →
           ∃ T, heap (world s') !! c = Some T ∧ t_shape T = [b]
                ∧ Z.of_nat (t_len T) = b
                ∧ t_dtype T = int64 ∧ ints_in_range 0 10 T)
    end.
Proof.
  unfold class_embedding. destruct cs as [l|].
  - intros H. apply ret_inv in H as [[= <-] ->].
    split; [apply keeps_refl|]. done.
  - intros H. bind_ok H.
    apply call_randint_inv in H0 as [H0 E0].
    pose proof (randint_frame _ HF _ _ _ _ _ _ _ _ H0) as (Hk & Hr & Hs).
    destruct (Hr a eq_refl) as [Ha [Hin|Hn]]; [by apply elem_of_nil in Hin|].
    apply tensor_to_spec in H as [[Hg (T & HT & HT')] Hor].
    destruct Hg as (Hk' & _ & _ & Hs' & He').
    split; [eapply keeps_trans; eauto|]. split; [congruence|].
    split. { destruct Hor as [->|Hn']; [done|]. eapply keeps_None; eauto. }
    split; [by rewrite HT'|]. split; [eexists; by rewrite He', E0|].
    intros HR. apply HR in H0 as (T0 & HT0 & Hsh & Hln & Hdt & Hrg).
    rewrite HT in HT0. injection HT0 as ->.
    eexists. split; [exact HT'|]. split; [done|].
    split. { unfold numel in Hln. simpl in Hln. unfold t_len in *. simpl. lia. }
    split; [done|]. by apply Hrg.
Qed.

(** One loop body changes no tensor object that exists when it starts,
    the sample apart, and ends with a sample that is none of them. *)
Lemma loop_body_frame image t labels g w mo w1 im2 w2 :
  unet_forward C image t labels w = (Ok mo, w1) →
  scheduler_step C mo t image g w1 = (Ok im2, w2) →
  is_Some (heap w !! image) →
  (∀ l, is_Some (heap w !! l) → l ≠ image →
        heap w2 !! l = heap w !! l ∧ is_Some (heap w2 !! l) ∧ l ≠ im2)
  ∧ is_Some (heap w2 !! im2).
Proof.
  intros U St Him.
  apply (unet_frame _ HF) in U as [Uk Ur].
  apply (step_frame _ HF) in St as [Sk Sr].
  destruct (Ur mo eq_refl) as [Umo Uor].
  destruct (Sr im2 eq_refl) as [Sim Sor].
  destruct (Uk image Him) as [Him1 _].
  split; [|done].
  intros l Hl Hne.
  destruct (Uk l Hl) as [Hl1 Hl1'].
  assert (l ≠ mo).
  { intros ->. destruct Uor as [Hin|Hn].
    - apply list_elem_of_singleton in Hin. done.
    - rewrite Hn in Hl. by destruct Hl. }
  destruct (Sk l Hl1) as [Hl2 Hl2'].
  assert (Hout : l ∉ [mo; image]).
  { intros Hin. apply elem_of_cons in Hin as [->|Hin]; [done|].
    apply list_elem_of_singleton in Hin. done. }
  rewrite Hl2', Hl1' by (done || by rewrite list_elem_of_singleton).
  split; [done|]. split; [done|].
  intros ->. destruct Sor as [Hin|Hn]; [done|].
  rewrite Hn in Hl1. by destruct Hl1.
Qed.

(** The loop changes no tensor object that exists when it starts, the
    sample it starts from apart; the network is handed the same labels,
    with the same contents, in every iteration; the first iteration is
    handed the sample the loop starts from. *)
Lemma denoise_loop_frame labels g ts : ∀ image s r s',
  denoise_loop C labels g ts image s = (Ok r, s') →
  is_Some (heap (world s) !! image) →
  (∀ l, is_Some (heap (world s) !! l) → l ≠ image →
        heap (world s') !! l = heap (world s) !! l ∧ l ≠ r)
  ∧ is_Some (heap (world s') !! r)
  ∧ ∃ evs, events s' = events s ++ evs
      ∧ (from_option (λ c, is_Some (heap (world s) !! c) ∧ c ≠ image) True labels →
         unet_labels evs
         = replicate (length ts) (labels, labels ≫= λ c, heap (world s) !! c))
      ∧ head (unet_samples evs)
        = match ts with
          | [] => None
          | _ => Some (image, heap (world s) !! image)
          end.
Proof.
  induction ts as [|t ts IH]; intros image s r s' H Him; simpl in H.
  - apply ret_inv in H as [[= <-] ->].
    split; [done|]. split; [done|]. exists []. by rewrite app_nil_r.
  - bind_ok H. rename a into mo, s0 into s1. bind_ok H.
    rename a into im2, s0 into s2.
    apply call_unet_inv in H0 as [U0 E1].
    apply call_step_inv in H1 as [St0 E2].
    pose proof (loop_body_frame _ _ _ _ _ _ _ _ _ U0 St0 Him) as [Hpres Sim].
    destruct (IH _ _ _ _ H Sim) as (Hk & Hr & evs & E3 & Hlab & Hhd).
    split; [|split; [done|]].
    + intros l Hl Hne. destruct (Hpres l Hl Hne) as (Hv & Hs2 & Hne2).
      destruct (Hk l Hs2 Hne2) as [Hv' Hne']. split; [congruence|done].
    + eexists (_ :: _ :: evs). split.
      { rewrite E3, E2, E1. rewrite <- !app_assoc. done. }
      split; [|done].
      intros Hl. simpl. f_equal. rewrite Hlab.
      * destruct labels as [c|]; simpl in *; [|done].
        destruct Hl as [Hc Hne]. destruct (Hpres c Hc Hne) as (-> & _). done.
      * destruct labels as [c|]; simpl in *; [|done].
        destruct Hl as [Hc Hne]. destruct (Hpres c Hc Hne) as (_ & ? & ?). done.
Qed.

End Frame.
(** ** The two pipelines up to the end of the loop *)

Section Denoise.

Context {GState Sched Pil : Type}.
Context (C : @Collab GState Sched Pil).
Context (HF : FrameContract C).
Implicit Types (w : @World GState Sched) (s : @State GState Sched).

Lemma keeps_value w w' l :
  keeps w w' [] → is_Some (heap w !! l) → heap w' !! l = heap w !! l.
Proof.
  intros Hk Hl. destruct (Hk l Hl) as [_ H]. apply H, not_elem_of_nil.
Qed.

Lemma keeps_is_Some w w' ls l :
  keeps w w' ls → is_Some (heap w !! l) → is_Some (heap w' !! l).
Proof. intros Hk Hl. by destruct (Hk l Hl). Qed.

Lemma is_Some_ne w l l' :
  is_Some (heap w !! l) → heap w !! l' = None → l ≠ l'.
Proof. intros [x Hx] Hn ->. congruence. Qed.

Lemma denoise_loop_shape (HS : ShapeContract C) labels g ts : ∀ image s r s',
  denoise_loop C labels g ts image s = (Ok r, s') →
  shape_at (world s') r = shape_at (world s) image.
Proof.
  induction ts as [|t ts IH]; intros image s r s' H; simpl in H.
  - by apply ret_inv in H as [[= <-] ->].
  - bind_ok H. bind_ok H.
    apply call_unet_inv in H0 as [U _].
    apply call_step_inv in H1 as [St _].
    apply IH in H. rewrite H.
    rewrite (step_shape _ HS _ _ _ _ _ _ _ St).
    by rewrite (unet_shape _ HS _ _ _ _ _ _ U).
Qed.

(** The class-conditional pipeline, from the call to the end of its loop:
    no tensor object of the caller is changed; the snapshot [noise_init]
    is a new object that holds the initial noise [N] at the end; the labels
    [c] are the caller's, or a new object, and hold [L] at the end; the
    log is the noise sampler, the scheduler configuration, the label
    sampler when the caller gave no labels, and the loop bodies. *)
Lemma ClsEmb_denoise_spec self b g cs n s image noise_init c s' :
  DDPMPipeline_Costum_ClsEmb_denoise C self b g cs n s
    = (Ok (image, noise_init, c), s') →
  from_option (λ l, is_Some (heap (world s) !! l)) True cs →
  ∃ N L (ts : list Z) loop_evs image0,
    (∀ l, is_Some (heap (world s) !! l) →
          heap (world s') !! l = heap (world s) !! l)
    ∧ heap (world s) !! noise_init = None
    ∧ heap (world s') !! noise_init = Some N
    ∧ is_Some (heap (world s') !! image)
    ∧ image ≠ noise_init ∧ image ≠ c
    ∧ match cs with
      | Some l => c = l
      | None => heap (world s) !! c = None
      end
    ∧ heap (world s') !! c = Some L
    ∧ (∃ res, new_events s s' =
        [EvRandn (sampled_shape self b) g
           (if on_mps self then None else Some (device self));
         EvSetTimesteps n]
        ++ match cs with
           | Some _ => []
           | None => [EvRandint 0 10 [b] g int64 res]
           end
        ++ loop_evs)
    ∧ loop_bodies (length ts) loop_evs = true
    ∧ (TimestepsContract C → Z.of_nat (length ts) = n)
    ∧ unet_labels loop_evs = replicate (length ts) (Some c, Some L)
    ∧ head (unet_samples loop_evs)
      = match ts with [] => None | _ => Some (image0, Some N) end
    ∧ (ts = [] → image = image0 ∧ heap (world s') !! image = Some N)
    ∧ (cs = None → RandintContract C →
       t_shape L = [b] ∧ Z.of_nat (t_len L) = b
       ∧ t_dtype L = int64 ∧ ints_in_range 0 10 L)
    ∧ (ShapeContract C →
       shape_at (world s') image = Some (sampled_shape self b)).
Proof.
  unfold DDPMPipeline_Costum_ClsEmb_denoise. intros H Hcs.
  bind_ok H. rename a into image0, s0 into s1.
  bind_ok H. rename a into ni, s0 into s2.
  bind_ok H. rename s0 into s3. destruct a.
  bind_ok H. rename a into c', s0 into s4.
  bind_ok H. rename a into ts.
  bind_ok H. rename a into im.
  apply ret_inv in H as [[= <- <- <-] ->].
  apply get_timesteps_inv in H4 as [[= ->] ->].
  apply (initial_noise_spec _ HF) in H0 as (K1 & F0 & A1 & S1 & E1 & Sh1).
  apply tensor_clone_spec in H1 as [[G2 (N & V1 & V2)] F2].
  destruct G2 as (K2 & _ & _ & S2 & E2).
  apply call_set_timesteps_inv in H2 as [ST E3].
  pose proof (set_timesteps_frame _ HF _ _ _ _ ST) as K3.
  apply (class_embedding_spec _ HF) in H3 as (K4 & S4 & Hc).
  pose proof (denoise_loop_events _ _ _ _ _ _ _ _ H5) as (evs' & E5' & Hb).
  pose proof H5 as Hloop.
  apply (denoise_loop_frame _ HF) in H5 as (P5 & A5 & evs & E5 & Hlab & Hhd).
  2:{ eauto using keeps_is_Some. }
  assert (evs' = evs) as ->
    by (apply (app_inv_head (events s4)); rewrite <- E5, <- E5'; done).
  assert (K14 : keeps (world s1) (world s4) [])
    by eauto using keeps_trans.
  assert (K04 : keeps (world s) (world s4) [])
    by eauto using keeps_trans.
  assert (Hni4 : heap (world s4) !! noise_init = Some N).
  { rewrite (keeps_value (world s2) (world s4)); [done| |by rewrite V2].
    eauto using keeps_trans. }
  assert (Hni_ne : noise_init ≠ image0).
  { apply not_eq_sym. eapply is_Some_ne; eauto. }
  assert (Him4 : heap (world s4) !! image0 = Some N).
  { rewrite (keeps_value (world s1) (world s4)); [done|done|by rewrite V1]. }
  assert (Hc4 : is_Some (heap (world s4) !! c) ∧ c ≠ image0).
  { destruct cs as [l|]; simpl in Hcs.
    - destruct Hc as [-> ->]. split; [eauto using keeps_is_Some|].
      eapply is_Some_ne; eauto.
    - destruct Hc as (Fc & Ac & _). split; [done|].
      apply not_eq_sym. eapply is_Some_ne; [|exact Fc].
      eauto using keeps_is_Some, keeps_trans. }
  destruct Hc4 as [[L HL] Hc_ne].
  exists N, L, (timesteps C (sched (world s4))), evs, image0.
  split.
  { intros l Hl. destruct (P5 l) as [-> _].
    - eauto using keeps_is_Some.
    - eapply is_Some_ne; eauto.
    - by apply keeps_value. }
  split. { eapply keeps_None; [exact K1|done]. }
  split. { destruct (P5 noise_init) as [-> _]; [by rewrite Hni4|done|done]. }
  split; [done|].
  split. { destruct (P5 noise_init) as [_ ?]; [by rewrite Hni4|done|done]. }
  split. { destruct (P5 c) as [_ ?]; [by rewrite HL|done|done]. }
  split.
  { destruct cs as [l|]; [by destruct Hc|].
    destruct Hc as (Fc & _). eapply keeps_None; [|exact Fc].
    eauto using keeps_trans. }
  split. { destruct (P5 c) as [-> _]; [by rewrite HL|done|done]. }
  split.
  { destruct cs as [l|].
    - exists None. apply new_events_app. rewrite E5.
      destruct Hc as [_ ->]. rewrite E3, E2, E1. by rewrite <- !app_assoc.
    - destruct Hc as (_ & _ & [res E4] & _). exists res.
      apply new_events_app. rewrite E5, E4, E3, E2, E1.
      by rewrite <- !app_assoc. }
  split; [done|].
  split. { intros HT. rewrite S4. by apply HT in ST. }
  split. { rewrite Hlab; simpl; [by rewrite HL|]. by rewrite HL. }
  split.
  { rewrite Hhd. unfold progress_bar. rewrite Him4. done. }
  split.
  { intros Hts. unfold progress_bar in Hloop. rewrite Hts in Hloop.
    apply ret_inv in Hloop as [[= <-] <-]. done. }
  split.
  { intros -> HR. destruct Hc as (_ & _ & _ & HT). destruct (HT HR) as (T & HT1 & HT2).
    rewrite HL in HT1. by injection HT1 as ->. }
  intros HS. rewrite (denoise_loop_shape HS _ _ _ _ _ _ _ Hloop).
  unfold shape_at. rewrite Him4. specialize (Sh1 HS). unfold shape_at in Sh1.
  by rewrite V1 in Sh1.
Qed.

(** The plain pipeline, from the call to the end of its loop. *)
Lemma Costum_denoise_spec self b g n s image noise_init s' :
  DDPMPipeline_Costum_denoise C self b g n s = (Ok (image, noise_init), s') →
  ∃ N (ts : list Z) loop_evs image0,
    (∀ l, is_Some (heap (world s) !! l) →
          heap (world s') !! l = heap (world s) !! l)
    ∧ heap (world s) !! noise_init = None
    ∧ heap (world s') !! noise_init = Some N
    ∧ is_Some (heap (world s') !! image)
    ∧ image ≠ noise_init
    ∧ new_events s s' =
        [EvRandn (sampled_shape self b) g
           (if on_mps self then None else Some (device self));
         EvSetTimesteps n]
        ++ loop_evs
    ∧ loop_bodies (length ts) loop_evs = true
    ∧ (TimestepsContract C → Z.of_nat (length ts) = n)
    ∧ unet_labels loop_evs = replicate (length ts) (None, None)
    ∧ head (unet_samples loop_evs)
      = match ts with [] => None | _ => Some (image0, Some N) end
    ∧ (ts = [] → image = image0 ∧ heap (world s') !! image = Some N)
    ∧ (ShapeContract C →
       shape_at (world s') image = Some (sampled_shape self b)).
Proof.
  unfold DDPMPipeline_Costum_denoise. intros H.
  bind_ok H. rename a into image0, s0 into s1.
  bind_ok H. rename a into ni, s0 into s2.
  bind_ok H. rename s0 into s3. destruct a.
  bind_ok H. rename a into ts.
  bind_ok H. rename a into im.
  apply ret_inv in H as [[= <- <-] ->].
  apply get_timesteps_inv in H3 as [[= ->] ->].
  apply (initial_noise_spec _ HF) in H0 as (K1 & F0 & A1 & S1 & E1 & Sh1).
  apply tensor_clone_spec in H1 as [[G2 (N & V1 & V2)] F2].
  destruct G2 as (K2 & _ & _ & S2 & E2).
  apply call_set_timesteps_inv in H2 as [ST E3].
  pose proof (set_timesteps_frame _ HF _ _ _ _ ST) as K3.
  pose proof (denoise_loop_events _ _ _ _ _ _ _ _ H4) as (evs' & E5' & Hb).
  pose proof H4 as Hloop.
  apply (denoise_loop_frame _ HF) in H4 as (P5 & A5 & evs & E5 & Hlab & Hhd).
  2:{ eauto using keeps_is_Some. }
  assert (evs' = evs) as ->
    by (apply (app_inv_head (events s3)); rewrite <- E5, <- E5'; done).
  assert (K13 : keeps (world s1) (world s3) [])
    by eauto using keeps_trans.
  assert (K03 : keeps (world s) (world s3) [])
    by eauto using keeps_trans.
  assert (Hni3 : heap (world s3) !! noise_init = Some N).
  { rewrite (keeps_value (world s2) (world s3)); [done|done|by rewrite V2]. }
  assert (Hni_ne : noise_init ≠ image0).
  { apply not_eq_sym. eapply is_Some_ne; eauto. }
  assert (Him3 : heap (world s3) !! image0 = Some N).
  { rewrite (keeps_value (world s1) (world s3)); [done|done|by rewrite V1]. }
  exists N, (timesteps C (sched (world s3))), evs, image0.
  split.
  { intros l Hl. destruct (P5 l) as [-> _].
    - eauto using keeps_is_Some.
    - eapply is_Some_ne; eauto.
    - by apply keeps_value. }
  split. { eapply keeps_None; [exact K1|done]. }
  split. { destruct (P5 noise_init) as [-> _]; [by rewrite Hni3|done|done]. }
  split; [done|].
  split. { destruct (P5 noise_init) as [_ ?]; [by rewrite Hni3|done|done]. }
  split.
  { apply new_events_app. rewrite E5, E3, E2, E1. by rewrite <- !app_assoc. }
  split; [done|].
  split. { intros HT. by apply HT in ST. }
  split. { by rewrite Hlab. }
  split.
  { rewrite Hhd. unfold progress_bar. rewrite Him3. done. }
  split.
  { intros Hts. unfold progress_bar in Hloop. rewrite Hts in Hloop.
    apply ret_inv in Hloop as [[= <-] <-]. done. }
  intros HS. rewrite (denoise_loop_shape HS _ _ _ _ _ _ _ Hloop).
  unfold shape_at. rewrite Him3. specialize (Sh1 HS). unfold shape_at in Sh1.
  by rewrite V1 in Sh1.
Qed.

End Denoise.
(** ** After the loop *)

Section Finish.

Context {GState Sched Pil : Type}.
Context (C : @Collab GState Sched Pil).
Implicit Types (w : @World GState Sched) (s : @State GState Sched).

Lemma op_result_grows s l s' r f : op_result s l s' r f → grows s s'.
Proof. by intros [H _]. Qed.

Lemma postprocess_other ot image s :
  str_is ot "pil" = false → str_is ot "tensor" = false →
  postprocess C ot image s = (Ok (TensorImage image), s).
Proof. intros H1 H2. unfold postprocess. by rewrite H1, H2. Qed.

Lemma postprocess_tensor image s im s' :
  postprocess C (Some "tensor"%string) image s = (Ok im, s') →
  grows s s'
  ∧ ∃ r T, im = TensorImage r
      ∧ heap (world s) !! image = Some T
      ∧ heap (world s) !! r = None
      ∧ heap (world s') !! r
        = Some (mkTensor (t_shape T) (t_device T) (clamp_data (-1) 1 (t_data T))).
Proof.
  unfold postprocess. simpl. intros H. bind_ok H.
  apply ret_inv in H as [[= ->] ->].
  apply tensor_clamp_spec in H0 as [[Hg (T & HT & HT')] Hn].
  split; [done|]. eauto 10.
Qed.

(** In PIL mode the images are the conversion of an array with as many
    entries in its first dimension as the image the loop ended with. *)
Lemma postprocess_pil ot image s im s' :
  str_is ot "pil" = true →
  postprocess C ot image s = (Ok im, s') →
  grows s s'
  ∧ ∃ ps arr T, im = PilImages ps
      ∧ numpy_to_pil C arr = Ok ps
      ∧ heap (world s) !! image = Some T
      ∧ batch_dim arr = batch_dim T.
Proof.
  unfold postprocess. intros -> H.
  bind_ok H. bind_ok H. bind_ok H. bind_ok H. bind_ok H. bind_ok H. bind_ok H.
  apply ret_inv in H as [[= ->] ->].
  apply tensor_mul_scalar_spec in H0 as [G0 (T0 & A0 & B0)].
  apply tensor_add_scalar_spec in H1 as [G1 (T1 & A1 & B1)].
  apply tensor_clamp_spec in H2 as [[G2 (T2 & A2 & B2)] _].
  apply tensor_to_spec in H3 as [[G3 (T3 & A3 & B3)] _].
  apply tensor_permute_spec in H4 as (n & c & h & k & [G4 (T4 & A4 & B4)] & (T4' & A4' & Sh)).
  apply tensor_numpy_spec in H5 as [-> A5].
  apply lift_pure_inv in H6 as [E ->].
  split. { eauto using grows_trans. }
  exists a5, a4, T0. repeat (split; [done|]).
  rewrite A5 in B4. injection B4 as ->.
  rewrite A4 in A4'. injection A4' as <-.
  rewrite A4 in B3. injection B3 as ->.
  rewrite A3 in B2. injection B2 as ->.
  rewrite A2 in B1. injection B1 as ->.
  rewrite A1 in B0. injection B0 as ->.
  unfold batch_dim in *. simpl in *. by rewrite Sh.
Qed.

Lemma postprocess_grows ot image s im s' :
  postprocess C ot image s = (Ok im, s') → grows s s'.
Proof.
  intros H. destruct (str_is ot "pil") eqn:E1.
  - by apply postprocess_pil in H as [? _].
  - destruct (str_is ot "tensor") eqn:E2.
    + unfold postprocess in H. rewrite E1, E2 in H. bind_ok H.
      apply ret_inv in H as [_ ->].
      by apply tensor_clamp_spec in H0 as [[Hg _] _].
    + rewrite postprocess_other in H by done.
      injection H as _ ->. apply grows_refl.
Qed.

Lemma Costum_call_inv self b g n ot rd s out s' :
  DDPMPipeline_Costum_call C self b g n ot rd s = (Ok out, s') →
  ∃ image noise_init s1 im,
    DDPMPipeline_Costum_denoise C self b g n s = (Ok (image, noise_init), s1)
    ∧ postprocess C ot image s1 = (Ok im, s')
    ∧ out = (if negb rd
             then if str_is ot "tensor" then Tuple2 im noise_init else Tuple1 im
             else ImagePipelineOutput im).
Proof.
  unfold DDPMPipeline_Costum_call, DDPMPipeline_Costum_finish. intros H.
  bind_ok H. destruct a as [image ni]. simpl in H. bind_ok H.
  exists image, ni, s0, a. split; [done|]. split.
  - destruct (negb rd), (str_is ot "tensor");
      apply ret_inv in H as [_ ->]; done.
  - destruct (negb rd), (str_is ot "tensor");
      apply ret_inv in H as [[= <-] _]; done.
Qed.

Lemma ClsEmb_call_inv self b g cs n ot rd s out s' :
  DDPMPipeline_Costum_ClsEmb_call C self b g cs n ot rd s = (Ok out, s') →
  ∃ image noise_init c s1 im,
    DDPMPipeline_Costum_ClsEmb_denoise C self b g cs n s
      = (Ok (image, noise_init, c), s1)
    ∧ postprocess C ot image s1 = (Ok im, s')
    ∧ out = (if negb rd
             then if str_is ot "tensor" then Tuple3 im noise_init c else Tuple1 im
             else ImagePipelineOutput im).
Proof.
  unfold DDPMPipeline_Costum_ClsEmb_call, DDPMPipeline_Costum_ClsEmb_finish.
  intros H.
  bind_ok H. destruct a as [[image ni] c]. simpl in H. bind_ok H.
  exists image, ni, c, s0, a. split; [done|]. split.
  - destruct (negb rd), (str_is ot "tensor");
      apply ret_inv in H as [_ ->]; done.
  - destruct (negb rd), (str_is ot "tensor");
      apply ret_inv in H as [[= <-] _]; done.
Qed.

Lemma new_events_grows s s1 s' :
  grows s1 s' → new_events s s' = new_events s s1.
Proof. intros (_ & _ & _ & _ & E). unfold new_events. by rewrite E. Qed.

Lemma grows_value s s' l :
  grows s s' → is_Some (heap (world s) !! l) →
  heap (world s') !! l = heap (world s) !! l.
Proof. intros [Hk _]. by apply keeps_value. Qed.

Lemma loop_bodies_filter k : ∀ evs,
  loop_bodies k evs = true →
  List.filter is_loop_event evs = evs
  ∧ Forall (λ e, is_randint_event e = false
                 ∧ is_set_timesteps_event e = false) evs.
Proof.
  induction k as [|k IH]; intros evs H.
  - destruct evs; [|discriminate]. done.
  - destruct evs as [|[] [|[] evs]]; try discriminate. simpl in H.
    apply andb_prop in H as [_ H]. destruct (IH _ H) as [E F].
    simpl. rewrite E. split; [done|]. repeat constructor; done.
Qed.

End Finish.
(** ** Two runs side by side *)

Section TwoRuns.

Context {GState Sched Pil : Type}.
Context (C : @Collab GState Sched Pil).
Implicit Types (w : @World GState Sched) (s : @State GState Sched).

Lemma bind_fwd {S A B} (m : M' S A) (k : A → M' S B) x a x1 :
  m x = (Ok a, x1) → bind m k x = k a x1.
Proof. unfold bind. by intros ->. Qed.

Lemma logged_call_fwd {A} e (f : @World GState Sched → Outcome A * _) s o w' :
  f (world s) = (o, w') →
  (log e >> lift f)%M s = (o, mkState w' (events s ++ [e])).
Proof. intros H. unfold bind, log, lift. simpl. by rewrite H. Qed.

Lemma same_value_sym w1 l1 w2 l2 :
  same_value w1 l1 w2 l2 → same_value w2 l2 w1 l1.
Proof. intros [H1 H2]. split; [by rewrite <- H2|done]. Qed.

Lemma same_value_grows s1 s1' s2 s2' l1 l2 :
  grows s1 s1' → grows s2 s2' →
  same_value (world s1) l1 (world s2) l2 →
  same_value (world s1') l1 (world s2') l2.
Proof.
  intros G1 G2 [H1 H2]. split.
  - eapply keeps_is_Some; [apply G1|done].
  - rewrite (grows_value _ _ _ G1) by done.
    rewrite (grows_value _ _ _ G2) by (by rewrite <- H2). done.
Qed.

Lemma same_gen_grows g s1 s1' s2 s2' :
  grows s1 s1' → grows s2 s2' →
  same_gen g (world s1) (world s2) → same_gen g (world s1') (world s2').
Proof.
  intros (_ & R1 & D1 & _) (_ & R2 & D2 & _). unfold same_gen, gen_states.
  destruct g; by rewrite ?R1, ?R2, ?D1, ?D2.
Qed.

Lemma same_gen_sched_grows g s1 s1' s2 s2' :
  grows s1 s1' → grows s2 s2' →
  same_gen_sched g (world s1) (world s2) →
  same_gen_sched g (world s1') (world s2').
Proof.
  intros G1 G2 [H1 H2]. split; [by eapply same_gen_grows|].
  destruct G1 as (_ & _ & _ & -> & _), G2 as (_ & _ & _ & -> & _). done.
Qed.

(** *** The tensor operations are functions of what they read *)

Lemma alloc_fwd T s :
  ∃ r s', alloc T s = (Ok r, s') ∧ grows s s'
          ∧ heap (world s') !! r = Some T.
Proof.
  destruct (alloc T s) as [o s'] eqn:E.
  apply alloc_spec in E as (l & -> & _ & H & G). eauto.
Qed.

Ltac det_op_step :=
  let H := fresh "H" in
  let HT := fresh "HT" in
  let E := fresh "E" in
  let V := fresh "V" in
  let G := fresh "G" in
  intros ? ? ? ? ? ? E H; bind_ok H;
  match goal with
  | D : deref _ _ = _ |- _ => apply deref_spec in D as [-> HT]
  end.

Lemma det_alloc_after_deref (f : Tensor → Tensor) :
  @det_op GState Sched (λ l, let* T := deref l in alloc (f T))%M.
Proof.
  det_op_step.
  apply alloc_spec in H as (r & [= <-] & _ & V & G).
  destruct (alloc_fwd (f a) s2) as (r2 & s2' & A2 & G2 & V2).
  exists r2, s2'. split.
  - erewrite bind_fwd; [exact A2|]. unfold deref. by rewrite <- E, HT.
  - split; [done|]. split; [done|]. split; [by rewrite V|]. by rewrite V, V2.
Qed.

Lemma det_tensor_clone : @det_op GState Sched tensor_clone.
Proof. apply (det_alloc_after_deref id). Qed.

Lemma det_tensor_clamp lo hi :
  @det_op GState Sched (λ l, tensor_clamp l lo hi).
Proof.
  apply (det_alloc_after_deref
           (λ T, mkTensor (t_shape T) (t_device T) (clamp_data lo hi (t_data T)))).
Qed.

Lemma det_tensor_mul_scalar c :
  @det_op GState Sched (λ l, tensor_mul_scalar l c).
Proof.
  apply (det_alloc_after_deref
           (λ T, mkTensor (t_shape T) (t_device T)
                   (F32s (map (λ x, F32.mul x c) (as_floats (t_data T)))))).
Qed.

Lemma det_tensor_add_scalar c :
  @det_op GState Sched (λ l, tensor_add_scalar l c).
Proof.
  apply (det_alloc_after_deref
           (λ T, mkTensor (t_shape T) (t_device T)
                   (F32s (map (λ x, F32.add x c) (as_floats (t_data T)))))).
Qed.

Lemma det_tensor_to dev : @det_op GState Sched (λ l, tensor_to l dev).
Proof.
  det_op_step.
  assert (D2 : deref l2 s2 = (Ok a, s2)) by (unfold deref; by rewrite <- E, HT).
  destruct (String.eqb (t_device a) dev) eqn:Ed.
  - apply ret_inv in H as [[= <-] ->].
    exists l2, s2. split.
    + unfold tensor_to. erewrite bind_fwd; [|exact D2]. by rewrite Ed.
    + split; [apply grows_refl|]. split; [apply grows_refl|].
      split; [by rewrite HT|done].
  - apply alloc_spec in H as (r & [= <-] & _ & V & G).
    destruct (alloc_fwd (mkTensor (t_shape a) dev (t_data a)) s2)
      as (r2 & s2' & A2 & G2 & V2).
    exists r2, s2'. split.
    + unfold tensor_to. erewrite bind_fwd; [|exact D2]. by rewrite Ed.
    + split; [done|]. split; [done|]. split; [by rewrite V|]. by rewrite V, V2.
Qed.

Lemma det_tensor_permute : @det_op GState Sched tensor_permute_0231.
Proof.
  det_op_step.
  assert (D2 : deref l2 s2 = (Ok a, s2)) by (unfold deref; by rewrite <- E, HT).
  destruct (t_shape a) as [|n [|c [|h [|k [|]]]]] eqn:Es; try discriminate.
  apply alloc_spec in H as (r & [= <-] & _ & V & G).
  destruct (alloc_fwd (mkTensor [n; h; k; c] (t_device a)
                         (permute_data n c h k (t_data a))) s2)
    as (r2 & s2' & A2 & G2 & V2).
  exists r2, s2'. split.
  - unfold tensor_permute_0231. erewrite bind_fwd; [|exact D2]. by rewrite Es.
  - split; [done|]. split; [done|]. split; [by rewrite V|]. by rewrite V, V2.
Qed.

Lemma tensor_numpy_det l1 l2 s1 s2 T s1' :
  heap (world s1) !! l1 = heap (world s2) !! l2 →
  tensor_numpy l1 s1 = (Ok T, s1') →
  s1' = s1 ∧ tensor_numpy l2 s2 = (Ok T, s2).
Proof.
  intros E H. pose proof H as H'.
  apply tensor_numpy_spec in H' as [-> HT]. split; [done|].
  unfold tensor_numpy in *. bind_ok H.
  apply deref_spec in H0 as [-> HT'].
  erewrite bind_fwd; [|unfold deref; by rewrite <- E, HT'].
  destruct (String.eqb _ _); [|discriminate].
  apply ret_inv in H as [[= <-] _]. done.
Qed.

(** The post-processing stage is a function of the image it is given. *)
Lemma postprocess_det ot im1 im2 s1 s2 out1 s1' :
  same_value (world s1) im1 (world s2) im2 →
  postprocess C ot im1 s1 = (Ok out1, s1') →
  ∃ out2 s2', postprocess C ot im2 s2 = (Ok out2, s2')
    ∧ grows s1 s1' ∧ grows s2 s2'
    ∧ is_Some (images_value (world s1') out1)
    ∧ images_value (world s1') out1 = images_value (world s2') out2.
Proof.
  intros [Hs Hv] H. pose proof (postprocess_grows _ _ _ _ _ _ H) as G1.
  unfold postprocess in *.
  destruct (str_is ot "pil") eqn:E1; [|destruct (str_is ot "tensor") eqn:E2].
  - bind_ok H. bind_ok H. bind_ok H. bind_ok H. bind_ok H. bind_ok H. bind_ok H.
    apply ret_inv in H as [[= ->] ->].
    apply (det_tensor_mul_scalar _ _ im2 _ s2) in H0
      as (b0 & t0 & F0 & _ & Gb0 & [_ V0]); [|done].
    apply (det_tensor_add_scalar _ _ b0 _ t0) in H1
      as (b1 & t1 & F1 & _ & Gb1 & [_ V1]); [|done].
    apply (det_tensor_clamp _ _ _ b1 _ t1) in H2
      as (b2 & t2 & F2 & _ & Gb2 & [_ V2]); [|done].
    apply (det_tensor_to _ _ b2 _ t2) in H3
      as (b3 & t3 & F3 & _ & Gb3 & [_ V3]); [|done].
    apply (det_tensor_permute _ b3 _ t3) in H4
      as (b4 & t4 & F4 & _ & Gb4 & [_ V4]); [|done].
    apply (tensor_numpy_det _ b4 _ t4) in H5 as [-> F5]; [|done].
    apply lift_pure_inv in H6 as [E6 ->].
    exists (PilImages a5), t4. split.
    + erewrite bind_fwd; [|exact F0]. erewrite bind_fwd; [|exact F1].
      erewrite bind_fwd; [|exact F2]. erewrite bind_fwd; [|exact F3].
      erewrite bind_fwd; [|exact F4]. erewrite bind_fwd; [|exact F5].
      erewrite bind_fwd; [done|]. unfold lift_pure. by rewrite <- E6.
    + split; [done|]. split; [eauto 10 using grows_trans|]. simpl. eauto.
  - bind_ok H. apply ret_inv in H as [[= ->] ->].
    apply (det_tensor_clamp _ _ _ im2 _ s2) in H0
      as (b0 & t0 & F0 & _ & Gb0 & [S0 V0]); [|done].
    exists (TensorImage b0), t0. split.
    + erewrite bind_fwd; [|exact F0]. done.
    + split; [done|]. split; [done|]. simpl. rewrite <- V0.
      split; [|done]. destruct S0 as [x ->]. by eexists.
  - apply ret_inv in H as [[= ->] ->].
    exists (TensorImage im2), s2. split; [done|]. split; [done|].
    split; [apply grows_refl|]. simpl. rewrite <- Hv.
    split; [|done]. destruct Hs as [x ->]. by eexists.
Qed.

End TwoRuns.

(** ** Determinism of the phases *)

Section Determinism.

Context {GState Sched Pil : Type}.
Context (C : @Collab GState Sched Pil).
Context (HF : FrameContract C).
Context (g : GenArg) (HD : DetContract C g).
Implicit Types (w : @World GState Sched) (s : @State GState Sched).

Lemma same_value_keeps w1 w1' w2 w2' l1 l2 :
  keeps w1 w1' [] → keeps w2 w2' [] →
  same_value w1 l1 w2 l2 → same_value w1' l1 w2' l2.
Proof.
  intros K1 K2 [H1 H2]. split.
  - eapply keeps_is_Some; eauto.
  - rewrite (keeps_value _ _ _ K1) by done.
    rewrite (keeps_value _ _ _ K2) by (by rewrite <- H2). done.
Qed.

Lemma call_unet_fwd image t labels s o w' :
  unet_forward C image t labels (world s) = (o, w') →
  call_unet C image t labels s
  = (o, mkState w' (events s ++
          [EvUnet image (heap (world s) !! image) t labels
             (labels ≫= λ c, heap (world s) !! c)])).
Proof.
  intros H. unfold call_unet, peek_opt, peek.
  destruct labels as [c|]; apply (logged_call_fwd _ _ s _ _ H).
Qed.

Lemma initial_noise_det self b s1 s2 im1 s1' :
  same_gen g (world s1) (world s2) →
  initial_noise C self b g s1 = (Ok im1, s1') →
  ∃ im2 s2', initial_noise C self b g s2 = (Ok im2, s2')
    ∧ same_gen g (world s1') (world s2')
    ∧ same_value (world s1') im1 (world s2') im2.
Proof.
  intros Hg H. apply initial_noise_inv in H as [Esh H].
  rewrite (initial_noise_fwd C self b g _ s2 Esh). unfold sample_noise in *.
  destruct (on_mps self).
  - bind_ok H. apply call_randn_inv in H0 as [R1 _].
    destruct (randn_tensor C (sampled_shape self b) g None (world s2))
      as [o2 w2] eqn:R2.
    destruct (randn_det _ _ HD _ _ _ _ _ _ _ _ Hg R1 R2) as [Hg' Ho].
    destruct o2 as [x2|e]; [|done]. simpl in Ho.
    set (t2 := mkState w2 (events s2 ++ [EvRandn (sampled_shape self b) g None])).
    destruct (det_tensor_to (device self) a x2 s t2 im1 s1')
      as (im2 & s2' & F & G1 & G2 & V); [by destruct Ho|done|].
    exists im2, s2'. split.
    + erewrite bind_fwd; [exact F|]. by apply logged_call_fwd.
    + split; [|done]. by apply (same_gen_grows _ _ _ _ _ G1 G2).
  - apply call_randn_inv in H as [R1 _].
    destruct (randn_tensor C (sampled_shape self b) g (Some (device self)) (world s2))
      as [o2 w2] eqn:R2.
    destruct (randn_det _ _ HD _ _ _ _ _ _ _ _ Hg R1 R2) as [Hg' Ho].
    destruct o2 as [x2|e]; [|done]. simpl in Ho.
    eexists x2, _. split; [by apply logged_call_fwd|]. done.
Qed.

Lemma class_embedding_det self b cs1 cs2 s1 s2 c1 s1' :
  same_gen_sched g (world s1) (world s2) →
  same_value_opt (world s1) cs1 (world s2) cs2 →
  class_embedding C self b g cs1 s1 = (Ok c1, s1') →
  ∃ c2 s2', class_embedding C self b g cs2 s2 = (Ok c2, s2')
    ∧ same_gen_sched g (world s1') (world s2')
    ∧ same_value (world s1') c1 (world s2') c2.
Proof.
  unfold class_embedding. intros Hg Hcs H.
  destruct cs1 as [l1|], cs2 as [l2|]; try done; simpl in Hcs.
  - apply ret_inv in H as [[= <-] ->]. exists l2, s2. done.
  - bind_ok H. apply call_randint_inv in H0 as [R1 _].
    destruct (torch_randint C 0 10 [b] g int64 (world s2)) as [o2 w2] eqn:R2.
    destruct (randint_det _ _ HD _ _ _ _ _ _ _ _ _ _ Hg R1 R2) as [Hg' Ho].
    destruct o2 as [x2|e]; [|done]. simpl in Ho.
    set (t2 := mkState w2
                 (events s2
                  ++ [EvRandint 0 10 [b] g int64 (returned_now (Ok x2) w2)])).
    destruct (det_tensor_to (device self) a x2 s t2 c1 s1')
      as (c2 & s2' & F & G1 & G2 & V); [by destruct Ho|done|].
    exists c2, s2'. split.
    + erewrite bind_fwd; [exact F|]. by apply call_randint_fwd.
    + split; [|done]. by apply (same_gen_sched_grows _ _ _ _ _ G1 G2).
Qed.

Lemma denoise_loop_det prot lb1 lb2 ts : ∀ im1 im2 s1 s2 r1 s1',
  labels_among lb1 lb2 prot →
  same_gen_sched g (world s1) (world s2) →
  same_value (world s1) im1 (world s2) im2 →
  Forall (guarded_pair (world s1) (world s2) im1 im2) prot →
  denoise_loop C lb1 g ts im1 s1 = (Ok r1, s1') →
  ∃ r2 s2', denoise_loop C lb2 g ts im2 s2 = (Ok r2, s2')
    ∧ same_gen_sched g (world s1') (world s2')
    ∧ same_value (world s1') r1 (world s2') r2
    ∧ Forall (guarded_pair (world s1') (world s2') r1 r2) prot.
Proof.
  induction ts as [|t ts IH]; intros im1 im2 s1 s2 r1 s1' Hlb Hg Him Hp H;
    simpl in H.
  - apply ret_inv in H as [[= <-] ->]. exists im2, s2. done.
  - bind_ok H. rename a into mo1, s into s1a. bind_ok H.
    rename a into n1, s into s1b.
    apply call_unet_inv in H0 as [U1 _].
    apply call_step_inv in H1 as [St1 _].
    assert (Hlbv : same_value_opt (world s1) lb1 (world s2) lb2).
    { destruct lb1 as [c1|], lb2 as [c2|]; try done. simpl in *.
      rewrite Forall_forall in Hp. by destruct (Hp _ Hlb). }
    destruct (unet_forward C im2 t lb2 (world s2)) as [o2 w2a] eqn:U2.
    destruct (unet_det _ _ HD _ _ _ _ _ _ _ _ _ _ _ Hg Him Hlbv U1 U2)
      as (Hg1 & Ho1 & Him1).
    destruct o2 as [mo2|e]; [|done]. simpl in Ho1. specialize (Him1 eq_refl).
    destruct (scheduler_step C mo2 t im2 g w2a) as [o3 w2b] eqn:St2.
    destruct (step_det _ _ HD _ _ _ _ _ _ _ _ _ _ _ Hg1 Ho1 Him1 St1 St2)
      as (Hg2 & Ho2).
    destruct o3 as [n2|e]; [|done]. simpl in Ho2.
    assert (A1 : is_Some (heap (world s1) !! im1)) by (by destruct Him).
    assert (A2 : is_Some (heap (world s2) !! im2))
      by (destruct Him as [? E]; by rewrite <- E).
    pose proof (loop_body_frame _ HF _ _ _ _ _ _ _ _ _ U1 St1 A1) as [P1 _].
    pose proof (loop_body_frame _ HF _ _ _ _ _ _ _ _ _ U2 St2 A2) as [P2 _].
    set (s2a := mkState w2a (events s2 ++
                  [EvUnet im2 (heap (world s2) !! im2) t lb2
                     (lb2 ≫= λ c, heap (world s2) !! c)])).
    set (s2b := mkState w2b (events s2a ++ [EvStep mo2 t im2 g])).
    destruct (IH n1 n2 s1b s2b r1 s1' Hlb) as (r2 & s2' & F & Hg3 & Hr & Hp3);
      try done.
    { rewrite Forall_forall in *. intros [a b] Hab.
      destruct (Hp _ Hab) as ([Sa Ea] & Na & Nb). simpl in *.
      destruct (P1 a Sa Na) as (Va & Sa' & Na').
      destruct (P2 b) as (Vb & Sb' & Nb'); [by rewrite <- Ea|done|].
      split; [|done]. split; [done|]. simpl. congruence. }
    exists r2, s2'. split; [|done].
    simpl. erewrite bind_fwd; [|by apply call_unet_fwd].
    erewrite bind_fwd; [exact F|].
    by apply (logged_call_fwd _ _ s2a).
Qed.

(** The common start of the two pipelines: the noise, its snapshot and
    the configuration of the scheduler. *)
Lemma prelude_det self b n s1 s2 im1 s1a ni1 s1b s1c :
  same_gen g (world s1) (world s2) →
  initial_noise C self b g s1 = (Ok im1, s1a) →
  tensor_clone im1 s1a = (Ok ni1, s1b) →
  call_set_timesteps C n s1b = (Ok tt, s1c) →
  ∃ im2 s2a ni2 s2b s2c,
    initial_noise C self b g s2 = (Ok im2, s2a)
    ∧ tensor_clone im2 s2a = (Ok ni2, s2b)
    ∧ call_set_timesteps C n s2b = (Ok tt, s2c)
    ∧ same_gen_sched g (world s1c) (world s2c)
    ∧ same_value (world s1c) im1 (world s2c) im2
    ∧ same_value (world s1c) ni1 (world s2c) ni2
    ∧ ni1 ≠ im1 ∧ ni2 ≠ im2
    ∧ keeps (world s1) (world s1c) [] ∧ keeps (world s2) (world s2c) []
    ∧ heap (world s1) !! im1 = None ∧ heap (world s2) !! im2 = None.
Proof.
  intros Hg I1 Cl1 T1.
  destruct (initial_noise_det _ _ _ _ _ _ Hg I1) as (im2 & s2a & I2 & Hga & Va).
  destruct (det_tensor_clone im1 im2 s1a s2a ni1 s1b)
    as (ni2 & s2b & Cl2 & G1 & G2 & Vn); [by destruct Va|done|].
  pose proof (same_gen_grows _ _ _ _ _ G1 G2 Hga) as Hgb.
  pose proof (same_value_grows _ _ _ _ _ _ G1 G2 Va) as Vb.
  apply call_set_timesteps_inv in T1 as [T1 E1].
  destruct (set_timesteps C n (world s2b)) as [o2 w2c] eqn:T2.
  destruct (set_timesteps_det _ _ HD _ _ _ _ _ _ _ Hgb T1 T2) as [<- Hgc].
  specialize (Hgc eq_refl).
  pose proof (set_timesteps_frame _ HF _ _ _ _ T1) as K1.
  pose proof (set_timesteps_frame _ HF _ _ _ _ T2) as K2.
  set (s2c := mkState w2c (events s2b ++ [EvSetTimesteps n])).
  apply (initial_noise_spec _ HF) in I1 as (Ka1 & F1 & A1 & _).
  pose proof (initial_noise_spec _ HF _ _ _ _ _ _ I2) as (Ka2 & F2 & A2 & _).
  pose proof (tensor_clone_spec _ _ _ _ Cl1) as [_ Fn1].
  pose proof (tensor_clone_spec _ _ _ _ Cl2) as [_ Fn2].
  exists im2, s2a, ni2, s2b, s2c.
  split; [done|]. split; [done|].
  split. { by apply logged_call_fwd. }
  split; [done|].
  split. { by apply (same_value_keeps _ _ _ _ _ _ K1 K2). }
  split. { by apply (same_value_keeps _ _ _ _ _ _ K1 K2). }
  split. { apply not_eq_sym. eapply is_Some_ne; eauto. }
  split. { apply not_eq_sym. eapply is_Some_ne; eauto. }
  split. { eapply keeps_trans; [exact Ka1|]. eapply keeps_trans; [apply G1|done]. }
  split. { eapply keeps_trans; [exact Ka2|]. eapply keeps_trans; [apply G2|done]. }
  done.
Qed.

Lemma Costum_denoise_det self b n s1 s2 im1 ni1 s1' :
  same_gen g (world s1) (world s2) →
  DDPMPipeline_Costum_denoise C self b g n s1 = (Ok (im1, ni1), s1') →
  ∃ im2 ni2 s2',
    DDPMPipeline_Costum_denoise C self b g n s2 = (Ok (im2, ni2), s2')
    ∧ same_value (world s1') im1 (world s2') im2
    ∧ same_value (world s1') ni1 (world s2') ni2.
Proof.
  intros Hg D. unfold DDPMPipeline_Costum_denoise in *.
  bind_ok D. bind_ok D. bind_ok D. destruct a1. bind_ok D. bind_ok D.
  apply ret_inv in D as [[= <- <-] ->].
  apply get_timesteps_inv in H2 as [[= ->] ->].
  destruct (prelude_det _ _ _ _ _ _ _ _ _ _ Hg H H0 H1)
    as (im2 & s2a & ni2 & s2b & s2c & I2 & Cl2 & T2 & Hgs & Vi & Vn & N1 & N2 & _).
  edestruct (denoise_loop_det [(ni1, ni2)] None None)
    as (r2 & s2' & L2 & _ & Vr & Vp);
    [done | exact Hgs | exact Vi | by apply Forall_singleton | exact H3 |].
  apply Forall_singleton in Vp as (Vn' & _).
  exists r2, ni2, s2'. split; [|done].
  erewrite bind_fwd; [|exact I2]. erewrite bind_fwd; [|exact Cl2].
  erewrite bind_fwd; [|exact T2].
  erewrite bind_fwd; [|reflexivity].
  destruct Hgs as [_ <-].
  erewrite bind_fwd; [|exact L2]. done.
Qed.

Lemma ClsEmb_denoise_det self b cs1 cs2 n s1 s2 im1 ni1 c1 s1' :
  same_gen g (world s1) (world s2) →
  same_value_opt (world s1) cs1 (world s2) cs2 →
  DDPMPipeline_Costum_ClsEmb_denoise C self b g cs1 n s1
    = (Ok (im1, ni1, c1), s1') →
  ∃ im2 ni2 c2 s2',
    DDPMPipeline_Costum_ClsEmb_denoise C self b g cs2 n s2
      = (Ok (im2, ni2, c2), s2')
    ∧ same_value (world s1') im1 (world s2') im2
    ∧ same_value (world s1') ni1 (world s2') ni2
    ∧ same_value (world s1') c1 (world s2') c2.
Proof.
  intros Hg Hcs D. unfold DDPMPipeline_Costum_ClsEmb_denoise in *.
  bind_ok D. bind_ok D. bind_ok D. destruct a1. bind_ok D. bind_ok D. bind_ok D.
  apply ret_inv in D as [[= <- <- <-] ->].
  apply get_timesteps_inv in H3 as [[= ->] ->].
  destruct (prelude_det _ _ _ _ _ _ _ _ _ _ Hg H H0 H1)
    as (im2 & s2a & ni2 & s2b & s2c & I2 & Cl2 & T2 & Hgs & Vi & Vn & N1 & N2
        & K1 & K2 & F1 & F2).
  assert (Hcs' : same_value_opt (world s3) cs1 (world s2c) cs2).
  { destruct cs1, cs2; try done. by apply (same_value_keeps _ _ _ _ _ _ K1 K2). }
  destruct (class_embedding_det _ _ _ _ _ _ _ _ Hgs Hcs' H2)
    as (c2 & s2d & E2 & Hgs' & Vc).
  pose proof (class_embedding_spec _ HF _ _ _ _ _ _ _ H2) as (K1' & _ & Hc1).
  pose proof (class_embedding_spec _ HF _ _ _ _ _ _ _ E2) as (K2' & _ & Hc2).
  assert (Nc1 : c1 ≠ a).
  { destruct cs1 as [l1|].
    - destruct Hc1 as [-> _]. destruct cs2; [|done].
      eapply is_Some_ne; [|exact F1]. by destruct Hcs.
    - destruct Hc1 as (Fc & _). apply not_eq_sym.
      eapply is_Some_ne; [|exact Fc]. by destruct Vi. }
  assert (Nc2 : c2 ≠ im2).
  { destruct cs2 as [l2|].
    - destruct Hc2 as [-> _]. destruct cs1; [|done].
      eapply is_Some_ne; [|exact F2]. destruct Hcs as [? <-]. done.
    - destruct Hc2 as (Fc & _). apply not_eq_sym.
      eapply is_Some_ne; [|exact Fc]. destruct Vi as [? <-]. done. }
  edestruct (denoise_loop_det [(ni1, ni2); (c1, c2)] (Some c1) (Some c2))
    as (r2 & s2' & L2 & _ & Vr & Vp);
    [ | exact Hgs' | | | exact H4 |].
  { simpl. apply elem_of_cons. right. apply list_elem_of_singleton. done. }
  { by apply (same_value_keeps _ _ _ _ _ _ K1' K2'). }
  { constructor; [|constructor; [|constructor]].
    - split; [|done]. by apply (same_value_keeps _ _ _ _ _ _ K1' K2').
    - done. }
  apply Forall_cons in Vp as [(Vn' & _) Vp].
  apply Forall_singleton in Vp as (Vc' & _).
  exists r2, ni2, c2, s2'. split; [|done].
  erewrite bind_fwd; [|exact I2]. erewrite bind_fwd; [|exact Cl2].
  erewrite bind_fwd; [|exact T2]. erewrite bind_fwd; [|exact E2].
  erewrite bind_fwd; [|reflexivity].
  destruct Hgs' as [_ <-].
  erewrite bind_fwd; [|exact L2]. done.
Qed.

End Determinism.

(** ** The reference collaborators meet the contracts *)

Section RefContracts.

Context (net : Z → spec_float → spec_float) (in_place : bool).

Implicit Types (w : Ref.W).

Lemma ref_draw_world shape g w xs w1 :
  Ref.draw shape g w = Ok (xs, w1) →
  heap w1 = heap w ∧ sched w1 = sched w.
Proof.
  unfold Ref.draw. intros H.
  repeat case_match; simplify_eq/=; done.
Qed.

Lemma ref_new_tensor_spec T w l w' :
  Ref.new_tensor T w = (l, w') →
  heap w !! l = None ∧ heap w' = <[l := T]> (heap w)
  ∧ sched w' = sched w ∧ rngs w' = rngs w ∧ default_rng w' = default_rng w.
Proof.
  unfold Ref.new_tensor. intros [= <- <-]. simpl.
  split; [apply fresh_loc_None|done].
Qed.

Lemma keeps_heap_eq w w' ls : heap w' = heap w → keeps w w' ls.
Proof. intros E l Hl. by rewrite E. Qed.

Lemma keeps_insert_new w w' l T ls :
  heap w !! l = None → heap w' = <[l := T]> (heap w) → keeps w w' ls.
Proof.
  intros Hn E k Hk. rewrite E.
  assert (l ≠ k) by (intros ->; rewrite Hn in Hk; by destruct Hk).
  by rewrite lookup_insert_ne.
Qed.

Lemma keeps_overwrite w w' l T ls :
  l ∈ ls → heap w' = <[l := T]> (heap w) → keeps w w' ls.
Proof.
  intros Hin E k Hk. rewrite E. destruct (decide (l = k)) as [->|Hne].
  - rewrite lookup_insert_eq. split; [by eexists|done].
  - by rewrite lookup_insert_ne.
Qed.

Lemma returns_new w w' (r : loc) T args :
  heap w !! r = None → heap w' = <[r := T]> (heap w) →
  returns_new_or w w' (Ok r) args.
Proof.
  intros Hn E r' [= <-]. rewrite E, lookup_insert_eq.
  split; [by eexists|by right].
Qed.

Lemma returns_raise w w' e args : returns_new_or w w' (@Raise loc e) args.
Proof. intros r H. discriminate. Qed.

Lemma ref_frame_ok : FrameContract (Ref.collab net in_place).
Proof.
  split; simpl.
  - intros shape g dev w o w' H. unfold Ref.randn_tensor in H.
    destruct (Ref.draw shape g w) as [[xs w1]|e] eqn:D.
    + destruct (Ref.new_tensor _ w1) as [l w2] eqn:N.
      injection H as <- <-.
      apply ref_draw_world in D as [Dh Ds].
      apply ref_new_tensor_spec in N as (Nn & Nh & Ns & _).
      rewrite Dh in Nn, Nh.
      split; [by eapply keeps_insert_new|].
      split; [by eapply returns_new|]. congruence.
    + injection H as <- <-. split; [apply keeps_refl|].
      split; [apply returns_raise|done].
  - intros low high size g dt w o w' H. unfold Ref.torch_randint in H.
    assert (Hcase :
      (∃ e, o = Raise e ∧ w' = w)
      ∨ ∃ xs w1 l T, Ref.draw size g w = Ok (xs, w1) ∧ o = Ok l
          ∧ Ref.new_tensor T w1 = (l, w')).
    { destruct g; repeat case_match; simplify_eq/=; eauto 10. }
    destruct Hcase as [(e & -> & ->)|(xs & w1 & l & T & D & -> & N)].
    + split; [apply keeps_refl|]. split; [apply returns_raise|done].
    + apply ref_draw_world in D as [Dh Ds].
      apply ref_new_tensor_spec in N as (Nn & Nh & Ns & _).
      rewrite Dh in Nn, Nh.
      split; [by eapply keeps_insert_new|].
      split; [by eapply returns_new|]. congruence.
  - intros n w o w' H. unfold Ref.set_timesteps in H.
    case_match; simplify_eq/=; by apply keeps_heap_eq.
  - intros image t labels w o w' H. unfold Ref.unet_forward in H.
    repeat case_match; simplify_eq/=;
      try (split; [apply keeps_refl|apply returns_raise]).
    all: match goal with
         | N : Ref.new_tensor _ _ = _ |- _ =>
             apply ref_new_tensor_spec in N as (Nn & Nh & _)
         end.
    all: split; [by eapply keeps_insert_new|by eapply returns_new].
  - intros mo t image g w o w' H. unfold Ref.scheduler_step in H.
    assert (Hcase :
      (∃ e, o = Raise e ∧ w' = w)
      ∨ ∃ w1 P, heap w1 = heap w
          ∧ ((o = Ok image ∧ is_Some (heap w !! image)
              ∧ heap w' = <[image := P]> (heap w1))
             ∨ ∃ l, o = Ok l ∧ Ref.new_tensor P w1 = (l, w'))).
    { repeat case_match; simplify_eq/=; eauto 10.
      all: right.
      all: try match goal with
           | D : Ref.draw _ _ _ = Ok _ |- _ =>
               apply ref_draw_world in D as [Dh _]
           end.
      all: eexists _, _; (split; [eassumption || reflexivity|]).
      all: try (left; split; [reflexivity|]; split; [by eexists|reflexivity]).
      all: right; eexists; split; [reflexivity|eassumption]. }
    destruct Hcase as [(e & -> & ->)|(w1 & P & Dh & [(-> & Si & E)|(l & -> & N)])].
    + split; [apply keeps_refl|apply returns_raise].
    + rewrite Dh in E. split.
      * eapply keeps_overwrite; [|exact E].
        apply elem_of_cons. right. by apply list_elem_of_singleton.
      * intros r [= <-]. rewrite E, lookup_insert_eq.
        split; [by eexists|]. left.
        apply elem_of_cons. right. by apply list_elem_of_singleton.
    + apply ref_new_tensor_spec in N as (Nn & Nh & _). rewrite Dh in Nn, Nh.
      split; [by eapply keeps_insert_new|by eapply returns_new].
Qed.

Lemma ref_timesteps_ok : TimestepsContract (Ref.collab net in_place).
Proof.
  intros n w w' H. simpl in *. unfold Ref.set_timesteps in H.
  destruct ((n <=? 0) || (Ref.num_train_timesteps <? n)) eqn:E; [discriminate|].
  injection H as <-. simpl.
  rewrite length_rev, length_map, length_seq.
  apply orb_false_iff in E as [E _]. apply Z.leb_gt in E. lia.
Qed.

Lemma ref_chunks_length {A} k size (xs : list A) :
  length (Ref.chunks k size xs) = k.
Proof.
  revert xs. induction k as [|k IH]; intros xs; simpl; [done|]. by rewrite IH.
Qed.

Lemma ref_shape_ok : ShapeContract (Ref.collab net in_place).
Proof.
  split; simpl.
  - intros shape g dev w r w' H. unfold Ref.randn_tensor in H.
    destruct (Ref.draw shape g w) as [[xs w1]|e] eqn:D; [|discriminate].
    destruct (Ref.new_tensor _ w1) as [l w2] eqn:N.
    injection H as <- <-.
    apply ref_new_tensor_spec in N as (_ & Nh & _).
    unfold shape_at. by rewrite Nh, lookup_insert_eq.
  - intros image t labels w r w' H. unfold Ref.unet_forward in H.
    unfold shape_at.
    repeat case_match; simplify_eq/=.
    all: match goal with
         | N : Ref.new_tensor _ _ = _ |- _ =>
             apply ref_new_tensor_spec in N as (Nn & Nh & _)
         end.
    all: rewrite Nh, lookup_insert_ne by (intros ->; congruence).
    all: match goal with
         | X : heap _ !! _ = Some _ |- _ => by rewrite X
         end.
  - intros mo t image g w r w' H. unfold Ref.scheduler_step in H.
    unfold shape_at.
    repeat case_match; simplify_eq/=.
    all: try match goal with
           | D : Ref.draw _ _ _ = Ok _ |- _ =>
               apply ref_draw_world in D as [Dh _]
           end.
    all: try match goal with
         | N : Ref.new_tensor _ _ = _ |- _ =>
             apply ref_new_tensor_spec in N as (Nn & Nh & _); rewrite Nh
         end.
    all: rewrite ?lookup_insert_eq; simpl.
    all: done.
  - intros arr ps H. unfold Ref.numpy_to_pil in H.
    destruct (t_shape arr) as [|n [|h [|w [|c [|]]]]] eqn:E; try discriminate.
    destruct (n <? 0) eqn:En; [discriminate|]. injection H as <-.
    rewrite length_map, ref_chunks_length. unfold batch_dim. rewrite E. simpl.
    apply Z.ltb_ge in En. f_equal. lia.
Qed.

Lemma ref_draws_length n : ∀ x, length (Ref.draws n x).1 = n.
Proof.
  induction n as [|n IH]; intros x; simpl; [done|].
  specialize (IH (Ref.lcg x)). destruct (Ref.draws n (Ref.lcg x)). simpl in *.
  by rewrite IH.
Qed.

Lemma numel_nonneg shape : forallb (Z.leb 0) shape = true → 0 ≤ numel shape.
Proof.
  unfold numel. induction shape as [|d shape IH]; simpl; [lia|].
  intros H. apply andb_prop in H as [Hd H]. apply Z.leb_le in Hd.
  specialize (IH H). nia.
Qed.

(** A draw from one generator, or from the default generator, yields one
    number for each entry of the shape. *)
Lemma ref_draw_length shape g w xs w1 :
  match g with GenList _ => False | _ => True end →
  Ref.draw shape g w = Ok (xs, w1) →
  Z.of_nat (length xs) = numel shape.
Proof.
  intros Hg H. unfold Ref.draw in H.
  destruct (forallb (Z.leb 0) shape) eqn:Hs; [|done].
  apply numel_nonneg in Hs.
  destruct g as [|h|hs]; [| |done].
  - pose proof (ref_draws_length (Z.to_nat (numel shape)) (default_rng w)) as L.
    destruct (Ref.draws _ _) as [ys y]. injection H as <- _. simpl in L. lia.
  - destruct (rngs w !! h) as [x|]; [|done].
    pose proof (ref_draws_length (Z.to_nat (numel shape)) x) as L.
    destruct (Ref.draws _ _) as [ys y]. injection H as <- _. simpl in L. lia.
Qed.

Lemma ref_randint_ok : RandintContract (Ref.collab net in_place).
Proof.
  intros low high size g dt w r w' H. simpl in H. unfold Ref.torch_randint in H.
  assert (Hcase :
    ∃ xs w0 w1, low < high
      ∧ match g with GenList _ => False | _ => True end
      ∧ Ref.draw size g w0 = Ok (xs, w1)
      ∧ Ref.new_tensor
          (mkTensor size "cpu"
             (Ref.int_data dt (map (λ x, low + x mod (high - low)) xs)))
          w1 = (r, w')).
  { destruct g; repeat case_match; simplify_eq/=.
    all: eexists _, _, _; split; [|split; [done|split; eassumption]].
    all: match goal with E : (_ <=? _) = false |- _ => apply Z.leb_gt in E end.
    all: done. }
  destruct Hcase as (xs & w0 & w1 & Hlt & Hg & D & N).
  apply ref_draw_length in D; [|done].
  apply ref_new_tensor_spec in N as (_ & Nh & _).
  eexists. split; [by rewrite Nh, lookup_insert_eq|].
  split; [done|].
  split. { unfold t_len. simpl. destruct dt; simpl; by rewrite ?length_map. }
  split. { by destruct dt. }
  intros ->. unfold ints_in_range. simpl. apply Forall_map, Forall_forall.
  intros x _. simpl. pose proof (Z.mod_pos_bound x (high - low)). lia.
Qed.

(** *** Determinism of the reference collaborators *)

Lemma agree_on_fmap hs (r1 r2 : gmap nat Z) :
  Ref.agree_on hs r1 r2 ↔ (λ h, r1 !! h) <$> hs = (λ h, r2 !! h) <$> hs.
Proof.
  unfold Ref.agree_on. induction hs as [|h hs IH]; simpl.
  - split; [done|]. intros _ h Hh. by apply elem_of_nil in Hh.
  - split.
    + intros H. f_equal; [apply H; left|].
      apply IH. intros k Hk. apply H. by right.
    + intros [= E1 E2] k Hk. apply elem_of_cons in Hk as [->|Hk]; [done|].
      by apply IH.
Qed.

Lemma ref_draw_each_det per all hs : ∀ r1 r2,
  Ref.agree_on all r1 r2 → hs ⊆ all →
  match Ref.draw_each per hs r1, Ref.draw_each per hs r2 with
  | Some (xs1, r1'), Some (xs2, r2') => xs1 = xs2 ∧ Ref.agree_on all r1' r2'
  | None, None => True
  | _, _ => False
  end.
Proof.
  induction hs as [|h hs IH]; intros r1 r2 Ha Hs; simpl; [done|].
  rewrite (Ha h) by (apply Hs; left).
  destruct (r2 !! h) as [x|]; [|done].
  destruct (Ref.draws per x) as [xs x'].
  assert (Ha' : Ref.agree_on all (<[h := x']> r1) (<[h := x']> r2)).
  { intros k Hk. destruct (decide (h = k)) as [->|Hne].
    - by rewrite !lookup_insert_eq.
    - rewrite !lookup_insert_ne by done. by apply Ha. }
  assert (Hs' : hs ⊆ all) by (intros k Hk; apply Hs; by right).
  specialize (IH _ _ Ha' Hs').
  destruct (Ref.draw_each per hs (<[h:=x']> r1)) as [[ys1 q1]|],
           (Ref.draw_each per hs (<[h:=x']> r2)) as [[ys2 q2]|]; try done.
  destruct IH as [-> ?]. done.
Qed.

Lemma ref_draw_one_det shape h w1 w2 :
  rngs w1 !! h = rngs w2 !! h →
  match
    match rngs w1 !! h with
    | None => Raise "ReferenceError"
    | Some x =>
        let '(xs, x') := Ref.draws (Z.to_nat (numel shape)) x in
        Ok (xs, mkWorld (heap w1) (<[h := x']> (rngs w1)) (default_rng w1) (sched w1))
    end,
    match rngs w2 !! h with
    | None => Raise "ReferenceError"
    | Some x =>
        let '(xs, x') := Ref.draws (Z.to_nat (numel shape)) x in
        Ok (xs, mkWorld (heap w2) (<[h := x']> (rngs w2)) (default_rng w2) (sched w2))
    end
  with
  | Ok (xs1, w1'), Ok (xs2, w2') =>
      xs1 = xs2 ∧ rngs w1' !! h = rngs w2' !! h
  | Raise e1, Raise e2 => e1 = e2
  | _, _ => False
  end.
Proof.
  intros ->. destruct (rngs w2 !! h) as [x|]; [|done].
  destruct (Ref.draws _ x) as [xs x']. simpl. by rewrite !lookup_insert_eq.
Qed.

Lemma ref_draw_det shape g w1 w2 :
  same_gen g w1 w2 →
  match Ref.draw shape g w1, Ref.draw shape g w2 with
  | Ok (xs1, w1'), Ok (xs2, w2') => xs1 = xs2 ∧ same_gen g w1' w2'
  | Raise e1, Raise e2 => e1 = e2
  | _, _ => False
  end.
Proof.
  unfold same_gen, Ref.draw. intros Hg.
  destruct (forallb (Z.leb 0) shape); [|done].
  destruct g as [|h|hs]; simpl in Hg.
  - injection Hg as ->.
    destruct (Ref.draws _ (default_rng w2)) as [xs x']. done.
  - injection Hg as Hg. pose proof (ref_draw_one_det shape h w1 w2 Hg) as H.
    repeat case_match; simplify_eq/=; try done.
    destruct H as [-> H]. split; [done|]. by rewrite H.
  - destruct hs as [|h [|h' hs]].
    + destruct shape as [|b rest]; [done|].
      destruct (Z.of_nat (length []) <? b); [done|]. simpl.
      rewrite take_nil. simpl. done.
    + injection Hg as Hg. pose proof (ref_draw_one_det shape h w1 w2 Hg) as H.
      repeat case_match; simplify_eq/=; try done.
      destruct H as [-> H]. split; [done|]. by rewrite H.
    + destruct shape as [|b rest]; [done|].
      destruct (Z.of_nat (length (h :: h' :: hs)) <? b); [done|].
      apply agree_on_fmap in Hg.
      pose proof (ref_draw_each_det (Z.to_nat (numel rest)) (h :: h' :: hs)
                    (take (Z.to_nat b) (h :: h' :: hs)) _ _ Hg
                    (subseteq_take _ _)) as H.
      destruct (Ref.draw_each _ _ (rngs w1)) as [[xs1 q1]|],
               (Ref.draw_each _ _ (rngs w2)) as [[xs2 q2]|]; try done.
      destruct H as [-> Ha]. split; [done|].
      exact (proj1 (agree_on_fmap (h :: h' :: hs) q1 q2) Ha).
Qed.

Lemma ref_new_tensor_rel T g (u1 u2 : Ref.W) l1 l2 w1' w2' :
  Ref.new_tensor T u1 = (l1, w1') →
  Ref.new_tensor T u2 = (l2, w2') →
  same_value w1' l1 w2' l2
  ∧ (same_gen g u1 u2 → same_gen g w1' w2')
  ∧ (sched u1 = sched u2 → sched w1' = sched w2')
  ∧ (∀ a b, same_value u1 a u2 b → same_value w1' a w2' b).
Proof.
  intros N1 N2.
  apply ref_new_tensor_spec in N1 as (F1 & H1 & S1 & R1 & D1).
  apply ref_new_tensor_spec in N2 as (F2 & H2 & S2 & R2 & D2).
  split. { split; rewrite H1, ?H2, !lookup_insert_eq; [by eexists|done]. }
  split. { unfold same_gen, gen_states. destruct g; by rewrite ?R1, ?R2, ?D1, ?D2. }
  split; [congruence|].
  intros a b [Sa E]. 
  assert (l1 ≠ a) by (intros ->; rewrite F1 in Sa; by destruct Sa).
  assert (l2 ≠ b).
  { intros Heq. rewrite E, <- Heq, F2 in Sa. by destruct Sa. }
  split; rewrite H1, ?H2, !lookup_insert_ne by done; done.
Qed.

Lemma ref_draw_rel shape g (w1 w2 : Ref.W) xs u1 u2 :
  Ref.draw shape g w1 = Ok (xs, u1) →
  Ref.draw shape g w2 = Ok (xs, u2) →
  (sched w1 = sched w2 → sched u1 = sched u2)
  ∧ (∀ a b, same_value w1 a w2 b → same_value u1 a u2 b).
Proof.
  intros D1 D2.
  apply ref_draw_world in D1 as [H1 S1]. apply ref_draw_world in D2 as [H2 S2].
  split; [congruence|]. intros a b [Sa E]. split; rewrite H1, ?H2; done.
Qed.

Lemma ref_det_ok g : DetContract (Ref.collab net in_place) g.
Proof.
  split; simpl.
  - intros shape dev w1 w2 o1 o2 w1' w2' Hg H1 H2.
    unfold Ref.randn_tensor in *.
    pose proof (ref_draw_det shape g w1 w2 Hg) as D.
    destruct (Ref.draw shape g w1) as [[xs1 u1]|e1],
             (Ref.draw shape g w2) as [[xs2 u2]|e2]; try done.
    + destruct D as [-> Hg'].
      destruct (Ref.new_tensor _ u1) as [l1 v1] eqn:N1.
      destruct (Ref.new_tensor _ u2) as [l2 v2] eqn:N2.
      injection H1 as <- <-. injection H2 as <- <-.
      destruct (ref_new_tensor_rel _ g _ _ _ _ _ _ N1 N2) as (V & G & _).
      split; [by apply G|done].
    + injection H1 as <- <-. injection H2 as <- <-. done.
  - intros n w1 w2 o1 o2 w1' w2' Hg H1 H2. unfold Ref.set_timesteps in *.
    destruct ((n <=? 0) || (Ref.num_train_timesteps <? n)).
    + injection H1 as <- <-. injection H2 as <- <-. done.
    + injection H1 as <- <-. injection H2 as <- <-. split; [done|].
      intros _. split; [|done].
      unfold same_gen, gen_states in *. by destruct g.
  - intros low high size dt w1 w2 o1 o2 w1' w2' [Hg Hs] H1 H2.
    unfold Ref.torch_randint in *.
    assert (Hraise : ∀ e, o1 = Raise e → w1' = w1 → o2 = Raise e → w2' = w2 →
      same_gen_sched g w1' w2' ∧ same_outcome o1 w1' o2 w2').
    { intros e -> -> -> ->. done. }
    destruct g as [|h|hs]; [| |by injection H1 as <- <-; injection H2 as <- <-].
    all: destruct (high <=? low);
      [by injection H1 as <- <-; injection H2 as <- <-|].
    all: match goal with
         | |- context [same_gen_sched ?g _ _] =>
             pose proof (ref_draw_det size g w1 w2 Hg) as D
         end.
    all: destruct (Ref.draw size _ w1) as [[xs1 u1]|e1] eqn:D1,
                  (Ref.draw size _ w2) as [[xs2 u2]|e2] eqn:D2; try done;
      [|by injection H1 as <- <-; injection H2 as <- <-; subst].
    all: destruct D as [-> Hg'].
    all: destruct (Ref.new_tensor _ u1) as [l1 v1] eqn:N1.
    all: destruct (Ref.new_tensor _ u2) as [l2 v2] eqn:N2.
    all: injection H1 as <- <-; injection H2 as <- <-.
    all: match goal with
         | |- context [same_gen_sched ?g _ _] =>
             destruct (ref_new_tensor_rel _ g _ _ _ _ _ _ N1 N2) as (V & G & S & _)
         end.
    all: destruct (ref_draw_rel _ _ _ _ _ _ _ D1 D2) as [S' _].
    all: split; [split; [by apply G|by apply S, S']|done].
  - intros t im1 im2 lb1 lb2 w1 w2 o1 o2 w1' w2' [Hg Hs] [[T HT] Ei] Hlb H1 H2.
    unfold Ref.unet_forward in *. rewrite <- Ei, HT in H2. rewrite HT in H1.
    assert (Hshift :
      match lb1 with
      | Some c => (λ L, F32.of_Z (Ref.sum_labels L)) <$> heap w1 !! c
      | None => Some (S754_zero false)
      end
      = match lb2 with
        | Some c => (λ L, F32.of_Z (Ref.sum_labels L)) <$> heap w2 !! c
        | None => Some (S754_zero false)
        end).
    { destruct lb1, lb2; try done. simpl in Hlb. destruct Hlb as [_ ->]. done. }
    rewrite <- Hshift in H2.
    destruct (match lb1 with Some c => _ | None => _ end) as [d|].
    + destruct (Ref.new_tensor _ w1) as [l1 v1] eqn:N1.
      destruct (Ref.new_tensor _ w2) as [l2 v2] eqn:N2.
      injection H1 as <- <-. injection H2 as <- <-.
      destruct (ref_new_tensor_rel _ g _ _ _ _ _ _ N1 N2) as (V & G & S & P).
      split; [split; [by apply G|by apply S]|]. split; [done|].
      intros _. apply P. split; [by rewrite HT|done].
    + injection H1 as <- <-. injection H2 as <- <-. done.
  - intros t mo1 mo2 im1 im2 w1 w2 o1 o2 w1' w2' [Hg Hs]
      [[E HE] Em] [[X HX] Ei] H1 H2.
    unfold Ref.scheduler_step in *.
    rewrite <- Em, <- Ei, HE, HX in H2. rewrite HE, HX in H1.
    destruct (negb (bool_decide (t_shape E = t_shape X))).
    { injection H1 as <- <-. injection H2 as <- <-. done. }
    assert (Hn :
      match
        (if 0 <? t
         then match Ref.draw (t_shape X) g w1 with
              | Raise e => Raise e
              | Ok (xs, u) =>
                  Ok (zip_with (λ m x, F32.add m (F32.mul (Ref.normal_of x) F32.half))
                        (zip_with F32.sub (as_floats (t_data X)) (as_floats (t_data E))) xs, u)
              end
         else Ok (zip_with F32.sub (as_floats (t_data X)) (as_floats (t_data E)), w1)),
        (if 0 <? t
         then match Ref.draw (t_shape X) g w2 with
              | Raise e => Raise e
              | Ok (xs, u) =>
                  Ok (zip_with (λ m x, F32.add m (F32.mul (Ref.normal_of x) F32.half))
                        (zip_with F32.sub (as_floats (t_data X)) (as_floats (t_data E))) xs, u)
              end
         else Ok (zip_with F32.sub (as_floats (t_data X)) (as_floats (t_data E)), w2))
      with
      | Ok (ys1, u1), Ok (ys2, u2) =>
          ys1 = ys2 ∧ same_gen_sched g u1 u2
          ∧ heap u1 = heap w1 ∧ heap u2 = heap w2
      | Raise e1, Raise e2 => e1 = e2
      | _, _ => False
      end).
    { destruct (0 <? t); [|done].
      pose proof (ref_draw_det (t_shape X) g w1 w2 Hg) as D.
      destruct (Ref.draw (t_shape X) g w1) as [[xs1 u1]|e1] eqn:D1,
               (Ref.draw (t_shape X) g w2) as [[xs2 u2]|e2] eqn:D2; try done.
      destruct D as [-> Hg'].
      destruct (ref_draw_rel _ _ _ _ _ _ _ D1 D2) as [S' _].
      apply ref_draw_world in D1 as [? _]. apply ref_draw_world in D2 as [? _].
      split; [done|]. split; [split; [done|by apply S']|done]. }
    destruct (if 0 <? t then _ else _) as [[ys1 u1]|e1],
             (if 0 <? t then _ else _) as [[ys2 u2]|e2]; try done.
    + destruct Hn as (-> & [Hg' Hs'] & Hh1 & Hh2).
      destruct in_place.
      * injection H1 as <- <-. injection H2 as <- <-.
        split; [done|]. simpl. split; simpl; rewrite !lookup_insert_eq;
          [by eexists|done].
      * destruct (Ref.new_tensor _ u1) as [l1 v1] eqn:N1.
        destruct (Ref.new_tensor _ u2) as [l2 v2] eqn:N2.
        injection H1 as <- <-. injection H2 as <- <-.
        destruct (ref_new_tensor_rel _ g _ _ _ _ _ _ N1 N2) as (V & G & S & _).
        split; [split; [by apply G|by apply S]|done].
    + injection H1 as <- <-. injection H2 as <- <-. subst. done.
Qed.

End RefContracts.

(** ** The properties of the specification *)

Section Claims.

Context {GState Sched Pil : Type}.
Context (C : @Collab GState Sched Pil).
Implicit Types (w : @World GState Sched) (s : @State GState Sched).

(** C2. With a positive [num_inference_steps] and a scheduler whose
    [set_timesteps(n)] yields exactly [n] timesteps, a call to either
    pipeline that returns has run the loop body, one network prediction
    followed by one scheduler step, exactly [num_inference_steps] times.
    The collaborators are taken to respect ownership ([FrameContract]:
    the label sampler leaves the scheduler alone), and labels given by
    the caller to be a tensor of the store. *)
Theorem loop_runs_num_inference_steps_times
    (HF : FrameContract C) (HT : TimestepsContract C)
    self b g cs n ot rd s out s' :
  0 < n →
  from_option (λ l, is_Some (heap (world s) !! l)) True cs →
  DDPMPipeline_Costum_call C self b g n ot rd s = (Ok out, s')
  ∨ DDPMPipeline_Costum_ClsEmb_call C self b g cs n ot rd s = (Ok out, s') →
  loop_bodies (Z.to_nat n) (List.filter is_loop_event (new_events s s')) = true.
Proof.
  intros Hn Hcs [H|H].
  - apply Costum_call_inv in H as (image & ni & s1 & im & D & P & _).
    apply postprocess_grows in P. rewrite (new_events_grows _ _ _ P).
    apply (Costum_denoise_spec _ HF) in D
      as (N & ts & evs & im0 & _ & _ & _ & _ & _ & E & B & L & _).
    rewrite E. simpl. destruct (loop_bodies_filter _ _ B) as [-> _].
    rewrite <- (L HT), Nat2Z.id. done.
  - apply ClsEmb_call_inv in H as (image & ni & c & s1 & im & D & P & _).
    apply postprocess_grows in P. rewrite (new_events_grows _ _ _ P).
    apply (ClsEmb_denoise_spec _ HF) in D
      as (N & Lb & ts & evs & im0 & _ & _ & _ & _ & _ & _ & _ & _ & [res E] & B & L & _);
      [|done].
    rewrite E. destruct (loop_bodies_filter _ _ B) as [Hf _].
    destruct cs; simpl; rewrite Hf; rewrite <- (L HT), Nat2Z.id; done.
Qed.

Lemma no_randint_filter (evs : list Event) :
  Forall (λ e, is_randint_event e = false
               ∧ is_set_timesteps_event e = false) evs →
  List.filter is_randint_event evs = [].
Proof.
  induction 1 as [|e evs' [He _] _ IH]; [done|]. simpl. by rewrite He.
Qed.

(** Clamping a tensor puts every element that is a number in range. *)
Lemma clamp_data_within lo hi d sh dev :
  lo ≤ hi →
  SFleb (F32.of_Z lo) (F32.of_Z hi) = true →
  elem_within lo hi (mkTensor sh dev (clamp_data lo hi d)).
Proof.
  intros Hle Hf. unfold elem_within. destruct d as [xs|xs]; simpl.
  - apply Forall_map, Forall_forall. intros x _. simpl.
    destruct (F32.is_nan x) eqn:E.
    + left. unfold F32.clamp. by rewrite E.
    + right. by apply clamp_within.
  - apply Forall_map, Forall_forall. intros x _. simpl.
    unfold clampZ. lia.
Qed.

(** C3, as amended.  With [output_type="tensor"], in either return form
    and for either pipeline, every element of the returned image tensor is
    a NaN or lies within [[-1, 1]]. *)
Theorem tensor_output_clamped self b g cs n rd s out s' :
  DDPMPipeline_Costum_call C self b g n (Some "tensor"%string) rd s = (Ok out, s')
  ∨ DDPMPipeline_Costum_ClsEmb_call C self b g cs n (Some "tensor"%string) rd s
    = (Ok out, s') →
  ∃ l T, output_images out = TensorImage l
         ∧ heap (world s') !! l = Some T
         ∧ elem_within (-1) 1 T.
Proof.
  intros [H|H].
  - apply Costum_call_inv in H as (image & ni & s1 & im & _ & P & ->).
    apply postprocess_tensor in P as (_ & r & T & -> & _ & _ & HT).
    eexists r, _. split; [by destruct rd|]. split; [exact HT|].
    by apply clamp_data_within.
  - apply ClsEmb_call_inv in H as (image & ni & c & s1 & im & _ & P & ->).
    apply postprocess_tensor in P as (_ & r & T & -> & _ & _ & HT).
    eexists r, _. split; [by destruct rd|]. split; [exact HT|].
    by apply clamp_data_within.
Qed.

(** C5. In either pipeline the snapshot [noise_init] is a new tensor
    object, taken before the loop; when the call returns it holds what it
    held when it was taken, and that is the noise the loop started from:
    the sample handed to the first network call, or the image the loop
    ends with when there is no iteration.  With [return_dict=False] and
    [output_type="tensor"] the snapshot is returned next to the image.
    The collaborators are taken to respect ownership ([FrameContract]):
    they may update in place the sample they are handed, and no other
    tensor. *)
Theorem noise_init_snapshot_unmodified (HF : FrameContract C)
    self b g cs n ot rd s out s' :
  from_option (λ l, is_Some (heap (world s) !! l)) True cs →
  DDPMPipeline_Costum_call C self b g n ot rd s = (Ok out, s')
  ∨ DDPMPipeline_Costum_ClsEmb_call C self b g cs n ot rd s = (Ok out, s') →
  ∃ noise_init N,
    heap (world s) !! noise_init = None
    ∧ heap (world s') !! noise_init = Some N
    ∧ match head (unet_samples (new_events s s')) with
      | Some first => first.2 = Some N
      | None =>
          str_is ot "pil" = false → str_is ot "tensor" = false →
          ∃ l, output_images out = TensorImage l
               ∧ heap (world s') !! l = Some N
      end
    ∧ (rd = false → ot = Some "tensor"%string →
       output_noise out = Some noise_init).
Proof.
  intros Hcs [H|H].
  - apply Costum_call_inv in H as (image & ni & s1 & im & D & P & ->).
    pose proof (postprocess_grows _ _ _ _ _ _ P) as G.
    apply (Costum_denoise_spec _ HF) in D
      as (N & ts & evs & im0 & _ & Fr & V & _ & _ & E & _ & _ & _ & Hd & Z & _).
    exists ni, N. split; [done|].
    split. { rewrite (grows_value _ _ _ G); [done|by rewrite V]. }
    split.
    + rewrite (new_events_grows _ _ _ G), E. simpl.
      rewrite Hd. destruct ts as [|t ts]; [|done].
      intros E1 E2. rewrite postprocess_other in P by done.
      injection P as <- <-. destruct (Z eq_refl) as [_ Hv].
      exists image. split; [by destruct (negb rd), (str_is ot "tensor")|done].
    + intros -> ->. done.
  - apply ClsEmb_call_inv in H as (image & ni & c & s1 & im & D & P & ->).
    pose proof (postprocess_grows _ _ _ _ _ _ P) as G.
    apply (ClsEmb_denoise_spec _ HF) in D
      as (N & Lb & ts & evs & im0 & _ & Fr & V & _ & _ & _ & _ & _ & [res E] & _ & _
          & _ & Hd & Z & _); [|done].
    exists ni, N. split; [done|].
    split. { rewrite (grows_value _ _ _ G); [done|by rewrite V]. }
    split.
    + rewrite (new_events_grows _ _ _ G), E.
      assert (head (unet_samples
                ([EvRandn (sampled_shape self b) g
                    (if on_mps self then None
                     else Some (device self));
                  EvSetTimesteps n]
                 ++ match cs with
                    | Some _ => []
                    | None => [EvRandint 0 10 [b] g int64 res]
                    end ++ evs)) = head (unet_samples evs)) as ->
        by (by destruct cs).
      rewrite Hd. destruct ts as [|t ts]; [|done].
      intros E1 E2. rewrite postprocess_other in P by done.
      injection P as <- <-. destruct (Z eq_refl) as [_ Hv].
      exists image. split; [by destruct (negb rd), (str_is ot "tensor")|done].
    + intros -> ->. done.
Qed.

(** C6. With an [output_type] that is neither ["pil"] nor ["tensor"] the
    post-processing stage raises nothing, changes nothing and returns the
    image it is given; a call to either pipeline is then its denoising
    phase, and returns the image of the last scheduler step as it is. *)
Theorem unknown_output_type_passthrough self b g cs n ot rd s :
  ot ≠ Some "pil"%string → ot ≠ Some "tensor"%string →
  (∀ image, postprocess C ot image s = (Ok (TensorImage image), s))
  ∧ DDPMPipeline_Costum_call C self b g n ot rd s
    = match DDPMPipeline_Costum_denoise C self b g n s with
      | (Ok (image, _), s1) =>
          (Ok (if rd then ImagePipelineOutput (TensorImage image)
               else Tuple1 (TensorImage image)), s1)
      | (Raise e, s1) => (Raise e, s1)
      end
  ∧ DDPMPipeline_Costum_ClsEmb_call C self b g cs n ot rd s
    = match DDPMPipeline_Costum_ClsEmb_denoise C self b g cs n s with
      | (Ok (image, _, _), s1) =>
          (Ok (if rd then ImagePipelineOutput (TensorImage image)
               else Tuple1 (TensorImage image)), s1)
      | (Raise e, s1) => (Raise e, s1)
      end.
Proof.
  intros Hp Ht.
  assert (E1 : str_is ot "pil" = false).
  { destruct ot as [x|]; [|done]. simpl. apply String.eqb_neq. congruence. }
  assert (E2 : str_is ot "tensor" = false).
  { destruct ot as [x|]; [|done]. simpl. apply String.eqb_neq. congruence. }
  split; [intros; by apply postprocess_other|]. split.
  - unfold DDPMPipeline_Costum_call, DDPMPipeline_Costum_finish, bind.
    destruct (DDPMPipeline_Costum_denoise C self b g n s) as [[[im ni]|e] s1];
      [|done].
    simpl. rewrite postprocess_other by done. rewrite E2. by destruct rd.
  - unfold DDPMPipeline_Costum_ClsEmb_call, DDPMPipeline_Costum_ClsEmb_finish, bind.
    destruct (DDPMPipeline_Costum_ClsEmb_denoise C self b g cs n s)
      as [[[[im ni] c]|e] s1]; [|done].
    simpl. rewrite postprocess_other by done. rewrite E2. by destruct rd.
Qed.


Lemma initial_noise_events self b g s image s1 :
  initial_noise C self b g s = (Ok image, s1) →
  events s1 = events s ++
    [EvRandn (sampled_shape self b) g
       (if on_mps self then None else Some (device self))].
Proof.
  intros H. apply initial_noise_inv in H as [_ H]. revert H.
  unfold sample_noise. destruct (on_mps self).
  - intros H. bind_ok H. apply call_randn_inv in H0 as [_ E0].
    apply tensor_to_spec in H as [[(_ & _ & _ & _ & E) _] _]. congruence.
  - intros H. by apply call_randn_inv in H as [_ E0].
Qed.

Lemma class_embedding_events self b g cs s c s1 :
  class_embedding C self b g cs s = (Ok c, s1) →
  ∃ res, events s1 = events s ++
    match cs with
    | Some _ => []
    | None => [EvRandint 0 10 [b] g int64 res]
    end.
Proof.
  unfold class_embedding. destruct cs as [l|].
  - intros H. exists None. apply ret_inv in H as [_ ->]. by rewrite app_nil_r.
  - intros H. bind_ok H. apply call_randint_inv in H0 as [_ E0].
    apply tensor_to_spec in H as [[(_ & _ & _ & _ & E) _] _].
    eexists. by rewrite E, E0.
Qed.

(** The log of a call that returns: the noise sampler, the scheduler
    configuration, the label sampler if the caller gave no labels, and
    the loop bodies; after the loop nothing is logged. *)
Lemma Costum_call_events self b g n ot rd s out s' :
  DDPMPipeline_Costum_call C self b g n ot rd s = (Ok out, s') →
  ∃ k evs,
    new_events s s' =
      [EvRandn (sampled_shape self b) g
         (if on_mps self then None else Some (device self));
       EvSetTimesteps n] ++ evs
    ∧ loop_bodies k evs = true.
Proof.
  intros H. apply Costum_call_inv in H as (image & ni & s1 & im & D & P & _).
  apply postprocess_grows in P. rewrite (new_events_grows _ _ _ P).
  unfold DDPMPipeline_Costum_denoise in D.
  bind_ok D. bind_ok D. bind_ok D. bind_ok D. bind_ok D.
  apply ret_inv in D as [_ ->].
  apply initial_noise_events in H.
  apply tensor_clone_spec in H0 as [[(_ & _ & _ & _ & E0) _] _].
  apply call_set_timesteps_inv in H1 as [_ E1].
  apply get_timesteps_inv in H2 as [_ ->].
  apply denoise_loop_events in H3 as (evs & E3 & B).
  exists (length (progress_bar a2)), evs. split; [|done].
  apply new_events_app. rewrite E3, E1, E0, H. by rewrite <- !app_assoc.
Qed.

Lemma ClsEmb_call_events self b g cs n ot rd s out s' :
  DDPMPipeline_Costum_ClsEmb_call C self b g cs n ot rd s = (Ok out, s') →
  ∃ k evs res,
    new_events s s' =
      [EvRandn (sampled_shape self b) g
         (if on_mps self then None else Some (device self));
       EvSetTimesteps n]
      ++ match cs with
         | Some _ => []
         | None => [EvRandint 0 10 [b] g int64 res]
         end
      ++ evs
    ∧ loop_bodies k evs = true.
Proof.
  intros H. apply ClsEmb_call_inv in H as (image & ni & c & s1 & im & D & P & _).
  apply postprocess_grows in P. rewrite (new_events_grows _ _ _ P).
  unfold DDPMPipeline_Costum_ClsEmb_denoise in D.
  bind_ok D. bind_ok D. bind_ok D. bind_ok D. bind_ok D. bind_ok D.
  apply ret_inv in D as [_ ->].
  apply initial_noise_events in H.
  apply tensor_clone_spec in H0 as [[(_ & _ & _ & _ & E0) _] _].
  apply call_set_timesteps_inv in H1 as [_ E1].
  apply class_embedding_events in H2 as [res H2].
  apply get_timesteps_inv in H3 as [_ ->].
  apply denoise_loop_events in H4 as (evs & E3 & B).
  exists (length (progress_bar a3)), evs, res. split; [|done].
  apply new_events_app. rewrite E3, H2, E1, E0, H. by rewrite <- !app_assoc.
Qed.

Lemma loop_bodies_configured k : ∀ evs,
  loop_bodies k evs = true → configured_steps evs = [].
Proof.
  induction k as [|k IH]; intros evs H.
  - by destruct evs.
  - destruct evs as [|[] [|[] evs]]; try discriminate. simpl in H.
    apply andb_prop in H as [_ H]. simpl. by apply IH.
Qed.

(** C9. A call to either pipeline that leaves [num_inference_steps] out
    is the call with [num_inference_steps=1000]; when it returns, the
    scheduler has been configured once, for 1000 steps. *)
Theorem default_num_inference_steps self kw :
  kw_num_inference_steps kw = None →
  (∀ s, DDPMPipeline_Costum__call__ C self kw s
        = DDPMPipeline_Costum__call__ C self (with_steps (Some 1000) kw) s)
  ∧ (∀ s, DDPMPipeline_Costum_ClsEmb__call__ C self kw s
          = DDPMPipeline_Costum_ClsEmb__call__ C self (with_steps (Some 1000) kw) s)
  ∧ (∀ s out s',
       DDPMPipeline_Costum__call__ C self kw s = (Ok out, s')
       ∨ DDPMPipeline_Costum_ClsEmb__call__ C self kw s = (Ok out, s') →
       configured_steps (new_events s s') = [1000]).
Proof.
  intros Hkw. split; [|split].
  - intros s. unfold DDPMPipeline_Costum__call__, with_steps. simpl.
    by rewrite Hkw.
  - intros s. unfold DDPMPipeline_Costum_ClsEmb__call__, with_steps. simpl.
    by rewrite Hkw.
  - intros s out s' [H|H].
    + unfold DDPMPipeline_Costum__call__ in H. rewrite Hkw in H.
      destruct (kw_class_sample kw); [discriminate|]. simpl in H.
      apply Costum_call_events in H as (k & evs & -> & B).
      simpl. by rewrite (loop_bodies_configured _ _ B).
    + unfold DDPMPipeline_Costum_ClsEmb__call__ in H. rewrite Hkw in H.
      simpl in H.
      apply ClsEmb_call_events in H as (k & evs & res & -> & B).
      simpl. destruct (default None (kw_class_sample kw)); simpl;
        by rewrite (loop_bodies_configured _ _ B).
Qed.

Lemma unet_labels_app (xs ys : list Event) :
  unet_labels (xs ++ ys) = unet_labels xs ++ unet_labels ys.
Proof. unfold unet_labels. apply omap_app. Qed.

(** The labels the pipeline samples are what [torch.randint] returned,
    on the device of the pipeline. *)
Lemma class_embedding_sampled self b g s c s' :
  class_embedding C self b g None s = (Ok c, s') →
  ∃ r R,
    events s' = events s ++ [EvRandint 0 10 [b] g int64 (Some (r, Some R))]
    ∧ heap (world s') !! c = Some (on_device (device self) R)
    ∧ (if String.eqb (t_device R) (device self) then c = r else c ≠ r)
    ∧ (RandintContract C →
       t_shape R = [b] ∧ Z.of_nat (t_len R) = b ∧ t_dtype R = int64
       ∧ ints_in_range 0 10 R).
Proof.
  unfold class_embedding. intros H. bind_ok H. rename a into r, s0 into s1.
  apply call_randint_inv in H0 as [H0 E0].
  pose proof (tensor_to_spec _ _ _ _ _ H) as [[Hg (R & HR & HR')] _].
  exists r, R. simpl in E0. rewrite HR in E0.
  split. { destruct Hg as (_ & _ & _ & _ & ->). exact E0. }
  split; [exact HR'|].
  split; [by eapply tensor_to_same_or_new|].
  intros HC. apply HC in H0 as (T & HT & Hsh & Hln & Hdt & Hrg).
  rewrite HR in HT. injection HT as <-.
  split; [done|]. split; [|split; [done|by apply Hrg]].
  unfold numel in Hln. simpl in Hln. lia.
Qed.

(** Every network call of the loop is handed the labels the loop is
    given, and the first is handed them as they are when the loop
    starts. *)
Lemma denoise_loop_labels labels g ts : ∀ image s r s',
  denoise_loop C labels g ts image s = (Ok r, s') →
  ∃ evs, events s' = events s ++ evs
    ∧ Forall (λ x, x.1 = labels) (unet_labels evs)
    ∧ (∀ x, head (unet_labels evs) = Some x →
            x.2 = labels ≫= λ c, heap (world s) !! c).
Proof.
  induction ts as [|t ts IH]; intros image s r s' H; simpl in H.
  - apply ret_inv in H as [_ ->]. exists []. rewrite app_nil_r.
    split; [done|]. split; [constructor|]. by intros x [=].
  - bind_ok H. bind_ok H.
    apply call_unet_inv in H0 as [_ E1].
    apply call_step_inv in H1 as [_ E2].
    apply IH in H as (evs & E3 & F & _).
    eexists (_ :: _ :: evs). split.
    { rewrite E3, E2, E1. by rewrite <- !app_assoc. }
    split. { simpl. by constructor. }
    simpl. by intros x [= <-].
Qed.

(** The class-conditional pipeline without labels from the caller, from
    the call to the end of its loop.  Without any assumption: the labels
    are sampled by one call to [torch.randint], made after the scheduler
    is configured and before the loop; the tensor handed to the network
    is what that call returned, moved to the device of the pipeline; every
    network call is handed that tensor object, and the first one finds in
    it what was sampled.  When the collaborators respect ownership, every
    network call finds in it what was sampled, and so does the caller. *)
Lemma ClsEmb_denoise_sampled self b g n s image noise_init c s' :
  DDPMPipeline_Costum_ClsEmb_denoise C self b g None n s
    = (Ok (image, noise_init, c), s') →
  ∃ r R (ts : list Z) loop_evs,
    new_events s s' =
      [EvRandn (sampled_shape self b) g
         (if on_mps self then None else Some (device self));
       EvSetTimesteps n]
      ++ [EvRandint 0 10 [b] g int64 (Some (r, Some R))] ++ loop_evs
    ∧ loop_bodies (length ts) loop_evs = true
    ∧ (if String.eqb (t_device R) (device self) then c = r else c ≠ r)
    ∧ Forall (λ x, x.1 = Some c) (unet_labels loop_evs)
    ∧ (∀ x, head (unet_labels loop_evs) = Some x →
            x.2 = Some (on_device (device self) R))
    ∧ (RandintContract C →
       t_shape R = [b] ∧ Z.of_nat (t_len R) = b ∧ t_dtype R = int64
       ∧ ints_in_range 0 10 R)
    ∧ (FrameContract C →
       unet_labels loop_evs
       = replicate (length ts) (Some c, Some (on_device (device self) R))
       ∧ heap (world s') !! c = Some (on_device (device self) R)
       ∧ heap (world s) !! c = None).
Proof.
  unfold DDPMPipeline_Costum_ClsEmb_denoise. intros H.
  bind_ok H. rename a into image0, s0 into s1.
  bind_ok H. rename a into ni, s0 into s2.
  bind_ok H. rename s0 into s3. destruct a.
  bind_ok H. rename a into c', s0 into s4.
  bind_ok H. rename a into ts.
  bind_ok H. rename a into im.
  apply ret_inv in H as [[= <- <- <-] ->].
  apply get_timesteps_inv in H4 as [[= ->] ->].
  pose proof (initial_noise_events _ _ _ _ _ _ H0) as E1.
  pose proof (tensor_clone_spec _ _ _ _ H1) as [[G2 (N & V1 & V2)] F2].
  pose proof G2 as (K2 & _ & _ & S2 & E2).
  pose proof (call_set_timesteps_inv _ _ _ _ _ H2) as [ST E3].
  pose proof (class_embedding_sampled _ _ _ _ _ _ H3)
    as (r & R & E4 & Vc & Hcr & HRg).
  pose proof (denoise_loop_events _ _ _ _ _ _ _ _ H5) as (evs & E5 & Hb).
  pose proof (denoise_loop_labels _ _ _ _ _ _ _ H5) as (evs' & E5' & Fl & Hhd).
  assert (evs' = evs) as ->
    by (apply (app_inv_head (events s4)); rewrite <- E5, <- E5'; done).
  exists r, R, (timesteps C (sched (world s4))), evs.
  split.
  { apply new_events_app. rewrite E5, E4, E3, E2, E1.
    by rewrite <- !app_assoc. }
  split; [done|]. split; [done|]. split; [done|].
  split. { intros x Hx. rewrite (Hhd x Hx). simpl. exact Vc. }
  split; [done|].
  intros HF.
  apply (initial_noise_spec _ HF) in H0 as (K1 & F0 & A1 & _).
  pose proof (set_timesteps_frame _ HF _ _ _ _ ST) as K3.
  apply (class_embedding_spec _ HF) in H3 as (K4 & _ & Fc & _).
  assert (K13 : keeps (world s1) (world s3) []) by eauto using keeps_trans.
  assert (K03 : keeps (world s) (world s3) []) by eauto using keeps_trans.
  assert (Hne : c ≠ image0).
  { apply not_eq_sym. eapply is_Some_ne; [|exact Fc].
    eauto using keeps_is_Some. }
  apply (denoise_loop_frame _ HF) in H5 as (P5 & _ & evs'' & E5'' & Hlab & _).
  2:{ eauto using keeps_is_Some, keeps_trans. }
  assert (evs'' = evs) as ->
    by (apply (app_inv_head (events s4)); rewrite <- E5, <- E5''; done).
  split. { rewrite Hlab; simpl; [by rewrite Vc|]. by rewrite Vc. }
  split. { destruct (P5 c) as [-> _]; [by rewrite Vc|done|done]. }
  eapply keeps_None; [exact K03|done].
Qed.

Lemma ClsEmb_denoise_labels_arg self b g cs n s image noise_init c s' :
  DDPMPipeline_Costum_ClsEmb_denoise C self b g cs n s
    = (Ok (image, noise_init, c), s') →
  from_option (λ l, c = l) True cs
  ∧ Forall (λ x, x.1 = Some c) (unet_labels (new_events s s')).
Proof.
  unfold DDPMPipeline_Costum_ClsEmb_denoise. intros H.
  bind_ok H. rename a into image0, s0 into s1.
  bind_ok H. rename a into ni, s0 into s2.
  bind_ok H. rename s0 into s3. destruct a.
  bind_ok H. rename a into c', s0 into s4.
  bind_ok H. rename a into ts.
  bind_ok H. rename a into im.
  apply ret_inv in H as [[= <- <- <-] ->].
  apply get_timesteps_inv in H4 as [[= ->] ->].
  apply initial_noise_events in H0 as E1.
  apply tensor_clone_spec in H1 as [[(_ & _ & _ & _ & E2) _] _].
  apply call_set_timesteps_inv in H2 as [_ E3].
  pose proof (class_embedding_events _ _ _ _ _ _ _ H3) as [res E4].
  apply denoise_loop_labels in H5 as (evs & E5 & Fl & _).
  split.
  { destruct cs as [l|]; [|done]. simpl.
    unfold class_embedding in H3. by apply ret_inv in H3 as [[= <-] _]. }
  erewrite new_events_app.
  2:{ rewrite E5, E4, E3, E2, E1. by rewrite <- !app_assoc. }
  by destruct cs.
Qed.

(** C1, as amended.  With [return_dict=False] and labels given by the
    caller, the tuple the class-conditional pipeline returns with
    [output_type="tensor"] is [(image, noise_init, class_sample)] with the
    caller's label tensor object itself as its last component, and with
    any other [output_type] it holds the image alone.  No labels are
    sampled, and every network call is handed the caller's tensor object.
    When the collaborators respect ownership ([FrameContract]: the
    network and the scheduler write to no tensor but the sample they are
    handed), the contents of the label tensor are at every network call
    and at the return what they were at the call. *)
Theorem labels_returned_in_tensor_tuple self b g c n ot s out s' :
  is_Some (heap (world s) !! c) →
  DDPMPipeline_Costum_ClsEmb_call C self b g (Some c) n ot false s
    = (Ok out, s') →
  (if str_is ot "tensor" then ∃ im noise_init, out = Tuple3 im noise_init c
   else ∃ im, out = Tuple1 im)
  ∧ List.filter is_randint_event (new_events s s') = []
  ∧ Forall (λ x, x.1 = Some c) (unet_labels (new_events s s'))
  ∧ (FrameContract C →
     heap (world s') !! c = heap (world s) !! c
     ∧ Forall (λ x, x.2 = heap (world s) !! c)
         (unet_labels (new_events s s'))).
Proof.
  intros Hc H.
  apply ClsEmb_call_inv in H as (image & ni & c' & s1 & im & D & P & ->).
  apply postprocess_grows in P. rewrite (new_events_grows _ _ _ P).
  pose proof (ClsEmb_denoise_labels_arg _ _ _ _ _ _ _ _ _ _ D) as [Ec Fl].
  simpl in Ec. subst c'.
  split. { simpl. destruct (str_is ot "tensor"); eauto. }
  split.
  { pose proof D as D'. unfold DDPMPipeline_Costum_ClsEmb_denoise in D'.
    bind_ok D'. bind_ok D'. bind_ok D'. bind_ok D'. bind_ok D'. bind_ok D'.
    apply ret_inv in D' as [_ ->].
    apply initial_noise_events in H.
    apply tensor_clone_spec in H0 as [[(_ & _ & _ & _ & E0) _] _].
    apply call_set_timesteps_inv in H1 as [_ E1].
    apply class_embedding_events in H2 as [res H2].
    apply get_timesteps_inv in H3 as [_ ->].
    apply denoise_loop_events in H4 as (evs & E3 & B).
    erewrite new_events_app.
    2:{ rewrite E3, H2, E1, E0, H. by rewrite <- !app_assoc. }
    simpl. destruct (loop_bodies_filter _ _ B) as [_ F].
    by apply no_randint_filter. }
  split; [done|].
  intros HF.
  apply (ClsEmb_denoise_spec _ HF) in D
    as (N & Lb & ts & evs & im0 & Pre & _ & _ & _ & _ & _ & _ & Vc & [res E]
        & _ & _ & Hl & _); [|done].
  split.
  { rewrite (grows_value _ _ _ P); [by apply Pre|]. by rewrite (Pre _ Hc). }
  rewrite E. simpl. rewrite Hl. apply Forall_forall. intros x Hx.
  apply elem_of_replicate in Hx as [-> _]. simpl.
  by rewrite <- Vc, (Pre _ Hc).
Qed.

(** C7, as amended.  When the caller gives no labels, the
    class-conditional pipeline samples them once, with
    [torch.randint(0, 10, (batch_size,), generator, dtype=int64)], after
    the scheduler is configured and before any call to the network.  The
    labels of the loop are the tensor [r] that call returned, moved to the
    device of the pipeline: [r] itself when it is on that device, a new
    tensor otherwise.  Every network call is handed that one tensor object
    [c], and the first finds in it what was sampled; nothing is sampled
    again.  When the collaborators respect ownership ([FrameContract]),
    [c] is a new object and holds what was sampled at every network call
    and when the call returns. *)
Theorem labels_sampled_once_and_held_fixed self b g n ot rd s out s' :
  DDPMPipeline_Costum_ClsEmb_call C self b g None n ot rd s = (Ok out, s') →
  ∃ r R c pre loop_evs k,
    new_events s s'
    = pre ++ [EvRandint 0 10 [b] g int64 (Some (r, Some R))] ++ loop_evs
    ∧ List.filter is_randint_event pre = []
    ∧ List.filter is_unet_event pre = []
    ∧ List.filter is_randint_event loop_evs = []
    ∧ loop_bodies k loop_evs = true
    ∧ (if String.eqb (t_device R) (device self) then c = r else c ≠ r)
    ∧ Forall (λ x, x.1 = Some c) (unet_labels loop_evs)
    ∧ (∀ x, head (unet_labels loop_evs) = Some x →
            x.2 = Some (on_device (device self) R))
    ∧ (rd = false → ot = Some "tensor"%string → output_labels out = Some c)
    ∧ (FrameContract C →
       unet_labels loop_evs
       = replicate k (Some c, Some (on_device (device self) R))
       ∧ heap (world s') !! c = Some (on_device (device self) R)
       ∧ heap (world s) !! c = None).
Proof.
  intros H.
  apply ClsEmb_call_inv in H as (image & ni & c & s1 & im & D & P & ->).
  apply postprocess_grows in P. rewrite (new_events_grows _ _ _ P).
  apply ClsEmb_denoise_sampled in D
    as (r & R & ts & evs & E & B & Hcr & Fl & Hhd & _ & HFr).
  eexists r, R, c, _, evs, (length ts).
  split; [exact E|]. split; [done|]. split; [done|].
  split. { destruct (loop_bodies_filter _ _ B) as [_ F]. by apply no_randint_filter. }
  split; [done|]. split; [done|]. split; [done|]. split; [done|].
  split; [by intros -> ->|].
  intros HF. destruct (HFr HF) as (Hl & Vc & Fc).
  split; [done|]. split; [|done].
  rewrite (grows_value _ _ _ P); [done|by rewrite Vc].
Qed.

(** C10. When the caller gives no labels, the labels come from the one
    call [torch.randint(0, 10, (batch_size,), generator, dtype=int64)],
    whatever the arguments of the pipeline.  With [torch.randint]
    returning what it documents ([RandintContract]: the shape and the
    element type it is asked for, integers in [[low, high)]), the label
    tensor, which is what that call returned moved to the device of the
    pipeline, has shape [(batch_size,)], [batch_size] elements, element
    type [int64] and every element in [[0, 10)]; every network call is
    handed that tensor object, and the first finds these contents in it.
    When the collaborators respect ownership ([FrameContract]), so does
    every network call, and so does the caller when the pipeline
    returns. *)
Theorem sampled_labels_shape_dtype_range (HR : RandintContract C)
    self b g n ot rd s out s' :
  DDPMPipeline_Costum_ClsEmb_call C self b g None n ot rd s = (Ok out, s') →
  ∃ r R c L,
    List.filter is_randint_event (new_events s s')
    = [EvRandint 0 10 [b] g int64 (Some (r, Some R))]
    ∧ L = on_device (device self) R
    ∧ (if String.eqb (t_device R) (device self) then c = r else c ≠ r)
    ∧ t_shape L = [b] ∧ Z.of_nat (t_len L) = b ∧ t_dtype L = int64
    ∧ ints_in_range 0 10 L
    ∧ Forall (λ x, x.1 = Some c) (unet_labels (new_events s s'))
    ∧ (∀ x, head (unet_labels (new_events s s')) = Some x → x.2 = Some L)
    ∧ (rd = false → ot = Some "tensor"%string → output_labels out = Some c)
    ∧ (FrameContract C →
       Forall (λ x, x = (Some c, Some L)) (unet_labels (new_events s s'))
       ∧ heap (world s') !! c = Some L).
Proof.
  intros H.
  apply ClsEmb_call_inv in H as (image & ni & c & s1 & im & D & P & ->).
  apply postprocess_grows in P. rewrite (new_events_grows _ _ _ P).
  apply ClsEmb_denoise_sampled in D
    as (r & R & ts & evs & E & B & Hcr & Fl & Hhd & HRg & HFr).
  destruct (HRg HR) as (Sh & Ln & Dt & Rg).
  exists r, R, c, (on_device (device self) R). rewrite E.
  split.
  { simpl. destruct (loop_bodies_filter _ _ B) as [_ F].
    by rewrite (no_randint_filter _ F). }
  split; [done|]. split; [done|].
  split; [done|]. split; [done|]. split; [done|]. split; [done|].
  split; [done|]. split; [done|].
  split; [by intros -> ->|].
  intros HF. destruct (HFr HF) as (Hl & Vc & _).
  split.
  - change (unet_labels _) with (unet_labels evs).
    rewrite Hl. apply Forall_forall. intros x Hx.
    by apply elem_of_replicate in Hx as [-> _].
  - rewrite (grows_value _ _ _ P); [done|by rewrite Vc].
Qed.


(** C8. When the noise sampler returns the shape it is asked for and the
    network and the scheduler step preserve the shape of the sample they
    are given, the first dimension of the image output of either
    pipeline is the batch size: of the tensor in tensor form, and the
    number of images in PIL form.  The shape assumptions are
    [ShapeContract]; the collaborators are taken to respect ownership
    ([FrameContract]). *)
Theorem output_batch_dimension
    (HF : FrameContract C) (HS : ShapeContract C)
    self b g cs n ot rd s out s' :
  from_option (λ l, is_Some (heap (world s) !! l)) True cs →
  DDPMPipeline_Costum_call C self b g n ot rd s = (Ok out, s')
  ∨ DDPMPipeline_Costum_ClsEmb_call C self b g cs n ot rd s = (Ok out, s') →
  images_batch (world s') (output_images out) = Some b.
Proof.
  intros Hcs H.
  assert (Esh : image_shape self b = Ok (sampled_shape self b)).
  { destruct H as [H|H];
      [by apply Costum_call_shape in H|by apply ClsEmb_call_shape in H]. }
  assert (∃ image s1 im,
            shape_at (world s1) image = Some (sampled_shape self b)
            ∧ postprocess C ot image s1 = (Ok im, s')
            ∧ output_images out = im) as (image & s1 & im & Sh & P & ->).
  { destruct H as [H|H].
    - apply Costum_call_inv in H as (image & ni & s1 & im & D & P & ->).
      apply (Costum_denoise_spec _ HF) in D
        as (N & ts & evs & im0 & _ & _ & _ & _ & _ & _ & _ & _ & _ & _ & _ & Sh).
      exists image, s1, im. split; [by apply Sh|]. split; [done|].
      by destruct (negb rd), (str_is ot "tensor").
    - apply ClsEmb_call_inv in H as (image & ni & c & s1 & im & D & P & ->).
      apply (ClsEmb_denoise_spec _ HF) in D
        as (N & L & ts & evs & im0 & _ & _ & _ & _ & _ & _ & _ & _ & _ & _ & _
            & _ & _ & _ & _ & Sh); [|done].
      exists image, s1, im. split; [by apply Sh|]. split; [done|].
      by destruct (negb rd), (str_is ot "tensor"). }
  unfold shape_at in Sh.
  destruct (heap (world s1) !! image) as [T|] eqn:HT; [|done].
  injection Sh as Sh.
  assert (HB : batch_dim T = Some b)
    by (unfold batch_dim; rewrite Sh; by apply image_shape_head in Esh).
  destruct (str_is ot "pil") eqn:E1.
  - apply postprocess_pil in P as (_ & ps & arr & T' & -> & Hp & HT' & Hb);
      [|done].
    rewrite HT in HT'. injection HT' as <-. simpl.
    rewrite (numpy_to_pil_length _ HS _ _ Hp). congruence.
  - destruct (str_is ot "tensor") eqn:E2.
    + assert (ot = Some "tensor"%string) as ->.
      { destruct ot as [x|]; [|done]. simpl in E2.
        apply String.eqb_eq in E2. by subst. }
      apply postprocess_tensor in P as (_ & r & T' & -> & HT' & _ & Hr).
      rewrite HT in HT'. injection HT' as <-. simpl. rewrite Hr. simpl.
      done.
    + rewrite postprocess_other in P by done. injection P as <- <-.
      simpl. rewrite HT. done.
Qed.

(** C4. Two calls to the same pipeline with the same arguments, in two
    worlds that agree on the state of the generator the calls are given
    (the default generator when none is given), produce the same output
    when the samplers, the network and the scheduler are functions of
    their inputs and of that generator: if one call returns, so does the
    other, in the same form, with the same images, the same initial noise
    and the same class labels.  The two worlds may differ in everything
    else: the tensors they hold, the other generators, the state the
    scheduler was left in.  Determinism of the collaborators is
    [DetContract], ownership is [FrameContract]. *)
Theorem same_seed_same_output
    (HF : FrameContract C) g (HD : DetContract C g)
    self b cs1 cs2 n ot rd s1 s2 :
  same_gen g (world s1) (world s2) →
  same_value_opt (world s1) cs1 (world s2) cs2 →
  (∀ out1 s1',
     DDPMPipeline_Costum_call C self b g n ot rd s1 = (Ok out1, s1') →
     ∃ out2 s2',
       DDPMPipeline_Costum_call C self b g n ot rd s2 = (Ok out2, s2')
       ∧ is_Some (output_value (world s1') out1)
       ∧ output_value (world s1') out1 = output_value (world s2') out2)
  ∧ (∀ out1 s1',
       DDPMPipeline_Costum_ClsEmb_call C self b g cs1 n ot rd s1 = (Ok out1, s1') →
       ∃ out2 s2',
         DDPMPipeline_Costum_ClsEmb_call C self b g cs2 n ot rd s2 = (Ok out2, s2')
         ∧ is_Some (output_value (world s1') out1)
         ∧ output_value (world s1') out1 = output_value (world s2') out2).
Proof.
  intros Hg Hcs. split; intros out1 s1' H.
  - apply Costum_call_inv in H as (im1 & ni1 & s1e & img1 & D1 & P1 & ->).
    destruct (Costum_denoise_det _ HF _ HD _ _ _ _ _ _ _ _ Hg D1)
      as (im2 & ni2 & s2e & D2 & Vi & Vn).
    destruct (postprocess_det _ _ _ _ _ _ _ _ Vi P1)
      as (img2 & s2' & P2 & G1 & G2 & [x Hx] & Ei).
    pose proof (same_value_grows _ _ _ _ _ _ G1 G2 Vn) as [[y Hy] En].
    exists (if negb rd
            then if str_is ot "tensor" then Tuple2 img2 ni2 else Tuple1 img2
            else ImagePipelineOutput img2), s2'.
    split.
    + unfold DDPMPipeline_Costum_call. erewrite bind_fwd; [|exact D2].
      unfold DDPMPipeline_Costum_finish. simpl.
      erewrite bind_fwd; [|exact P2].
      by destruct (negb rd), (str_is ot "tensor").
    + destruct (negb rd), (str_is ot "tensor"); simpl;
        rewrite <- ?Ei, <- ?En, ?Hx, ?Hy; simpl; split; (by eexists) || done.
  - apply ClsEmb_call_inv in H as (im1 & ni1 & c1 & s1e & img1 & D1 & P1 & ->).
    destruct (ClsEmb_denoise_det _ HF _ HD _ _ _ _ _ _ _ _ _ _ _ Hg Hcs D1)
      as (im2 & ni2 & c2 & s2e & D2 & Vi & Vn & Vc).
    destruct (postprocess_det _ _ _ _ _ _ _ _ Vi P1)
      as (img2 & s2' & P2 & G1 & G2 & [x Hx] & Ei).
    pose proof (same_value_grows _ _ _ _ _ _ G1 G2 Vn) as [[y Hy] En].
    pose proof (same_value_grows _ _ _ _ _ _ G1 G2 Vc) as [[z Hz] Ec].
    exists (if negb rd
            then if str_is ot "tensor" then Tuple3 img2 ni2 c2 else Tuple1 img2
            else ImagePipelineOutput img2), s2'.
    split.
    + unfold DDPMPipeline_Costum_ClsEmb_call. erewrite bind_fwd; [|exact D2].
      unfold DDPMPipeline_Costum_ClsEmb_finish. simpl.
      erewrite bind_fwd; [|exact P2].
      by destruct (negb rd), (str_is ot "tensor").
    + destruct (negb rd), (str_is ot "tensor"); simpl;
        rewrite <- ?Ei, <- ?En, <- ?Ec, ?Hx, ?Hy, ?Hz; simpl;
        split; (by eexists) || done.
Qed.

End Claims.

(** ** The properties on the reference collaborators *)

(** Every run below returns. *)
Ltac run_returns := vm_compute; reflexivity.

(** C2 on a run of each pipeline. *)
Lemma loop_runs_num_inference_steps_times_witness :
  loop_bodies (Z.to_nat 3)
    (List.filter is_loop_event
       (new_events (Ref.state0 42) Ref.plain_tensor.2)) = true
  ∧ loop_bodies (Z.to_nat 2)
      (List.filter is_loop_event
         (new_events (Ref.state1 42) Ref.cls_given_tensor.2)) = true.
Proof.
  split.
  - refine (loop_runs_num_inference_steps_times
              (Ref.collab Ref.net_half false)
              (ref_frame_ok _ _) (ref_timesteps_ok _ _)
              Ref.pipe 2 (GenOne 0) None 3 (Some "tensor"%string) false
              (Ref.state0 42) (Ref.returned Ref.plain_tensor)
              Ref.plain_tensor.2 _ _ _).
    + lia.
    + exact I.
    + left. run_returns.
  - refine (loop_runs_num_inference_steps_times
              (Ref.collab Ref.net_half true)
              (ref_frame_ok _ _) (ref_timesteps_ok _ _)
              Ref.pipe 2 (GenOne 0) (Some 0%nat) 2 (Some "tensor"%string) false
              (Ref.state1 42) (Ref.returned Ref.cls_given_tensor)
              Ref.cls_given_tensor.2 _ _ _).
    + lia.
    + vm_compute. eexists. reflexivity.
    + right. run_returns.
Defined.

(** C1 as it is stated fails: with [return_dict=False] and
    [output_type="pil"] the tuple holds the images only. *)
Lemma labels_absent_from_pil_tuple :
  ¬ labels_returned_for_every_output_type (Ref.collab Ref.net_half false).
Proof.
  intros H.
  destruct (H Ref.pipe 2 (GenOne 0) 0%nat 2 (Some "pil"%string) (Ref.state1 42)
              (Ref.returned Ref.cls_given_pil) Ref.cls_given_pil.2) as [Hl _].
  - vm_compute. eexists. reflexivity.
  - run_returns.
  - vm_compute in Hl. discriminate.
Qed.

(** C1, as amended, on a run with the labels [[3; 1]] and a scheduler that
    updates the sample in place, in tensor form, and on a run in PIL
    form. *)
Lemma labels_returned_in_tensor_tuple_witness :
  ((∃ im noise_init,
      Ref.returned Ref.cls_given_tensor = Tuple3 im noise_init 0%nat)
   ∧ List.filter is_randint_event
       (new_events (Ref.state1 42) Ref.cls_given_tensor.2) = []
   ∧ Forall (λ x, x.1 = Some 0%nat)
       (unet_labels (new_events (Ref.state1 42) Ref.cls_given_tensor.2))
   ∧ heap (world Ref.cls_given_tensor.2) !! 0%nat
     = heap (world (Ref.state1 42)) !! 0%nat
   ∧ Forall (λ x, x.2 = heap (world (Ref.state1 42)) !! 0%nat)
       (unet_labels (new_events (Ref.state1 42) Ref.cls_given_tensor.2)))
  ∧ ((∃ im, Ref.returned Ref.cls_given_pil = Tuple1 im)
     ∧ List.filter is_randint_event
         (new_events (Ref.state1 42) Ref.cls_given_pil.2) = []
     ∧ Forall (λ x, x.1 = Some 0%nat)
         (unet_labels (new_events (Ref.state1 42) Ref.cls_given_pil.2))
     ∧ heap (world Ref.cls_given_pil.2) !! 0%nat
       = heap (world (Ref.state1 42)) !! 0%nat
     ∧ Forall (λ x, x.2 = heap (world (Ref.state1 42)) !! 0%nat)
         (unet_labels (new_events (Ref.state1 42) Ref.cls_given_pil.2))).
Proof.
  assert (Hc : is_Some (heap (world (Ref.state1 42)) !! 0%nat))
    by (vm_compute; eexists; reflexivity).
  assert (H1 : DDPMPipeline_Costum_ClsEmb_call (Ref.collab Ref.net_half true)
                 Ref.pipe 2 (GenOne 0) (Some 0%nat) 2 (Some "tensor"%string)
                 false (Ref.state1 42)
               = (Ok (Ref.returned Ref.cls_given_tensor),
                  Ref.cls_given_tensor.2)) by run_returns.
  assert (H2 : DDPMPipeline_Costum_ClsEmb_call (Ref.collab Ref.net_half false)
                 Ref.pipe 2 (GenOne 0) (Some 0%nat) 2 (Some "pil"%string)
                 false (Ref.state1 42)
               = (Ok (Ref.returned Ref.cls_given_pil), Ref.cls_given_pil.2))
    by run_returns.
  split.
  - destruct (labels_returned_in_tensor_tuple (Ref.collab Ref.net_half true)
                Ref.pipe 2 (GenOne 0) 0%nat 2 (Some "tensor"%string)
                (Ref.state1 42) (Ref.returned Ref.cls_given_tensor)
                Ref.cls_given_tensor.2 Hc H1) as (Hf & Hr & Hl & HF).
    split; [exact Hf|]. split; [exact Hr|]. split; [exact Hl|].
    exact (HF (ref_frame_ok _ _)).
  - destruct (labels_returned_in_tensor_tuple (Ref.collab Ref.net_half false)
                Ref.pipe 2 (GenOne 0) 0%nat 2 (Some "pil"%string)
                (Ref.state1 42) (Ref.returned Ref.cls_given_pil)
                Ref.cls_given_pil.2 Hc H2) as (Hf & Hr & Hl & HF).
    split; [exact Hf|]. split; [exact Hr|]. split; [exact Hl|].
    exact (HF (ref_frame_ok _ _)).
Defined.

(** Without the ownership assumption the contents of the caller's labels
    are not kept: a network that clears the labels it is handed returns
    them changed. *)
Lemma labels_cleared_by_network :
  output_labels (Ref.returned Ref.cls_cleared_given) = Some 0%nat
  ∧ t_data <$> heap (world (Ref.state1 42)) !! 0%nat = Some (I64s [3; 1])
  ∧ t_data <$> heap (world Ref.cls_cleared_given.2) !! 0%nat
    = Some (I64s [0; 0]).
Proof. repeat split; vm_compute; reflexivity. Qed.

(** C3 as it is stated fails: when the network yields NaN, the tensor
    returned with [output_type="tensor"] holds NaN, which is not in
    [[-1, 1]]. *)
Lemma tensor_output_nan_escapes :
  ¬ tensor_output_in_unit_range (Ref.collab Ref.net_nan false).
Proof.
  intros H. unfold tensor_output_in_unit_range in H.
  specialize (H Ref.pipe 2 (GenOne 0) 1 false (Ref.state0 42)
                (Ref.returned Ref.nan_tensor) Ref.nan_tensor.2
                (Ref.image_loc (Ref.returned Ref.nan_tensor))
                (Ref.tensor_at (world Ref.nan_tensor.2)
                   (Ref.image_loc (Ref.returned Ref.nan_tensor)))).
  assert (H1 : DDPMPipeline_Costum_call (Ref.collab Ref.net_nan false) Ref.pipe 2
                 (GenOne 0) 1 (Some "tensor"%string) false (Ref.state0 42)
               = (Ok (Ref.returned Ref.nan_tensor), Ref.nan_tensor.2))
    by run_returns.
  assert (H2 : output_images (Ref.returned Ref.nan_tensor)
               = TensorImage (Ref.image_loc (Ref.returned Ref.nan_tensor)))
    by run_returns.
  assert (H3 : heap (world Ref.nan_tensor.2)
                 !! Ref.image_loc (Ref.returned Ref.nan_tensor)
               = Some (Ref.tensor_at (world Ref.nan_tensor.2)
                         (Ref.image_loc (Ref.returned Ref.nan_tensor))))
    by run_returns.
  specialize (H H1 H2 H3). unfold elem_strictly_within in H.
  destruct (t_data _) as [xs|xs] eqn:E in H; vm_compute in E; [|discriminate E].
  injection E as <-. inversion H as [|x xs Hx _]. discriminate Hx.
Qed.

(** C3, as amended, on the run whose network yields NaN. *)
Lemma tensor_output_clamped_witness :
  ∃ l T, output_images (Ref.returned Ref.nan_tensor) = TensorImage l
         ∧ heap (world Ref.nan_tensor.2) !! l = Some T
         ∧ elem_within (-1) 1 T.
Proof.
  refine (tensor_output_clamped (Ref.collab Ref.net_nan false)
            Ref.pipe 2 (GenOne 0) None 1 false (Ref.state0 42)
            (Ref.returned Ref.nan_tensor) Ref.nan_tensor.2 _).
  left. run_returns.
Defined.

(** C4 on two worlds that share the seed 42 of the generator and nothing
    else. *)
Lemma same_seed_same_output_witness :
  ∃ out2 s2',
    DDPMPipeline_Costum_call (Ref.collab Ref.net_half false) Ref.pipe 2
      (GenOne 0) 3 (Some "tensor"%string) false (Ref.state2 42) = (Ok out2, s2')
    ∧ is_Some (output_value (world Ref.plain_tensor.2)
                 (Ref.returned Ref.plain_tensor))
    ∧ output_value (world Ref.plain_tensor.2) (Ref.returned Ref.plain_tensor)
      = output_value (world s2') out2.
Proof.
  refine (proj1 (same_seed_same_output (Ref.collab Ref.net_half false)
                   (ref_frame_ok _ _) (GenOne 0) (ref_det_ok _ _ _)
                   Ref.pipe 2 None None 3 (Some "tensor"%string) false
                   (Ref.state0 42) (Ref.state2 42) _ _)
            (Ref.returned Ref.plain_tensor) Ref.plain_tensor.2 _).
  - vm_compute. reflexivity.
  - exact I.
  - run_returns.
Defined.

(** C5 on a run whose scheduler updates the sample in place. *)
Lemma noise_init_snapshot_unmodified_witness :
  ∃ noise_init N,
    heap (world (Ref.state0 42)) !! noise_init = None
    ∧ heap (world Ref.cls_sampled.2) !! noise_init = Some N
    ∧ match head (unet_samples (new_events (Ref.state0 42) Ref.cls_sampled.2)) with
      | Some first => first.2 = Some N
      | None =>
          str_is (Some "tensor"%string) "pil" = false →
          str_is (Some "tensor"%string) "tensor" = false →
          ∃ l, output_images (Ref.returned Ref.cls_sampled) = TensorImage l
               ∧ heap (world Ref.cls_sampled.2) !! l = Some N
      end
    ∧ (false = false → Some "tensor"%string = Some "tensor"%string →
       output_noise (Ref.returned Ref.cls_sampled) = Some noise_init).
Proof.
  refine (noise_init_snapshot_unmodified (Ref.collab Ref.net_half true)
            (ref_frame_ok _ _) Ref.pipe 2 (GenOne 0) None 2
            (Some "tensor"%string) false (Ref.state0 42)
            (Ref.returned Ref.cls_sampled) Ref.cls_sampled.2 _ _).
  - exact I.
  - right. run_returns.
Defined.

(** C6 on a run with [output_type="np"]. *)
Lemma unknown_output_type_passthrough_witness :
  DDPMPipeline_Costum_call (Ref.collab Ref.net_half false) Ref.pipe 2
    (GenOne 0) 2 (Some "np"%string) false (Ref.state0 42)
  = match DDPMPipeline_Costum_denoise (Ref.collab Ref.net_half false) Ref.pipe 2
            (GenOne 0) 2 (Ref.state0 42) with
    | (Ok (image, _), s1) =>
        (Ok (if false then ImagePipelineOutput (TensorImage image)
             else Tuple1 (TensorImage image)), s1)
    | (Raise e, s1) => (Raise e, s1)
    end.
Proof.
  refine (proj1 (proj2 (unknown_output_type_passthrough
                          (Ref.collab Ref.net_half false) Ref.pipe 2 (GenOne 0)
                          None 2 (Some "np"%string) false (Ref.state0 42) _ _))).
  - discriminate.
  - discriminate.
Defined.

(** C9 on a call that leaves every argument out. *)
Lemma default_num_inference_steps_witness :
  DDPMPipeline_Costum__call__ (Ref.collab Ref.net_half false) Ref.pipe
    Ref.no_kwargs (Ref.state0 42)
  = DDPMPipeline_Costum__call__ (Ref.collab Ref.net_half false) Ref.pipe
      (with_steps (Some 1000) Ref.no_kwargs) (Ref.state0 42).
Proof.
  refine (proj1 (default_num_inference_steps (Ref.collab Ref.net_half false)
                   Ref.pipe Ref.no_kwargs _) (Ref.state0 42)).
  reflexivity.
Defined.

(** C7 as it is stated fails: a network may write to the tensor it is
    handed, and the one that clears its labels finds at its second call
    other contents than at its first. *)
Lemma labels_changed_between_iterations :
  ¬ labels_unchanged_at_every_iteration Ref.collab_clearing.
Proof.
  intros H.
  destruct (H Ref.pipe 2 (GenOne 0) 2 (Some "tensor"%string) false
              (Ref.state0 42) (Ref.returned Ref.cls_cleared_sampled)
              Ref.cls_cleared_sampled.2) as (c & L & F); [run_returns|].
  remember (unet_labels (new_events (Ref.state0 42) Ref.cls_cleared_sampled.2))
    as l eqn:E.
  vm_compute in E. subst l.
  inversion F as [|x xs H1 H2]; subst.
  inversion H2 as [|y ys H3 _]; subst.
  congruence.
Qed.

(** C7, as amended, on a run without labels, with collaborators that
    respect ownership. *)
Lemma labels_sampled_once_and_held_fixed_witness :
  ∃ r R c pre loop_evs k,
    new_events (Ref.state0 42) Ref.cls_sampled.2
    = pre ++ [EvRandint 0 10 [2] (GenOne 0) int64 (Some (r, Some R))]
        ++ loop_evs
    ∧ List.filter is_randint_event pre = []
    ∧ List.filter is_unet_event pre = []
    ∧ List.filter is_randint_event loop_evs = []
    ∧ loop_bodies k loop_evs = true
    ∧ (if String.eqb (t_device R) (device Ref.pipe) then c = r else c ≠ r)
    ∧ Forall (λ x, x.1 = Some c) (unet_labels loop_evs)
    ∧ (∀ x, head (unet_labels loop_evs) = Some x →
            x.2 = Some (on_device (device Ref.pipe) R))
    ∧ output_labels (Ref.returned Ref.cls_sampled) = Some c
    ∧ unet_labels loop_evs
      = replicate k (Some c, Some (on_device (device Ref.pipe) R))
    ∧ heap (world Ref.cls_sampled.2) !! c
      = Some (on_device (device Ref.pipe) R)
    ∧ heap (world (Ref.state0 42)) !! c = None.
Proof.
  assert (H : DDPMPipeline_Costum_ClsEmb_call (Ref.collab Ref.net_half true)
                Ref.pipe 2 (GenOne 0) None 2 (Some "tensor"%string) false
                (Ref.state0 42)
              = (Ok (Ref.returned Ref.cls_sampled), Ref.cls_sampled.2))
    by run_returns.
  destruct (labels_sampled_once_and_held_fixed (Ref.collab Ref.net_half true)
              Ref.pipe 2 (GenOne 0) 2 (Some "tensor"%string) false
              (Ref.state0 42) (Ref.returned Ref.cls_sampled)
              Ref.cls_sampled.2 H)
    as (r & R & c & pre & evs & k & E & F1 & F2 & F3 & B & Hc & Fl & Hh & Ho
        & HF).
  exists r, R, c, pre, evs, k.
  split; [exact E|]. split; [exact F1|]. split; [exact F2|].
  split; [exact F3|]. split; [exact B|]. split; [exact Hc|].
  split; [exact Fl|]. split; [exact Hh|].
  split; [exact (Ho eq_refl eq_refl)|].
  exact (HF (ref_frame_ok _ _)).
Defined.

(** C10 on a run without labels, with collaborators that respect
    ownership. *)
Lemma sampled_labels_shape_dtype_range_witness :
  ∃ r R c L,
    List.filter is_randint_event (new_events (Ref.state0 42) Ref.cls_sampled.2)
    = [EvRandint 0 10 [2] (GenOne 0) int64 (Some (r, Some R))]
    ∧ L = on_device (device Ref.pipe) R
    ∧ (if String.eqb (t_device R) (device Ref.pipe) then c = r else c ≠ r)
    ∧ t_shape L = [2] ∧ Z.of_nat (t_len L) = 2 ∧ t_dtype L = int64
    ∧ ints_in_range 0 10 L
    ∧ Forall (λ x, x.1 = Some c)
        (unet_labels (new_events (Ref.state0 42) Ref.cls_sampled.2))
    ∧ (∀ x, head (unet_labels (new_events (Ref.state0 42) Ref.cls_sampled.2))
            = Some x → x.2 = Some L)
    ∧ output_labels (Ref.returned Ref.cls_sampled) = Some c
    ∧ Forall (λ x, x = (Some c, Some L))
        (unet_labels (new_events (Ref.state0 42) Ref.cls_sampled.2))
    ∧ heap (world Ref.cls_sampled.2) !! c = Some L.
Proof.
  assert (H : DDPMPipeline_Costum_ClsEmb_call (Ref.collab Ref.net_half true)
                Ref.pipe 2 (GenOne 0) None 2 (Some "tensor"%string) false
                (Ref.state0 42)
              = (Ok (Ref.returned Ref.cls_sampled), Ref.cls_sampled.2))
    by run_returns.
  destruct (sampled_labels_shape_dtype_range (Ref.collab Ref.net_half true)
              (ref_randint_ok _ _) Ref.pipe 2 (GenOne 0) 2
              (Some "tensor"%string) false (Ref.state0 42)
              (Ref.returned Ref.cls_sampled) Ref.cls_sampled.2 H)
    as (r & R & c & L & E & EL & Hc & Sh & Ln & Dt & Rg & Fl & Hh & Ho & HF).
  exists r, R, c, L.
  split; [exact E|]. split; [exact EL|]. split; [exact Hc|].
  split; [exact Sh|]. split; [exact Ln|]. split; [exact Dt|].
  split; [exact Rg|]. split; [exact Fl|]. split; [exact Hh|].
  split; [exact (Ho eq_refl eq_refl)|].
  exact (HF (ref_frame_ok _ _)).
Defined.

(** C8 on a run in PIL form and a run in tensor form. *)
Lemma output_batch_dimension_witness :
  images_batch (world Ref.plain_pil.2) (output_images (Ref.returned Ref.plain_pil))
    = Some 2
  ∧ images_batch (world Ref.cls_sampled.2)
      (output_images (Ref.returned Ref.cls_sampled)) = Some 2.
Proof.
  split.
  - refine (output_batch_dimension (Ref.collab Ref.net_half true)
              (ref_frame_ok _ _) (ref_shape_ok _ _) Ref.pipe 2 (GenOne 0) None 2
              (Some "pil"%string) true (Ref.state0 42)
              (Ref.returned Ref.plain_pil) Ref.plain_pil.2 _ _).
    + exact I.
    + left. run_returns.
  - refine (output_batch_dimension (Ref.collab Ref.net_half true)
              (ref_frame_ok _ _) (ref_shape_ok _ _) Ref.pipe 2 (GenOne 0) None 2
              (Some "tensor"%string) false (Ref.state0 42)
              (Ref.returned Ref.cls_sampled) Ref.cls_sampled.2 _ _).
    + exact I.
    + right. run_returns.
Defined.
(** * More properties of the pipelines *)

(** ** The loop *)

Section Loop.

Context {GState Sched Pil : Type}.
Context (C : @Collab GState Sched Pil).
Implicit Types (w : @World GState Sched) (s : @State GState Sched).

(** X1. The loop over a schedule made of two parts is the loop over the
    first part followed, from the image and the state it ends with, by
    the loop over the second part; when the first part raises, the
    second part is not run. *)
Theorem denoise_loop_app labels g ts1 ts2 image s :
  denoise_loop C labels g (ts1 ++ ts2) image s
  = match denoise_loop C labels g ts1 image s with
    | (Ok image', s') => denoise_loop C labels g ts2 image' s'
    | (Raise e, s') => (Raise e, s')
    end.
Proof.
  revert image s. induction ts1 as [|t ts1 IH]; intros image s; simpl; [done|].
  unfold bind.
  destruct (call_unet C image t labels s) as [[mo|e] s1]; [|done].
  destruct (call_step C mo t image g s1) as [[im|e] s2]; [|done].
  apply IH.
Qed.

(** A loop that has returned on the first timesteps goes on from where it
    stopped. *)
Lemma denoise_loop_continue labels g pre post : ∀ image s im s1,
  denoise_loop C labels g pre image s = (Ok im, s1) →
  denoise_loop C labels g (pre ++ post) image s
  = denoise_loop C labels g post im s1.
Proof.
  induction pre as [|t pre IH]; intros image s im s1 H; simpl in *.
  - by apply ret_inv in H as [[= ->] ->].
  - unfold bind in *.
    destruct (call_unet C image t labels s) as [[mo|e] s2]; [|done].
    destruct (call_step C mo t image g s2) as [[im'|e] s3]; [|done].
    by apply IH.
Qed.

Lemma unet_timesteps_app (xs ys : list Event) :
  unet_timesteps (xs ++ ys) = unet_timesteps xs ++ unet_timesteps ys.
Proof. unfold unet_timesteps. apply omap_app. Qed.

Lemma step_timesteps_app (xs ys : list Event) :
  step_timesteps (xs ++ ys) = step_timesteps xs ++ step_timesteps ys.
Proof. unfold step_timesteps. apply omap_app. Qed.

(** X3. A loop that returns has handed the timesteps of the schedule to
    the network in the order of the schedule, each of them once, and the
    same timesteps in the same order to the scheduler step. *)
Theorem denoise_loop_visits_schedule_in_order labels g ts : ∀ image s r s',
  denoise_loop C labels g ts image s = (Ok r, s') →
  unet_timesteps (new_events s s') = ts
  ∧ step_timesteps (new_events s s') = ts.
Proof.
  induction ts as [|t ts IH]; intros image s r s' H; simpl in H.
  - apply ret_inv in H as [_ ->]. unfold new_events.
    by rewrite drop_all.
  - bind_ok H. bind_ok H.
    pose proof (denoise_loop_events _ _ _ _ _ _ _ _ H) as (evs & E3 & _).
    apply call_unet_inv in H0 as [_ E1].
    apply call_step_inv in H1 as [_ E2].
    destruct (IH _ _ _ _ H) as [IH1 IH2].
    rewrite (new_events_app _ _ _ E3) in IH1, IH2.
    erewrite new_events_app.
    2:{ rewrite E3, E2, E1, <- !app_assoc. reflexivity. }
    rewrite !unet_timesteps_app, !step_timesteps_app, IH1, IH2. done.
Qed.

(** X2. When the loop runs the first timesteps of a schedule and then
    the network, or the scheduler step, raises at the next timestep, the
    loop raises that exception: the remaining timesteps are not visited,
    and a raising network is not followed by a scheduler step. *)
Theorem denoise_loop_stops_at_first_exception
    labels g pre t post image s im s1 e w2 tail :
  denoise_loop C labels g pre image s = (Ok im, s1) →
  (unet_forward C im t labels (world s1) = (Raise e, w2)
   ∧ tail = [EvUnet im (heap (world s1) !! im) t labels
               (labels ≫= λ c, heap (world s1) !! c)])
  ∨ (∃ mo w1,
       unet_forward C im t labels (world s1) = (Ok mo, w1)
       ∧ scheduler_step C mo t im g w1 = (Raise e, w2)
       ∧ tail = [EvUnet im (heap (world s1) !! im) t labels
                   (labels ≫= λ c, heap (world s1) !! c);
                 EvStep mo t im g]) →
  denoise_loop C labels g (pre ++ t :: post) image s
  = (Raise e, mkState w2 (events s1 ++ tail)).
Proof.
  intros Hpre Hfail. rewrite (denoise_loop_continue _ _ _ _ _ _ _ _ Hpre). simpl.
  destruct Hfail as [[U ->]|(mo & w1 & U & St & ->)].
  - unfold bind. by rewrite (call_unet_fwd _ _ _ _ _ _ _ U).
  - unfold bind at 1. rewrite (call_unet_fwd _ _ _ _ _ _ _ U).
    unfold bind. unfold call_step.
    rewrite (logged_call_fwd (EvStep mo t im g)
               (scheduler_step C mo t im g) (mkState w1 _) _ _ St).
    simpl. by rewrite <- app_assoc.
Qed.

End Loop.
(** ** The log of a call, whether it returns or raises *)

Section AnyOutcome.

Context {GState Sched Pil : Type}.
Context (C : @Collab GState Sched Pil).
Implicit Types (w : @World GState Sched) (s : @State GState Sched).

(** An operation that reads a tensor and then allocates, returns or
    raises does not write to the log. *)
Lemma after_deref_events {A} (k : Tensor → @M GState Sched A) l s o s' :
  (∀ T x o' x', k T x = (o', x') → events x' = events x) →
  bind (deref l) k s = (o, s') → events s' = events s.
Proof.
  intros Hk H. apply bind_inv in H as [(T & s1 & D & K)|(e & D & _)].
  - apply deref_spec in D as [-> _]. by apply Hk in K.
  - by apply deref_spec in D as [-> _].
Qed.

Lemma alloc_events T s o s' : alloc T s = (o, s') → events s' = events s.
Proof.
  intros H. by apply alloc_spec in H as (_ & _ & _ & _ & _ & _ & _ & _ & E).
Qed.

Lemma ret_events {A} (a : A) s o s' :
  ret a s = (o, s') → events s' = events s.
Proof. intros H. by apply ret_inv in H as [_ ->]. Qed.

Lemma raise_events {A} e s (o : Outcome A) s' :
  raise e s = (o, s') → events s' = events s.
Proof. unfold raise. by intros [= _ <-]. Qed.

Lemma tensor_to_events l dev s o s' :
  tensor_to l dev s = (o, s') → events s' = events s.
Proof.
  apply after_deref_events. intros T x o' x'.
  destruct (String.eqb _ _); [apply ret_events|apply alloc_events].
Qed.

Lemma tensor_clone_events l s o s' :
  tensor_clone l s = (o, s') → events s' = events s.
Proof. apply after_deref_events. intros T x o' x'. apply alloc_events. Qed.

Lemma tensor_clamp_events l lo hi s o s' :
  tensor_clamp l lo hi s = (o, s') → events s' = events s.
Proof. apply after_deref_events. intros T x o' x'. apply alloc_events. Qed.

Lemma tensor_mul_scalar_events l c s o s' :
  tensor_mul_scalar l c s = (o, s') → events s' = events s.
Proof. apply after_deref_events. intros T x o' x'. apply alloc_events. Qed.

Lemma tensor_add_scalar_events l c s o s' :
  tensor_add_scalar l c s = (o, s') → events s' = events s.
Proof. apply after_deref_events. intros T x o' x'. apply alloc_events. Qed.

Lemma tensor_permute_events l s o s' :
  tensor_permute_0231 l s = (o, s') → events s' = events s.
Proof.
  apply after_deref_events. intros T x o' x'.
  destruct (t_shape T) as [|n [|c [|h [|k [|]]]]];
    (apply raise_events || apply alloc_events).
Qed.

Lemma tensor_numpy_events l s o s' :
  tensor_numpy l s = (o, s') → events s' = events s.
Proof.
  apply after_deref_events. intros T x o' x'.
  destruct (String.eqb _ _); [apply ret_events|apply raise_events].
Qed.

(** Sequencing two computations that do not write to the log. *)
Lemma bind_events {A B} (m : @M GState Sched A) (k : A → @M GState Sched B)
    s o s' :
  (∀ x o' x', m x = (o', x') → events x' = events x) →
  (∀ a x o' x', k a x = (o', x') → events x' = events x) →
  bind m k s = (o, s') → events s' = events s.
Proof.
  intros Hm Hk H. apply bind_inv in H as [(a & s1 & M1 & K)|(e & M1 & _)].
  - apply Hm in M1. apply Hk in K. congruence.
  - by apply Hm in M1.
Qed.

Lemma postprocess_events ot image s o s' :
  postprocess C ot image s = (o, s') → events s' = events s.
Proof.
  unfold postprocess.
  destruct (str_is ot "pil"); [|destruct (str_is ot "tensor")].
  - revert image s o s'.
    intros image s o s'. apply bind_events; [apply tensor_mul_scalar_events|].
    intros a1 x1 o1 y1. apply bind_events; [apply tensor_add_scalar_events|].
    intros a2 x2 o2 y2. apply bind_events; [apply tensor_clamp_events|].
    intros a3 x3 o3 y3. apply bind_events; [apply tensor_to_events|].
    intros a4 x4 o4 y4. apply bind_events; [apply tensor_permute_events|].
    intros a5 x5 o5 y5. apply bind_events; [apply tensor_numpy_events|].
    intros a6 x6 o6 y6. apply bind_events.
    + intros x o' x' H. by apply lift_pure_inv in H as [_ ->].
    + intros a7 x7 o7 y7. apply ret_events.
  - apply bind_events; [apply tensor_clamp_events|].
    intros a x o' x'. apply ret_events.
  - apply ret_events.
Qed.

Lemma initial_noise_log self b g s o s' :
  initial_noise C self b g s = (o, s') →
  events s' = events s ++
    [EvRandn (sampled_shape self b) g
       (if on_mps self then None else Some (device self))]
  ∨ ∃ e, o = Raise e ∧ events s' = events s.
Proof.
  intros H. apply initial_noise_cases in H as [(e & _ & -> & ->)|[_ H]].
  { right. by exists e. }
  left. revert H. unfold sample_noise. destruct (on_mps self).
  - intros H. apply bind_inv in H as [(a & s1 & R & T)|(e & R & _)].
    + apply call_randn_inv in R as [_ E]. apply tensor_to_events in T.
      congruence.
    + by apply call_randn_inv in R as [_ E].
  - intros H. by apply call_randn_inv in H as [_ E].
Qed.

Lemma class_embedding_log self b g cs s o s' :
  class_embedding C self b g cs s = (o, s') →
  ∃ res, events s' = events s ++
    match cs with
    | Some _ => []
    | None => [EvRandint 0 10 [b] g int64 res]
    end.
Proof.
  unfold class_embedding. destruct cs as [l|].
  - intros H. exists None. apply ret_inv in H as [_ ->]. by rewrite app_nil_r.
  - intros H. apply bind_inv in H as [(a & s1 & R & T)|(e & R & _)].
    + apply call_randint_inv in R as [_ E]. apply tensor_to_events in T.
      eexists. by rewrite T, E.
    + apply call_randint_inv in R as [_ E]. eexists. exact E.
Qed.

Lemma denoise_loop_log labels g ts : ∀ image s o s',
  denoise_loop C labels g ts image s = (o, s') →
  ∃ evs, events s' = events s ++ evs
         ∧ bodies_prefix evs = true
         ∧ Forall (uses_only g) evs.
Proof.
  induction ts as [|t ts IH]; intros image s o s' H; simpl in H.
  - apply ret_inv in H as [_ ->]. exists []. by rewrite app_nil_r.
  - apply bind_inv in H as [(mo & s1 & U & H)|(e & U & _)].
    + apply call_unet_inv in U as [_ E1].
      apply bind_inv in H as [(im & s2 & St & H)|(e & St & _)].
      * apply call_step_inv in St as [_ E2].
        apply IH in H as (evs & E3 & B & F).
        eexists (_ :: _ :: evs). split.
        { rewrite E3, E2, E1, <- !app_assoc. done. }
        split. { simpl. by rewrite Z.eqb_refl, Nat.eqb_refl, B. }
        repeat constructor; done.
      * apply call_step_inv in St as [_ E2].
        eexists [_; _]. split.
        { rewrite E2, E1, <- !app_assoc. done. }
        split. { simpl. by rewrite Z.eqb_refl, Nat.eqb_refl. }
        repeat constructor; done.
    + apply call_unet_inv in U as [_ E1]. eexists [_]. split; [exact E1|].
      split; [done|]. repeat constructor; done.
Qed.

(** The log of the denoising phase of the class-conditional pipeline. *)
Lemma ClsEmb_denoise_log self b g cs n s o s' :
  DDPMPipeline_Costum_ClsEmb_denoise C self b g cs n s = (o, s') →
  ∃ evs, events s' = events s ++ evs
         ∧ call_log_ok (labels_sampled cs) evs = true
         ∧ Forall (uses_only g) evs.
Proof.
  unfold DDPMPipeline_Costum_ClsEmb_denoise. intros H.
  apply bind_inv in H as [(im & s1 & I & H)|(e & I & _)].
  2:{ apply initial_noise_log in I as [I|(e' & _ & I)].
      - eexists [_]. split; [exact I|]. split; [done|].
        repeat constructor; done.
      - exists []. rewrite app_nil_r. split; [done|]. split; [done|].
        constructor. }
  apply initial_noise_log in I as [I|(e' & [=] & _)].
  apply bind_inv in H as [(ni & s2 & Cl & H)|(e & Cl & _)].
  2:{ apply tensor_clone_events in Cl. eexists [_]. split; [rewrite Cl; exact I|].
      split; [done|]. repeat constructor; done. }
  apply tensor_clone_events in Cl.
  apply bind_inv in H as [(u & s3 & T & H)|(e & T & _)].
  2:{ apply call_set_timesteps_inv in T as [_ E]. eexists [_; _]. split.
      { rewrite E, Cl, I, <- app_assoc. done. }
      split; [by destruct cs|]. repeat constructor; done. }
  apply call_set_timesteps_inv in T as [_ E].
  apply bind_inv in H as [(c & s4 & Em & H)|(e & Em & _)].
  2:{ apply class_embedding_log in Em as [res Em].
      exists ([EvRandn (sampled_shape self b) g
                 (if on_mps self then None
                  else Some (device self)); EvSetTimesteps n]
              ++ match cs with
                 | Some _ => []
                 | None => [EvRandint 0 10 [b] g int64 res]
                 end).
      split. { rewrite Em, E, Cl, I, <- !app_assoc. done. }
      split; destruct cs; simpl; try done; repeat constructor; done. }
  apply class_embedding_log in Em as [res Em].
  apply bind_inv in H as [(ts & s5 & G & H)|(e & G & _)].
  2:{ apply get_timesteps_inv in G as [? _]. discriminate. }
  apply get_timesteps_inv in G as [_ ->].
  apply bind_inv in H as [(r & s6 & L & H)|(e & L & _)].
  - apply ret_inv in H as [_ ->].
    apply denoise_loop_log in L as (evs & E5 & B & F).
    exists ([EvRandn (sampled_shape self b) g
               (if on_mps self then None
                else Some (device self)); EvSetTimesteps n]
            ++ match cs with
                 | Some _ => []
                 | None => [EvRandint 0 10 [b] g int64 res]
                 end
            ++ evs).
    split. { rewrite E5, Em, E, Cl, I, <- !app_assoc. done. }
    split; destruct cs; simpl; try done; repeat constructor; done.
  - apply denoise_loop_log in L as (evs & E5 & B & F).
    exists ([EvRandn (sampled_shape self b) g
               (if on_mps self then None
                else Some (device self)); EvSetTimesteps n]
            ++ match cs with
                 | Some _ => []
                 | None => [EvRandint 0 10 [b] g int64 res]
                 end
            ++ evs).
    split. { rewrite E5, Em, E, Cl, I, <- !app_assoc. done. }
    split; destruct cs; simpl; try done; repeat constructor; done.
Qed.

Lemma Costum_denoise_log self b g n s o s' :
  DDPMPipeline_Costum_denoise C self b g n s = (o, s') →
  ∃ evs, events s' = events s ++ evs
         ∧ call_log_ok false evs = true
         ∧ Forall (uses_only g) evs.
Proof.
  unfold DDPMPipeline_Costum_denoise. intros H.
  apply bind_inv in H as [(im & s1 & I & H)|(e & I & _)].
  2:{ apply initial_noise_log in I as [I|(e' & _ & I)].
      - eexists [_]. split; [exact I|]. split; [done|].
        repeat constructor; done.
      - exists []. rewrite app_nil_r. split; [done|]. split; [done|].
        constructor. }
  apply initial_noise_log in I as [I|(e' & [=] & _)].
  apply bind_inv in H as [(ni & s2 & Cl & H)|(e & Cl & _)].
  2:{ apply tensor_clone_events in Cl. eexists [_]. split; [rewrite Cl; exact I|].
      split; [done|]. repeat constructor; done. }
  apply tensor_clone_events in Cl.
  apply bind_inv in H as [(u & s3 & T & H)|(e & T & _)].
  2:{ apply call_set_timesteps_inv in T as [_ E]. eexists [_; _]. split.
      { rewrite E, Cl, I, <- app_assoc. done. }
      split; [done|]. repeat constructor; done. }
  apply call_set_timesteps_inv in T as [_ E].
  apply bind_inv in H as [(ts & s5 & G & H)|(e & G & _)].
  2:{ apply get_timesteps_inv in G as [? _]. discriminate. }
  apply get_timesteps_inv in G as [_ ->].
  assert (∃ r s6, denoise_loop C None g (progress_bar ts) im s3 = (r, s6)
            ∧ events s' = events s6) as (r & s6 & L & E6).
  { apply bind_inv in H as [(r & s6 & L & H)|(e & L & _)].
    - apply ret_inv in H as [_ ->]. by exists (Ok r), s6.
    - by exists (Raise e), s'. }
  apply denoise_loop_log in L as (evs & E5 & B & F).
  exists (EvRandn (sampled_shape self b) g
            (if on_mps self then None
             else Some (device self)) :: EvSetTimesteps n :: evs).
  split. { rewrite E6, E5, E, Cl, I, <- !app_assoc. done. }
  split; [done|]. repeat constructor; done.
Qed.

Lemma finish_keeps_log {A} (d : @M GState Sched A) (f : A → @M GState Sched (@Output Pil))
    s o s' P :
  (∀ a x o' x', f a x = (o', x') → events x' = events x) →
  (∀ o1 s1, d s = (o1, s1) → ∃ evs, events s1 = events s ++ evs ∧ P evs) →
  bind d f s = (o, s') →
  ∃ evs, events s' = events s ++ evs ∧ P evs.
Proof.
  intros Hf Hd H. apply bind_inv in H as [(a & s1 & D & F)|(e & D & _)].
  - apply Hd in D as (evs & E & HP). apply Hf in F. exists evs.
    split; [congruence|done].
  - by apply Hd in D.
Qed.

Lemma Costum_finish_events ot rd image ni s o s' :
  DDPMPipeline_Costum_finish C ot rd image ni s = (o, s') →
  events s' = events s.
Proof.
  unfold DDPMPipeline_Costum_finish. apply bind_events.
  - intros x o' x'. apply postprocess_events.
  - intros a x o' x'. destruct (negb rd), (str_is ot "tensor"); apply ret_events.
Qed.

Lemma ClsEmb_finish_events ot rd image ni c s o s' :
  DDPMPipeline_Costum_ClsEmb_finish C ot rd image ni c s = (o, s') →
  events s' = events s.
Proof.
  unfold DDPMPipeline_Costum_ClsEmb_finish. apply bind_events.
  - intros x o' x'. apply postprocess_events.
  - intros a x o' x'. destruct (negb rd), (str_is ot "tensor"); apply ret_events.
Qed.

(** X13. Whether a call returns or raises, its calls to the noise
    sampler, the scheduler, the label sampler and the network come in one
    order: the noise sampler first, then the configuration of the
    scheduler, then the label sampler when the class-conditional pipeline
    is given no labels, then loop bodies.  No network call comes before
    the scheduler is configured, no scheduler step without the network
    call of its timestep before it, and none of these is called after the
    loop.  A call that raises before it samples noise has called none of
    them.  The image converter of PIL mode, which is called after the
    loop, is not part of this log. *)
Theorem calls_come_in_order self b g cs n ot rd s :
  call_log_ok false
    (new_events s (DDPMPipeline_Costum_call C self b g n ot rd s).2) = true
  ∧ call_log_ok (labels_sampled cs)
      (new_events s (DDPMPipeline_Costum_ClsEmb_call C self b g cs n ot rd s).2)
    = true.
Proof.
  split.
  - destruct (DDPMPipeline_Costum_call C self b g n ot rd s) as [o s'] eqn:H.
    unfold DDPMPipeline_Costum_call in H.
    apply (finish_keeps_log _ _ _ _ _
             (λ evs, call_log_ok false evs = true ∧ Forall (uses_only g) evs))
      in H as (evs & E & B & _).
    + simpl. by rewrite (new_events_app _ _ _ E).
    + intros [im ni] x o' x'. apply Costum_finish_events.
    + intros o1 s1. apply Costum_denoise_log.
  - destruct (DDPMPipeline_Costum_ClsEmb_call C self b g cs n ot rd s)
      as [o s'] eqn:H.
    unfold DDPMPipeline_Costum_ClsEmb_call in H.
    apply (finish_keeps_log _ _ _ _ _
             (λ evs, call_log_ok (labels_sampled cs) evs = true
                     ∧ Forall (uses_only g) evs))
      in H as (evs & E & B & _).
    + simpl. by rewrite (new_events_app _ _ _ E).
    + intros [[im ni] c] x o' x'. apply ClsEmb_finish_events.
    + intros o1 s1. apply ClsEmb_denoise_log.
Qed.

(** X4. Whether a call returns or raises, every call it makes that takes
    a generator, to the noise sampler, to the label sampler and to each
    scheduler step, is given the generator argument of the call itself,
    and no other. *)
Theorem generator_handed_to_every_sampler self b g cs n ot rd s :
  Forall (uses_only g)
    (new_events s (DDPMPipeline_Costum_call C self b g n ot rd s).2)
  ∧ Forall (uses_only g)
      (new_events s (DDPMPipeline_Costum_ClsEmb_call C self b g cs n ot rd s).2).
Proof.
  split.
  - destruct (DDPMPipeline_Costum_call C self b g n ot rd s) as [o s'] eqn:H.
    unfold DDPMPipeline_Costum_call in H.
    apply (finish_keeps_log _ _ _ _ _
             (λ evs, call_log_ok false evs = true ∧ Forall (uses_only g) evs))
      in H as (evs & E & _ & F).
    + simpl. by rewrite (new_events_app _ _ _ E).
    + intros [im ni] x o' x'. apply Costum_finish_events.
    + intros o1 s1. apply Costum_denoise_log.
  - destruct (DDPMPipeline_Costum_ClsEmb_call C self b g cs n ot rd s)
      as [o s'] eqn:H.
    unfold DDPMPipeline_Costum_ClsEmb_call in H.
    apply (finish_keeps_log _ _ _ _ _
             (λ evs, call_log_ok (labels_sampled cs) evs = true
                     ∧ Forall (uses_only g) evs))
      in H as (evs & E & _ & F).
    + simpl. by rewrite (new_events_app _ _ _ E).
    + intros [[im ni] c] x o' x'. apply ClsEmb_finish_events.
    + intros o1 s1. apply ClsEmb_denoise_log.
Qed.

End AnyOutcome.
(** ** What a call leaves in the store *)

Section Store.

Context {GState Sched Pil : Type}.
Context (C : @Collab GState Sched Pil).
Context (HF : FrameContract C).
Implicit Types (w : @World GState Sched) (s : @State GState Sched).

(** The phases of the class-conditional pipeline up to the end of its
    loop, and what the snapshot and the labels hold at the end: what the
    noise held when it was sampled, and what the labels held when the
    loop started. *)
Lemma ClsEmb_denoise_trace self b g cs n s image noise_init c s' :
  DDPMPipeline_Costum_ClsEmb_denoise C self b g cs n s
    = (Ok (image, noise_init, c), s') →
  from_option (λ l, is_Some (heap (world s) !! l)) True cs →
  ∃ im0 s1 s2 s3 s4,
    initial_noise C self b g s = (Ok im0, s1)
    ∧ tensor_clone im0 s1 = (Ok noise_init, s2)
    ∧ class_embedding C self b g cs s3 = (Ok c, s4)
    ∧ is_Some (heap (world s1) !! im0)
    ∧ heap (world s') !! noise_init = heap (world s1) !! im0
    ∧ is_Some (heap (world s4) !! c)
    ∧ heap (world s') !! c = heap (world s4) !! c
    ∧ denoise_loop C (Some c) g (timesteps C (sched (world s4))) im0 s4
      = (Ok image, s').
Proof.
  unfold DDPMPipeline_Costum_ClsEmb_denoise. intros H Hcs.
  bind_ok H. rename a into image0, s0 into s1.
  bind_ok H. rename a into ni, s0 into s2.
  bind_ok H. rename s0 into s3. destruct a.
  bind_ok H. rename a into c', s0 into s4.
  bind_ok H. rename a into ts.
  bind_ok H. rename a into im.
  apply ret_inv in H as [[= <- <- <-] ->].
  apply get_timesteps_inv in H4 as [[= ->] ->].
  pose proof (initial_noise_spec _ HF _ _ _ _ _ _ H0) as (K1 & F0 & A1 & _).
  pose proof (tensor_clone_spec _ _ _ _ H1) as [[G2 (N & V1 & V2)] F2].
  destruct G2 as (K2 & _).
  apply call_set_timesteps_inv in H2 as [ST _].
  pose proof (set_timesteps_frame _ HF _ _ _ _ ST) as K3.
  pose proof (class_embedding_spec _ HF _ _ _ _ _ _ _ H3) as (K4 & _ & Hc).
  pose proof (denoise_loop_frame _ HF _ _ _ _ _ _ _ H5) as (P5 & _).
  { eauto using keeps_is_Some, keeps_trans. }
  assert (K24 : keeps (world s2) (world s4) []) by eauto using keeps_trans.
  assert (K14 : keeps (world s1) (world s4) []) by eauto using keeps_trans.
  assert (K04 : keeps (world s) (world s4) []) by eauto using keeps_trans.
  assert (Hni4 : heap (world s4) !! noise_init = Some N).
  { rewrite (keeps_value _ _ _ K24); [done|by rewrite V2]. }
  assert (Hni_ne : noise_init ≠ image0).
  { apply not_eq_sym. eapply is_Some_ne; eauto. }
  assert (Hc4 : is_Some (heap (world s4) !! c) ∧ c ≠ image0).
  { destruct cs as [l|]; simpl in Hcs.
    - destruct Hc as [-> ->]. split; [eauto using keeps_is_Some|].
      eapply is_Some_ne; eauto.
    - destruct Hc as (Fc & Ac & _). split; [done|].
      apply not_eq_sym. eapply is_Some_ne; [|exact Fc].
      eauto using keeps_is_Some, keeps_trans. }
  destruct Hc4 as [Sc Hc_ne].
  exists image0, s1, s2, s3, s4.
  repeat (split; [done|]).
  split. { destruct (P5 noise_init) as [-> _]; [by rewrite Hni4|done|].
           by rewrite Hni4, V1. }
  split; [done|].
  split. { by destruct (P5 c Sc Hc_ne) as [-> _]. }
  done.
Qed.

Lemma Costum_denoise_trace self b g n s image noise_init s' :
  DDPMPipeline_Costum_denoise C self b g n s = (Ok (image, noise_init), s') →
  ∃ im0 s1 s2 s3,
    initial_noise C self b g s = (Ok im0, s1)
    ∧ tensor_clone im0 s1 = (Ok noise_init, s2)
    ∧ is_Some (heap (world s1) !! im0)
    ∧ heap (world s') !! noise_init = heap (world s1) !! im0
    ∧ denoise_loop C None g (timesteps C (sched (world s3))) im0 s3
      = (Ok image, s').
Proof.
  unfold DDPMPipeline_Costum_denoise. intros H.
  bind_ok H. rename a into image0, s0 into s1.
  bind_ok H. rename a into ni, s0 into s2.
  bind_ok H. rename s0 into s3. destruct a.
  bind_ok H. rename a into ts.
  bind_ok H. rename a into im.
  apply ret_inv in H as [[= <- <-] ->].
  apply get_timesteps_inv in H3 as [[= ->] ->].
  pose proof (initial_noise_spec _ HF _ _ _ _ _ _ H0) as (K1 & F0 & A1 & _).
  pose proof (tensor_clone_spec _ _ _ _ H1) as [[G2 (N & V1 & V2)] F2].
  destruct G2 as (K2 & _).
  apply call_set_timesteps_inv in H2 as [ST _].
  pose proof (set_timesteps_frame _ HF _ _ _ _ ST) as K3.
  pose proof (denoise_loop_frame _ HF _ _ _ _ _ _ _ H4) as (P5 & _).
  { eauto using keeps_is_Some, keeps_trans. }
  assert (Hni3 : heap (world s3) !! noise_init = Some N).
  { rewrite (keeps_value _ _ _ K3); [done|by rewrite V2]. }
  assert (Hni_ne : noise_init ≠ image0).
  { apply not_eq_sym. eapply is_Some_ne; eauto. }
  exists image0, s1, s2, s3.
  repeat (split; [done|]).
  split; [|done].
  destruct (P5 noise_init) as [-> _]; [by rewrite Hni3|done|].
  by rewrite Hni3, V1.
Qed.

(** X5. A call that returns has changed no tensor that was in the store
    when it was made: everything it writes, it writes to tensors created
    during the call.  The collaborators are taken to respect ownership
    ([FrameContract]), and labels given by the caller to be a tensor of
    the store. *)
Theorem caller_tensors_untouched self b g cs n ot rd s out s' l :
  from_option (λ c, is_Some (heap (world s) !! c)) True cs →
  DDPMPipeline_Costum_call C self b g n ot rd s = (Ok out, s')
  ∨ DDPMPipeline_Costum_ClsEmb_call C self b g cs n ot rd s = (Ok out, s') →
  is_Some (heap (world s) !! l) →
  heap (world s') !! l = heap (world s) !! l.
Proof.
  intros Hcs [H|H] Hl.
  - apply Costum_call_inv in H as (image & ni & s1 & im & D & P & _).
    apply postprocess_grows in P.
    apply (Costum_denoise_spec _ HF) in D as (N & ts & evs & im0 & Pre & _).
    rewrite (grows_value _ _ _ P); [by apply Pre|]. by rewrite Pre.
  - apply ClsEmb_call_inv in H as (image & ni & c & s1 & im & D & P & _).
    apply postprocess_grows in P.
    apply (ClsEmb_denoise_spec _ HF) in D
      as (N & L & ts & evs & im0 & Pre & _); [|done].
    rewrite (grows_value _ _ _ P); [by apply Pre|]. by rewrite Pre.
Qed.

Lemma initial_noise_device self b g s im s1 :
  initial_noise C self b g s = (Ok im, s1) →
  on_mps self = true →
  device_at (world s1) im = Some (device self).
Proof.
  intros H E. apply initial_noise_inv in H as [_ H].
  unfold sample_noise in H. rewrite E in H. bind_ok H.
  apply tensor_to_spec in H as [[_ (T & _ & HT)] _].
  unfold device_at. by rewrite HT.
Qed.

Lemma class_embedding_device self b g s c s1 :
  class_embedding C self b g None s = (Ok c, s1) →
  device_at (world s1) c = Some (device self).
Proof.
  unfold class_embedding. intros H. bind_ok H.
  apply tensor_to_spec in H as [[_ (T & _ & HT)] _].
  unfold device_at. by rewrite HT.
Qed.

(** X11. The labels the class-conditional pipeline samples are on the
    device of the pipeline when the call returns, wherever the sampler
    created them; and on a device of type MPS, with or without an index,
    where the noise is sampled without a device and then moved, the
    snapshot of the initial noise is on the device of the pipeline too.
    The first call of the pipeline is the one to the noise sampler, for
    the image shape, with no device on MPS and with the device of the
    pipeline otherwise.  The collaborators are taken to respect ownership
    ([FrameContract]). *)
Theorem sampled_tensors_on_pipeline_device self b g n s out s' :
  DDPMPipeline_Costum_ClsEmb_call C self b g None n (Some "tensor"%string)
    false s = (Ok out, s') →
  ∃ shape noise_init c,
    image_shape self b = Ok shape
    ∧ head (new_events s s')
      = Some (EvRandn shape g
                (if on_mps self then None else Some (device self)))
    ∧ output_noise out = Some noise_init
    ∧ output_labels out = Some c
    ∧ device_at (world s') c = Some (device self)
    ∧ (on_mps self = true →
       device_at (world s') noise_init = Some (device self)).
Proof.
  intros H.
  pose proof (ClsEmb_call_shape _ _ _ _ _ _ _ _ _ _ _ H) as Esh.
  pose proof (ClsEmb_call_events _ _ _ _ _ _ _ _ _ _ _ H)
    as (k & evs & res & E & _).
  apply ClsEmb_call_inv in H as (image & ni & c & s1 & im & D & P & ->).
  apply postprocess_grows in P.
  apply ClsEmb_denoise_trace in D
    as (im0 & t1 & t2 & t3 & t4 & I & Cl & Em & Si & Vn & Sc & Vc & _); [|done].
  exists (sampled_shape self b), ni, c.
  split; [done|]. split; [by rewrite E|]. split; [done|]. split; [done|].
  unfold device_at in *. split.
  - rewrite (grows_value _ _ _ P) by (by rewrite Vc).
    rewrite Vc. by apply class_embedding_device in Em.
  - intros Hd. rewrite (grows_value _ _ _ P) by (by rewrite Vn).
    rewrite Vn. by apply (initial_noise_device _ _ _ _ _ _ I).
Qed.

(** X12. With [output_type="tensor"] and [return_dict=False], the image
    tensor and the snapshot of the initial noise that a call returns both
    have the whole shape asked of the noise sampler: (batch size,
    channels, height, width) for an integer sample size, (batch size,
    channels, dims...) otherwise.  The shape assumptions are
    [ShapeContract], ownership is [FrameContract]. *)
Theorem tensor_tuple_shapes (HS : ShapeContract C)
    self b g cs n s out s' :
  from_option (λ c, is_Some (heap (world s) !! c)) True cs →
  DDPMPipeline_Costum_call C self b g n (Some "tensor"%string) false s
    = (Ok out, s')
  ∨ DDPMPipeline_Costum_ClsEmb_call C self b g cs n (Some "tensor"%string)
      false s = (Ok out, s') →
  ∃ shape l noise_init,
    image_shape self b = Ok shape
    ∧ output_images out = TensorImage l
    ∧ output_noise out = Some noise_init
    ∧ shape_at (world s') l = Some shape
    ∧ shape_at (world s') noise_init = Some shape.
Proof.
  intros Hcs H.
  assert (Esh : image_shape self b = Ok (sampled_shape self b)).
  { destruct H as [H|H];
      [by apply Costum_call_shape in H|by apply ClsEmb_call_shape in H]. }
  assert (∃ image ni s1 im im0 t1,
            postprocess C (Some "tensor"%string) image s1 = (Ok im, s')
            ∧ output_images out = im ∧ output_noise out = Some ni
            ∧ shape_at (world s1) image = Some (sampled_shape self b)
            ∧ initial_noise C self b g s = (Ok im0, t1)
            ∧ is_Some (heap (world t1) !! im0)
            ∧ heap (world s1) !! ni = heap (world t1) !! im0)
    as (image & ni & s1 & im & im0 & t1 & P & <- & On & Sh & I & Si & Vn).
  { destruct H as [H|H].
    - apply Costum_call_inv in H as (image & ni & s1 & im & D & P & ->).
      pose proof (Costum_denoise_trace _ _ _ _ _ _ _ _ D)
        as (im0 & t1 & t2 & t3 & I & _ & Si & Vn & _).
      apply (Costum_denoise_spec _ HF) in D
        as (N & ts & evs & i0 & _ & _ & _ & _ & _ & _ & _ & _ & _ & _ & _ & Sh).
      exists image, ni, s1, im, im0, t1. eauto 10.
    - apply ClsEmb_call_inv in H as (image & ni & c & s1 & im & D & P & ->).
      pose proof (ClsEmb_denoise_trace _ _ _ _ _ _ _ _ _ _ D Hcs)
        as (im0 & t1 & t2 & t3 & t4 & I & _ & _ & Si & Vn & _).
      apply (ClsEmb_denoise_spec _ HF) in D
        as (N & L & ts & evs & i0 & _ & _ & _ & _ & _ & _ & _ & _ & _ & _ & _
            & _ & _ & _ & _ & Sh); [|done].
      exists image, ni, s1, im, im0, t1. eauto 10. }
  pose proof (postprocess_grows _ _ _ _ _ _ P) as G.
  apply postprocess_tensor in P as (_ & r & T & -> & HT & _ & Hr).
  exists (sampled_shape self b), r, ni.
  split; [done|]. split; [done|]. split; [done|].
  unfold shape_at in *. split.
  - rewrite Hr. simpl. by rewrite HT in Sh.
  - rewrite (grows_value _ _ _ G) by (by rewrite Vn). rewrite Vn.
    apply (initial_noise_spec _ HF) in I as (_ & _ & _ & _ & _ & Sh1).
    by apply Sh1.
Qed.

End Store.
(** ** The post-processing stage and the form of the output *)

Section Output.

Context {GState Sched Pil : Type}.
Context (C : @Collab GState Sched Pil).
Implicit Types (w : @World GState Sched) (s : @State GState Sched).

Lemma str_is_true ot x : str_is ot x = true ↔ ot = Some x.
Proof.
  destruct ot as [y|]; simpl; [|done]. rewrite String.eqb_eq.
  split; congruence.
Qed.

Lemma str_is_false ot x : str_is ot x = false ↔ ot ≠ Some x.
Proof.
  rewrite <- str_is_true. destruct (str_is ot x); split; congruence.
Qed.

(** X6. The form of the output follows from the flags alone: a
    structured result when [return_dict] is set, whatever the output
    type; otherwise a tuple of the image alone, except with
    [output_type="tensor"], where the plain pipeline adds the initial
    noise and the class-conditional pipeline the initial noise and the
    labels.  The plain pipeline never returns labels. *)
Theorem output_form_follows_flags self b g cs n ot rd s :
  match (DDPMPipeline_Costum_call C self b g n ot rd s).1 with
  | Ok out => plain_form ot rd out
  | Raise _ => True
  end
  ∧ match (DDPMPipeline_Costum_ClsEmb_call C self b g cs n ot rd s).1 with
    | Ok out => cls_form ot rd out
    | Raise _ => True
    end.
Proof.
  split.
  - destruct (DDPMPipeline_Costum_call C self b g n ot rd s) as [[out|e] s']
      eqn:H; [|done]. simpl.
    apply Costum_call_inv in H as (image & ni & s1 & im & _ & _ & ->).
    destruct rd; simpl; [done|].
    destruct (str_is ot "tensor") eqn:E; simpl.
    + by apply str_is_true in E.
    + by apply str_is_false in E.
  - destruct (DDPMPipeline_Costum_ClsEmb_call C self b g cs n ot rd s)
      as [[out|e] s'] eqn:H; [|done]. simpl.
    apply ClsEmb_call_inv in H as (image & ni & c & s1 & im & _ & _ & ->).
    destruct rd; simpl; [done|].
    destruct (str_is ot "tensor") eqn:E; simpl.
    + by apply str_is_true in E.
    + by apply str_is_false in E.
Qed.

Lemma permute_0231_Forall {A} (P : A → Prop) n c h k (xs : list A) :
  Forall P xs → Forall P (permute_0231 n c h k xs).
Proof.
  intros HP. apply Forall_forall. intros x Hx. unfold permute_0231 in Hx.
  apply list_elem_of_bind in Hx as (i & Hx & _).
  apply list_elem_of_bind in Hx as (y & Hx & _).
  apply list_elem_of_bind in Hx as (z & Hx & _).
  apply list_elem_of_bind in Hx as (q & Hx & _).
  rewrite Forall_forall in HP. apply HP.
  destruct (xs !! _) as [v|] eqn:E; simpl in Hx.
  - apply list_elem_of_singleton in Hx as ->. by eapply list_elem_of_lookup_2.
  - by apply elem_of_nil in Hx.
Qed.

Lemma zero_le_one_f32 : SFleb (F32.of_Z 0) (F32.of_Z 1) = true.
Proof. reflexivity. Qed.

(** In PIL mode: the image is read, not written; what is converted is an
    array on the CPU, channels last, that holds the elements of the image
    scaled by 0.5, shifted by 0.5 and clamped to [[0, 1]]. *)
Lemma postprocess_pil_array image s im s' :
  postprocess C (Some "pil"%string) image s = (Ok im, s') →
  ∃ ps arr T (n c h k : Z),
    im = PilImages ps
    ∧ numpy_to_pil C arr = Ok ps
    ∧ heap (world s) !! image = Some T
    ∧ heap (world s') !! image = Some T
    ∧ t_shape T = [n; c; h; k]
    ∧ t_shape arr = [n; h; k; c]
    ∧ t_device arr = "cpu"%string
    ∧ t_data arr
      = F32s (permute_0231 (Z.to_nat n) (Z.to_nat c) (Z.to_nat h) (Z.to_nat k)
                (map (F32.clamp (F32.of_Z 0) (F32.of_Z 1))
                   (map (λ x, F32.add x F32.half)
                      (map (λ x, F32.mul x F32.half)
                         (as_floats (t_data T)))))).
Proof.
  intros H. pose proof (postprocess_grows _ _ _ _ _ _ H) as G.
  unfold postprocess in H. simpl in H.
  bind_ok H. bind_ok H. bind_ok H. bind_ok H. bind_ok H. bind_ok H. bind_ok H.
  apply ret_inv in H as [[= ->] ->].
  apply tensor_mul_scalar_spec in H0 as [G0 (T0 & A0 & B0)].
  apply tensor_add_scalar_spec in H1 as [G1 (T1 & A1 & B1)].
  apply tensor_clamp_spec in H2 as [[G2 (T2 & A2 & B2)] _].
  apply tensor_to_spec in H3 as [[G3 (T3 & A3 & B3)] _].
  apply tensor_permute_spec in H4
    as (n & c & h & k & [G4 (T4 & A4 & B4)] & (T4' & A4' & Sh)).
  apply tensor_numpy_spec in H5 as [-> A5].
  apply lift_pure_inv in H6 as [E ->].
  rewrite A5 in B4. injection B4 as ->.
  rewrite A4 in A4'. injection A4' as <-.
  rewrite A4 in B3. injection B3 as ->.
  rewrite A3 in B2. injection B2 as ->.
  rewrite A2 in B1. injection B1 as ->.
  rewrite A1 in B0. injection B0 as ->.
  eexists a5, _, T0, n, c, h, k.
  split; [done|]. split; [symmetry; exact E|]. split; [done|].
  split. { rewrite (grows_value _ _ _ G); [done|by rewrite A0]. }
  split; [done|]. split; [done|]. split; [done|]. reflexivity.
Qed.

(** X7. With [output_type="pil"], what is handed to the image converter
    is an array on the CPU with the channels last, (n, h, w, c) for an
    image of shape (n, c, h, w), whose elements are each a NaN or in
    [[0, 1]]; the image the loop ended with is read and not changed. *)
Theorem pil_array_layout_and_range image s im s' :
  postprocess C (Some "pil"%string) image s = (Ok im, s') →
  ∃ ps arr T (n c h k : Z),
    im = PilImages ps
    ∧ numpy_to_pil C arr = Ok ps
    ∧ heap (world s) !! image = Some T
    ∧ heap (world s') !! image = Some T
    ∧ t_shape T = [n; c; h; k]
    ∧ t_shape arr = [n; h; k; c]
    ∧ t_device arr = "cpu"%string
    ∧ elem_within 0 1 arr.
Proof.
  intros H.
  apply postprocess_pil_array in H
    as (ps & arr & T & n & c & h & k & Im & Np & H0 & H1 & ST & SA & Dv & Da).
  exists ps, arr, T, n, c, h, k.
  repeat (split; [done|]).
  unfold elem_within. rewrite Da.
  apply permute_0231_Forall, Forall_map, Forall_forall. intros x _.
  destruct (F32.is_nan x) eqn:En.
  - left. unfold F32.clamp. by rewrite En.
  - right. apply clamp_within; [apply zero_le_one_f32|done].
Qed.

Lemma clamp_in_range lo hi x :
  F32.within lo hi x = true → F32.clamp lo hi x = x.
Proof.
  unfold F32.within, F32.clamp. intros H.
  apply andb_prop in H as [H1 H2].
  assert (F32.is_nan x = false) as -> by (by destruct x, lo).
  by rewrite (leb_not_ltb _ _ H1), (leb_not_ltb _ _ H2).
Qed.

Lemma clamp_data_in_range lo hi T :
  elem_strictly_within lo hi T →
  mkTensor (t_shape T) (t_device T) (clamp_data lo hi (t_data T)) = T.
Proof.
  unfold elem_strictly_within. destruct T as [sh dev [xs|xs]]; simpl;
    intros H; do 2 f_equal.
  - induction H as [|x xs Hx _ IH]; simpl; [done|].
    by rewrite clamp_in_range, IH.
  - induction H as [|x xs Hx _ IH]; simpl; [done|].
    rewrite IH. f_equal. unfold clampZ. lia.
Qed.

(** X9. With [output_type="tensor"], the returned image is always a new
    tensor object, never the one the loop ended with, and the tensor the
    loop ended with is not changed; when every element of it is in
    [[-1, 1]] already, the new tensor holds the same contents. *)
Theorem tensor_mode_keeps_values_in_range image s im s' :
  postprocess C (Some "tensor"%string) image s = (Ok im, s') →
  ∃ r T, im = TensorImage r
         ∧ r ≠ image
         ∧ heap (world s) !! r = None
         ∧ heap (world s) !! image = Some T
         ∧ heap (world s') !! image = Some T
         ∧ (elem_strictly_within (-1) 1 T → heap (world s') !! r = Some T).
Proof.
  intros H.
  apply postprocess_tensor in H as (G & r & T & -> & HT & Fr & Hr).
  exists r, T. split; [done|].
  split. { intros ->. congruence. }
  split; [done|]. split; [done|].
  split. { rewrite (grows_value _ _ _ G); [done|by rewrite HT]. }
  intros Hin. by rewrite Hr, clamp_data_in_range.
Qed.

Context (HF : FrameContract C) (HS : ShapeContract C).

(** X8. With [output_type="pil"], a call whose images do not have four
    dimensions, because the network declares a sample size that is a
    sequence of other than two numbers, or none at all, does not return:
    the permutation to channels-last is defined on four dimensions only.
    The shape assumptions are [ShapeContract], ownership is
    [FrameContract]. *)
Theorem pil_mode_needs_four_dimensions self b g cs n rd s :
  (∀ shape, image_shape self b = Ok shape → length shape ≠ 4%nat) →
  from_option (λ c, is_Some (heap (world s) !! c)) True cs →
  is_ok (DDPMPipeline_Costum_call C self b g n (Some "pil"%string) rd s).1
  = false
  ∧ is_ok (DDPMPipeline_Costum_ClsEmb_call C self b g cs n
             (Some "pil"%string) rd s).1 = false.
Proof.
  intros Hlen Hcs. split.
  - destruct (DDPMPipeline_Costum_call C self b g n (Some "pil"%string) rd s)
      as [[out|e] s'] eqn:H; [|done]. exfalso.
    apply Costum_call_shape in H as Esh. specialize (Hlen _ Esh).
    apply Costum_call_inv in H as (image & ni & s1 & im & D & P & _).
    apply (Costum_denoise_spec _ HF) in D
      as (N & ts & evs & i0 & _ & _ & _ & _ & _ & _ & _ & _ & _ & _ & _ & Sh).
    apply postprocess_pil_array in P
      as (ps & arr & T & n' & c & h & k & _ & _ & HT & _ & HSh & _).
    specialize (Sh HS). unfold shape_at in Sh. rewrite HT in Sh.
    injection Sh as Sh. rewrite <- Sh, HSh in Hlen. by apply Hlen.
  - destruct (DDPMPipeline_Costum_ClsEmb_call C self b g cs n
                (Some "pil"%string) rd s) as [[out|e] s'] eqn:H; [|done].
    exfalso.
    apply ClsEmb_call_shape in H as Esh. specialize (Hlen _ Esh).
    apply ClsEmb_call_inv in H as (image & ni & c0 & s1 & im & D & P & _).
    apply (ClsEmb_denoise_spec _ HF) in D
      as (N & L & ts & evs & i0 & _ & _ & _ & _ & _ & _ & _ & _ & _ & _ & _
          & _ & _ & _ & _ & Sh); [|done].
    apply postprocess_pil_array in P
      as (ps & arr & T & n' & c & h & k & _ & _ & HT & _ & HSh & _).
    specialize (Sh HS). unfold shape_at in Sh. rewrite HT in Sh.
    injection Sh as Sh. rewrite <- Sh, HSh in Hlen. by apply Hlen.
Qed.

(** X10. A call that leaves out [batch_size], [output_type],
    [return_dict] and the labels returns, when it returns, a structured
    result whose images are a list of exactly one PIL image, so that
    [pipe().images[0]] is defined.  The shape assumptions are
    [ShapeContract], ownership is [FrameContract]. *)
Theorem default_call_returns_one_pil_image self kw s out s' :
  kw_batch_size kw = None →
  kw_output_type kw = None →
  kw_return_dict kw = None →
  kw_class_sample kw = None →
  DDPMPipeline_Costum__call__ C self kw s = (Ok out, s')
  ∨ DDPMPipeline_Costum_ClsEmb__call__ C self kw s = (Ok out, s') →
  ∃ ps, out = ImagePipelineOutput (PilImages ps) ∧ length ps = 1%nat.
Proof.
  intros Hb Ho Hr Hc H.
  assert (∃ image s1 im,
            image_shape self 1 = Ok (sampled_shape self 1)
            ∧ shape_at (world s1) image = Some (sampled_shape self 1)
            ∧ postprocess C (Some "pil"%string) image s1 = (Ok im, s')
            ∧ out = ImagePipelineOutput im)
    as (image & s1 & im & Esh & Sh & P & ->).
  { destruct H as [H|H].
    - unfold DDPMPipeline_Costum__call__ in H. rewrite Hb, Ho, Hr, Hc in H.
      simpl in H.
      apply Costum_call_shape in H as Esh.
      apply Costum_call_inv in H as (image & ni & s1 & im & D & P & ->).
      apply (Costum_denoise_spec _ HF) in D
        as (N & ts & evs & i0 & _ & _ & _ & _ & _ & _ & _ & _ & _ & _ & _ & Sh).
      exists image, s1, im. eauto.
    - unfold DDPMPipeline_Costum_ClsEmb__call__ in H.
      rewrite Hb, Ho, Hr, Hc in H. simpl in H.
      apply ClsEmb_call_shape in H as Esh.
      apply ClsEmb_call_inv in H as (image & ni & c0 & s1 & im & D & P & ->).
      apply (ClsEmb_denoise_spec _ HF) in D
        as (N & L & ts & evs & i0 & _ & _ & _ & _ & _ & _ & _ & _ & _ & _ & _
            & _ & _ & _ & _ & Sh); [|done].
      exists image, s1, im. eauto. }
  apply postprocess_pil in P as (_ & ps & arr & T & -> & Hp & HT & Hbd); [|done].
  exists ps. split; [done|].
  unfold shape_at in Sh. rewrite HT in Sh. injection Sh as Sh.
  pose proof (numpy_to_pil_length _ HS _ _ Hp) as Hlen.
  rewrite Hbd in Hlen. unfold batch_dim in Hlen.
  rewrite Sh, (image_shape_head _ _ _ Esh) in Hlen. injection Hlen as Hlen.
  lia.
Qed.

End Output.

(** ** The image converter, and the calls that sample nothing *)

Section Converter.

Context {GState Sched Pil : Type}.
Context (C : @Collab GState Sched Pil).
Context (f : Tensor → Outcome (list Pil)).
Implicit Types (w : @World GState Sched) (s : @State GState Sched).

Lemma denoise_loop_converter labels g ts : ∀ image s,
  denoise_loop (with_numpy_to_pil f C) labels g ts image s
  = denoise_loop C labels g ts image s.
Proof.
  induction ts as [|t ts IH]; intros image s; simpl; [done|].
  unfold bind.
  change (call_unet (with_numpy_to_pil f C)) with (call_unet C).
  destruct (call_unet C image t labels s) as [[mo|e] s1]; [|done].
  change (call_step (with_numpy_to_pil f C)) with (call_step C).
  destruct (call_step C mo t image g s1) as [[im|e] s2]; [|done].
  apply IH.
Qed.

Lemma Costum_denoise_converter self b g n s :
  DDPMPipeline_Costum_denoise (with_numpy_to_pil f C) self b g n s
  = DDPMPipeline_Costum_denoise C self b g n s.
Proof.
  unfold DDPMPipeline_Costum_denoise, bind.
  change (initial_noise (with_numpy_to_pil f C)) with (initial_noise C).
  destruct (initial_noise C self b g s) as [[im|e] s1]; [|done].
  destruct (tensor_clone im s1) as [[ni|e] s2]; [|done].
  change (call_set_timesteps (with_numpy_to_pil f C))
    with (call_set_timesteps C).
  destruct (call_set_timesteps C n s2) as [[u|e] s3]; [|done].
  change (get_timesteps (with_numpy_to_pil f C)) with (get_timesteps C).
  destruct (get_timesteps C s3) as [[ts|e] s4]; [|done].
  by rewrite denoise_loop_converter.
Qed.

Lemma ClsEmb_denoise_converter self b g cs n s :
  DDPMPipeline_Costum_ClsEmb_denoise (with_numpy_to_pil f C) self b g cs n s
  = DDPMPipeline_Costum_ClsEmb_denoise C self b g cs n s.
Proof.
  unfold DDPMPipeline_Costum_ClsEmb_denoise, bind.
  change (initial_noise (with_numpy_to_pil f C)) with (initial_noise C).
  destruct (initial_noise C self b g s) as [[im|e] s1]; [|done].
  destruct (tensor_clone im s1) as [[ni|e] s2]; [|done].
  change (call_set_timesteps (with_numpy_to_pil f C))
    with (call_set_timesteps C).
  destruct (call_set_timesteps C n s2) as [[u|e] s3]; [|done].
  change (class_embedding (with_numpy_to_pil f C)) with (class_embedding C).
  destruct (class_embedding C self b g cs s3) as [[c|e] s4]; [|done].
  change (get_timesteps (with_numpy_to_pil f C)) with (get_timesteps C).
  destruct (get_timesteps C s4) as [[ts|e] s5]; [|done].
  by rewrite denoise_loop_converter.
Qed.

Lemma postprocess_converter ot image s :
  str_is ot "pil" = false →
  postprocess (with_numpy_to_pil f C) ot image s = postprocess C ot image s.
Proof. unfold postprocess. by intros ->. Qed.

(** X15. The image converter is called in PIL mode only: with any other
    [output_type], a call to either pipeline has the same outcome and
    leaves the same state whatever the image converter is. *)
Theorem image_converter_only_in_pil_mode self b g cs n ot rd s :
  str_is ot "pil" = false →
  DDPMPipeline_Costum_call (with_numpy_to_pil f C) self b g n ot rd s
  = DDPMPipeline_Costum_call C self b g n ot rd s
  ∧ DDPMPipeline_Costum_ClsEmb_call (with_numpy_to_pil f C) self b g cs n ot
      rd s
    = DDPMPipeline_Costum_ClsEmb_call C self b g cs n ot rd s.
Proof.
  intros E. split.
  - unfold DDPMPipeline_Costum_call, DDPMPipeline_Costum_finish, bind.
    rewrite Costum_denoise_converter.
    destruct (DDPMPipeline_Costum_denoise C self b g n s) as [[r|e] s1];
      [|done].
    by rewrite postprocess_converter.
  - unfold DDPMPipeline_Costum_ClsEmb_call, DDPMPipeline_Costum_ClsEmb_finish,
      bind.
    rewrite ClsEmb_denoise_converter.
    destruct (DDPMPipeline_Costum_ClsEmb_denoise C self b g cs n s)
      as [[r|e] s1]; [|done].
    by rewrite postprocess_converter.
Qed.

(** X14. A call to either pipeline whose network declares no sample size
    ([sample_size] is [None]) raises [TypeError] when it builds the image
    shape: no collaborator is called, and nothing is changed. *)
Theorem call_without_sample_size_raises self b g cs n ot rd s :
  sample_size (unet_config self) = SizeNone →
  DDPMPipeline_Costum_call C self b g n ot rd s = (Raise "TypeError", s)
  ∧ DDPMPipeline_Costum_ClsEmb_call C self b g cs n ot rd s
    = (Raise "TypeError", s).
Proof.
  intros E.
  unfold DDPMPipeline_Costum_call, DDPMPipeline_Costum_denoise,
    DDPMPipeline_Costum_ClsEmb_call, DDPMPipeline_Costum_ClsEmb_denoise,
    initial_noise, image_shape, bind, lift_pure.
  by rewrite E.
Qed.

End Converter.

(** ** The further properties on the reference collaborators *)

(** X3 on a loop over the schedule 5, 0, 3. *)
Lemma denoise_loop_visits_schedule_in_order_witness :
  unet_timesteps (new_events Demo.state_tame Demo.loop_ok.2) = [5; 0; 3]
  ∧ step_timesteps (new_events Demo.state_tame Demo.loop_ok.2) = [5; 0; 3].
Proof.
  refine (denoise_loop_visits_schedule_in_order
            (Ref.collab Ref.net_half false) None (GenOne 0) [5; 0; 3] 0%nat
            Demo.state_tame (Demo.loop_result Demo.loop_ok) Demo.loop_ok.2 _).
  run_returns.
Defined.

(** X2 on a loop whose scheduler step raises at the second timestep. *)
Lemma denoise_loop_stops_at_first_exception_witness :
  denoise_loop (Ref.collab Ref.net_half false) None (GenOne 3)
    ([0] ++ 5 :: [7]) 0%nat Demo.state_tame
  = (Raise "ReferenceError"%string,
     mkState Demo.fail_unet.2 (events Demo.loop_prefix.2 ++ Demo.fail_tail)).
Proof.
  refine (denoise_loop_stops_at_first_exception
            (Ref.collab Ref.net_half false) None (GenOne 3) [0] 5 [7] 0%nat
            Demo.state_tame (Demo.loop_result Demo.loop_prefix)
            Demo.loop_prefix.2 "ReferenceError"%string Demo.fail_unet.2
            Demo.fail_tail _ _).
  - run_returns.
  - right. exists Demo.fail_model_output, Demo.fail_unet.2.
    split; [run_returns|]. split; [run_returns|]. reflexivity.
Defined.

(** X5 on a run in a world that holds a tensor of the caller's. *)
Lemma caller_tensors_untouched_witness :
  heap (world Demo.run_state2.2) !! 4%nat
  = heap (world (Ref.state2 42)) !! 4%nat.
Proof.
  refine (caller_tensors_untouched (Ref.collab Ref.net_half true)
            (ref_frame_ok _ _) Ref.pipe 2 (GenOne 0) None 2
            (Some "tensor"%string) false (Ref.state2 42)
            (Ref.returned Demo.run_state2) Demo.run_state2.2 4%nat _ _ _).
  - exact I.
  - left. run_returns.
  - vm_compute. eauto.
Defined.

(** X7 on an image that holds a value above 1, a value below -1 and a
    NaN. *)
Lemma pil_array_layout_and_range_witness :
  ∃ ps arr T (n c h k : Z),
    Demo.images_result Demo.post_pil = PilImages ps
    ∧ numpy_to_pil (Ref.collab Ref.net_half false) arr = Ok ps
    ∧ heap (world Demo.state_wild) !! 0%nat = Some T
    ∧ heap (world Demo.post_pil.2) !! 0%nat = Some T
    ∧ t_shape T = [n; c; h; k]
    ∧ t_shape arr = [n; h; k; c]
    ∧ t_device arr = "cpu"%string
    ∧ elem_within 0 1 arr.
Proof.
  refine (pil_array_layout_and_range (Ref.collab Ref.net_half false) 0%nat
            Demo.state_wild (Demo.images_result Demo.post_pil)
            Demo.post_pil.2 _).
  run_returns.
Defined.

(** X9 on an image whose values are 1, -1, 0 and 0.5. *)
Lemma tensor_mode_keeps_values_in_range_witness :
  ∃ r T, Demo.images_result Demo.post_tensor = TensorImage r
         ∧ r ≠ 0%nat
         ∧ heap (world Demo.state_tame) !! r = None
         ∧ heap (world Demo.state_tame) !! 0%nat = Some T
         ∧ heap (world Demo.post_tensor.2) !! 0%nat = Some T
         ∧ (elem_strictly_within (-1) 1 T →
            heap (world Demo.post_tensor.2) !! r = Some T).
Proof.
  refine (tensor_mode_keeps_values_in_range (Ref.collab Ref.net_half false)
            0%nat Demo.state_tame (Demo.images_result Demo.post_tensor)
            Demo.post_tensor.2 _).
  run_returns.
Defined.

(** X8 on a pipeline whose images have three dimensions. *)
Lemma pil_mode_needs_four_dimensions_witness :
  is_ok (DDPMPipeline_Costum_call (Ref.collab Ref.net_half false) Demo.pipe3d
           2 (GenOne 0) 2 (Some "pil"%string) true (Ref.state0 42)).1 = false
  ∧ is_ok (DDPMPipeline_Costum_ClsEmb_call (Ref.collab Ref.net_half false)
             Demo.pipe3d 2 (GenOne 0) None 2 (Some "pil"%string) true
             (Ref.state0 42)).1 = false.
Proof.
  refine (pil_mode_needs_four_dimensions (Ref.collab Ref.net_half false)
            (ref_frame_ok _ _) (ref_shape_ok _ _) Demo.pipe3d 2 (GenOne 0) None
            2 true (Ref.state0 42) _ _).
  - intros shape E. vm_compute in E. injection E as <-. simpl. lia.
  - exact I.
Defined.

(** X10 on a call that gives the step count and nothing else. *)
Lemma default_call_returns_one_pil_image_witness :
  ∃ ps, Ref.returned Demo.run_defaults = ImagePipelineOutput (PilImages ps)
        ∧ length ps = 1%nat.
Proof.
  refine (default_call_returns_one_pil_image (Ref.collab Ref.net_half false)
            (ref_frame_ok _ _) (ref_shape_ok _ _) Ref.pipe Demo.two_steps
            (Ref.state0 42) (Ref.returned Demo.run_defaults)
            Demo.run_defaults.2 _ _ _ _ _).
  - reflexivity.
  - reflexivity.
  - reflexivity.
  - reflexivity.
  - left. run_returns.
Defined.

(** X11 on a pipeline on the device ["mps:0"]. *)
Lemma sampled_tensors_on_pipeline_device_witness :
  ∃ shape noise_init c,
    image_shape Demo.pipe_mps 2 = Ok shape
    ∧ head (new_events (Ref.state0 42) Demo.run_mps.2)
      = Some (EvRandn shape (GenOne 0)
                (if on_mps Demo.pipe_mps then None
                 else Some (device Demo.pipe_mps)))
    ∧ output_noise (Ref.returned Demo.run_mps) = Some noise_init
    ∧ output_labels (Ref.returned Demo.run_mps) = Some c
    ∧ device_at (world Demo.run_mps.2) c = Some (device Demo.pipe_mps)
    ∧ (on_mps Demo.pipe_mps = true →
       device_at (world Demo.run_mps.2) noise_init
       = Some (device Demo.pipe_mps)).
Proof.
  refine (sampled_tensors_on_pipeline_device (Ref.collab Ref.net_half true)
            (ref_frame_ok _ _) Demo.pipe_mps 2 (GenOne 0) 2 (Ref.state0 42)
            (Ref.returned Demo.run_mps) Demo.run_mps.2 _).
  run_returns.
Defined.

(** X12 on a run of each pipeline. *)
Lemma tensor_tuple_shapes_witness :
  (∃ shape l noise_init,
     image_shape Ref.pipe 2 = Ok shape
     ∧ output_images (Ref.returned Ref.plain_tensor) = TensorImage l
     ∧ output_noise (Ref.returned Ref.plain_tensor) = Some noise_init
     ∧ shape_at (world Ref.plain_tensor.2) l = Some shape
     ∧ shape_at (world Ref.plain_tensor.2) noise_init = Some shape)
  ∧ (∃ shape l noise_init,
       image_shape Ref.pipe 2 = Ok shape
       ∧ output_images (Ref.returned Ref.cls_sampled) = TensorImage l
       ∧ output_noise (Ref.returned Ref.cls_sampled) = Some noise_init
       ∧ shape_at (world Ref.cls_sampled.2) l = Some shape
       ∧ shape_at (world Ref.cls_sampled.2) noise_init = Some shape).
Proof.
  split.
  - refine (tensor_tuple_shapes (Ref.collab Ref.net_half false)
              (ref_frame_ok _ _) (ref_shape_ok _ _) Ref.pipe 2 (GenOne 0) None 3
              (Ref.state0 42) (Ref.returned Ref.plain_tensor)
              Ref.plain_tensor.2 _ _).
    + exact I.
    + left. run_returns.
  - refine (tensor_tuple_shapes (Ref.collab Ref.net_half true)
              (ref_frame_ok _ _) (ref_shape_ok _ _) Ref.pipe 2 (GenOne 0) None 2
              (Ref.state0 42) (Ref.returned Ref.cls_sampled)
              Ref.cls_sampled.2 _ _).
    + exact I.
    + right. run_returns.
Defined.

(** X14 on a pipeline whose network declares no sample size. *)
Lemma call_without_sample_size_raises_witness :
  DDPMPipeline_Costum_call (Ref.collab Ref.net_half false) Demo.pipe_none 2
    (GenOne 0) 2 (Some "pil"%string) true (Ref.state0 42)
  = (Raise "TypeError"%string, Ref.state0 42)
  ∧ DDPMPipeline_Costum_ClsEmb_call (Ref.collab Ref.net_half false)
      Demo.pipe_none 2 (GenOne 0) None 2 (Some "pil"%string) true
      (Ref.state0 42)
    = (Raise "TypeError"%string, Ref.state0 42).
Proof.
  refine (call_without_sample_size_raises (Ref.collab Ref.net_half false)
            Demo.pipe_none 2 (GenOne 0) None 2 (Some "pil"%string) true
            (Ref.state0 42) _).
  reflexivity.
Defined.

(** X15 on a converter that always fails and a call with
    [output_type="np"]. *)
Lemma image_converter_only_in_pil_mode_witness :
  DDPMPipeline_Costum_call
    (with_numpy_to_pil Demo.no_pil (Ref.collab Ref.net_half false)) Ref.pipe 2
    (GenOne 0) 2 (Some "np"%string) false (Ref.state0 42)
  = DDPMPipeline_Costum_call (Ref.collab Ref.net_half false) Ref.pipe 2
      (GenOne 0) 2 (Some "np"%string) false (Ref.state0 42)
  ∧ DDPMPipeline_Costum_ClsEmb_call
      (with_numpy_to_pil Demo.no_pil (Ref.collab Ref.net_half false)) Ref.pipe
      2 (GenOne 0) None 2 (Some "np"%string) false (Ref.state0 42)
    = DDPMPipeline_Costum_ClsEmb_call (Ref.collab Ref.net_half false) Ref.pipe
        2 (GenOne 0) None 2 (Some "np"%string) false (Ref.state0 42).
Proof.
  refine (image_converter_only_in_pil_mode (Ref.collab Ref.net_half false)
            Demo.no_pil Ref.pipe 2 (GenOne 0) None 2 (Some "np"%string) false
            (Ref.state0 42) _).
  reflexivity.
Defined.
